(** * A Prolog engine: unification of compounds, clause compiler, bytecode machine

    Shallow embedding of
    - [engine/compound.go]   ([Compound.Unify], [Compound.Compare],
      [Compound.unparseNumberVar], [Cons], [List], [ListRest], [Seq]), and
    - the virtual machine file of package [prolog] ([Engine.RegisterN],
      [Engine.arrive], [Engine.exec], [clauses.Call], [clause.compile*],
      [clause.xrOffset], [clause.varOffset], [predicateN.Call],
      [assignment]).

    Go values are modelled as follows.
    - A [Term] interface value is a value of the inductive [Term]; the nil
      interface is [TNil].
    - A [*Variable] is the address of a cell of a heap; the cell holds the
      fields [Name] and [Ref].  A fresh [Variable{}] is a fresh address.
    - A [func() Promise] is a [thunk].
    - A run-time panic is the outcome [Panic]. *)

From Stdlib Require Import ZArith List String Bool Lia.
From Stdlib Require DecimalString DecimalZ.
From stdpp Require Import base gmap strings list numbers option.

Local Open Scope Z_scope.
Local Open Scope string_scope.
Local Open Scope list_scope.

(** ** Terms *)

Definition Atom := string.
Definition Integer := Z.
(** A [float64] is kept as its IEEE-754 bit pattern. *)
Definition Float := Z.
(** The identity of a logical variable. *)
Definition VarId := nat.
Bind Scope nat_scope with VarId.
Bind Scope Z_scope with Integer.
Bind Scope string_scope with Atom.

(** [type procedureIndicator struct { name Atom; arity Integer }] *)
Record procedureIndicator : Type := mkPI { name : Atom; arity : Integer }.

#[global] Instance procedureIndicator_eq_dec : EqDecision procedureIndicator.
Proof. solve_decision. Defined.

#[global] Instance procedureIndicator_countable : Countable procedureIndicator.
Proof.
  refine (inj_countable' (fun p => (name p, arity p))
                         (fun q => mkPI (fst q) (snd q)) _).
  intros []; reflexivity.
Defined.

#[local] Set Warnings "-register-all".
Inductive Term : Type :=
| TNil
| TAtom (a : Atom)
| TInteger (n : Integer)
| TFloat (f : Float)
| TVar (v : VarId)
| TCompound (Functor : Atom) (Args : list Term)
| TIndicator (pi : procedureIndicator).

(** Induction over terms that reaches the arguments of a compound. *)
Fixpoint Term_rect' (P : Term -> Type) (Q : list Term -> Type)
    (HNil : P TNil) (HAtom : forall a, P (TAtom a))
    (HInt : forall n, P (TInteger n)) (HFloat : forall f, P (TFloat f))
    (HVar : forall v, P (TVar v))
    (HComp : forall f args, Q args -> P (TCompound f args))
    (HPI : forall pi, P (TIndicator pi))
    (Hnil : Q nil) (Hcons : forall t ts, P t -> Q ts -> Q (t :: ts))
    (t : Term) {struct t} : P t :=
  match t with
  | TNil => HNil
  | TAtom a => HAtom a
  | TInteger n => HInt n
  | TFloat f => HFloat f
  | TVar v => HVar v
  | TCompound f args =>
      HComp f args
        ((fix go (ts : list Term) : Q ts :=
            match ts with
            | nil => Hnil
            | t' :: ts' =>
                Hcons t' ts'
                  (Term_rect' P Q HNil HAtom HInt HFloat HVar HComp HPI Hnil Hcons t')
                  (go ts')
            end) args)
  | TIndicator pi => HPI pi
  end.

Definition Term_ind' (P : Term -> Prop)
    (HNil : P TNil) (HAtom : forall a, P (TAtom a))
    (HInt : forall n, P (TInteger n)) (HFloat : forall f, P (TFloat f))
    (HVar : forall v, P (TVar v))
    (HComp : forall f args, Forall P args -> P (TCompound f args))
    (HPI : forall pi, P (TIndicator pi)) : forall t, P t :=
  Term_rect' P (Forall P) HNil HAtom HInt HFloat HVar HComp HPI
    (Forall_nil P) (fun t ts Ht Hts => Forall_cons P t ts Ht Hts).

(** [Cons(car, cdr)], [ListRest(rest, ts...)] and [List(ts...)] of compound.go. *)
Definition Cons (car cdr : Term) : Term := TCompound "." (car :: cdr :: nil).

Definition ListRest (rest : Term) (ts : list Term) : Term :=
  fold_right Cons rest ts.

Definition List_ (ts : list Term) : Term := ListRest (TAtom "[]") ts.

(** The variables that occur in a term as it is written. *)
Fixpoint term_vars (t : Term) : list VarId :=
  match t with
  | TVar v => v :: nil
  | TCompound _ args => flat_map term_vars args
  | _ => nil
  end.

(** ** Package [engine]: unification of a compound against a term

    This version of the engine threads a persistent environment [*Env]
    through unification.  [Compound.Unify] is in compound.go; the
    environment and the [Unify] methods of the other kinds of term are
    not, and are the operations of [EnvModel]. *)
Module engine.

(** The parts of package [engine] that compound.go calls but does not
    define. *)
Class EnvModel : Type := {
  (** [*Env] *)
  Env : Type;
  (** [env.Resolve(t)] *)
  Resolve : Env -> Term -> Term;
  (** [Variable.Unify(t, occursCheck, env)] for the variable [v] *)
  Variable_Unify : VarId -> Term -> bool -> Env -> Env * bool;
  (** [x.Unify(t, occursCheck, env)] for a receiver [x] that is neither a
      compound nor a variable *)
  Atomic_Unify : Term -> Term -> bool -> Env -> Env * bool
}.

Section Unify.
Context {EM : EnvModel}.

(** The method [Unify] of the interface [Term], dispatched on the dynamic
    type of the receiver.  The case of [TCompound] is [Compound.Unify]:
<<
  switch t := env.Resolve(t).(type) {
  case *Compound:
    if c.Functor != t.Functor { return env, false }
    if len(c.Args) != len(t.Args) { return env, false }
    var ok bool
    for i := range c.Args {
      env, ok = c.Args[i].Unify(t.Args[i], occursCheck, env)
      if !ok { return env, false }
    }
    return env, true
  case Variable:
    return t.Unify(c, occursCheck, env)
  default:
    return env, false
  }
>> *)
Fixpoint Unify (c t : Term) (occursCheck : bool) (env : Env) {struct c}
  : Env * bool :=
  match c with
  | TCompound f cargs =>
      match Resolve env t with
      | TCompound g targs =>
          if negb (String.eqb f g) then (env, false)
          else if negb (Nat.eqb (length cargs) (length targs)) then (env, false)
          else
            (fix loop (cs ts : list Term) (env : Env) {struct cs} : Env * bool :=
               match cs, ts with
               | a :: cs', b :: ts' =>
                   let '(env', ok) := Unify a b occursCheck env in
                   if negb ok then (env', false) else loop cs' ts' env'
               | _, _ => (env, true)
               end) cargs targs env
      | TVar v => Variable_Unify v c occursCheck env
      | _ => (env, false)
      end
  | TVar v => Variable_Unify v t occursCheck env
  | _ => Atomic_Unify c t occursCheck env
  end.

(** [(c *Compound).Unify(t, occursCheck, env)] with [c = &Compound{f, cargs}]. *)
Definition Compound_Unify (f : Atom) (cargs : list Term) (t : Term)
    (occursCheck : bool) (env : Env) : Env * bool :=
  Unify (TCompound f cargs) t occursCheck env.

(** The loop of [Compound.Unify] on its own: the pairs of arguments from
    left to right, each in the environment the previous one returned,
    stopping at the first pair that fails. *)
Fixpoint UnifyArgs (cs ts : list Term) (occursCheck : bool) (env : Env)
  : Env * bool :=
  match cs, ts with
  | a :: cs', b :: ts' =>
      let '(env', ok) := Unify a b occursCheck env in
      if negb ok then (env', false) else UnifyArgs cs' ts' occursCheck env'
  | _, _ => (env, true)
  end.

(** Every pair of [cs] and [ts] unifies, the environment going from
    [env] through the pairs in order to [env']. *)
Inductive ArgsUnified (occursCheck : bool)
  : list Term -> list Term -> Env -> Env -> Prop :=
| ArgsUnified_nil env : ArgsUnified occursCheck nil nil env env
| ArgsUnified_cons a b cs ts env env1 env' :
    Unify a b occursCheck env = (env1, true) ->
    ArgsUnified occursCheck cs ts env1 env' ->
    ArgsUnified occursCheck (a :: cs) (b :: ts) env env'.

End Unify.

(** *** A model of the environment

    The environment [*Env], [Env.Resolve] and the [Unify] methods of
    variables and of atomic terms are not in compound.go. *)
Module SpecEnv.

(** Modelled from the spec: [Env.Resolve] is not in compound.go; section
    3: the environment is "a mapping from Variable identity to Term" and
    "resolve(t) follows bindings until reaching a non-variable or an
    unbound variable". *)
Fixpoint resolve_fuel (fuel : nat) (env : gmap VarId Term) (t : Term) : Term :=
  match fuel with
  | O => t
  | S fuel' =>
      match t with
      | TVar v =>
          match env !! v with
          | Some t' => resolve_fuel fuel' env t'
          | None => t
          end
      | _ => t
      end
  end.

(** A chain of bindings without a cycle is no longer than the number of
    bindings. *)
Definition resolve (env : gmap VarId Term) (t : Term) : Term :=
  resolve_fuel (S (size env)) env t.

(** Modelled from the spec: the occurs check is not in compound.go;
    section 4.1: "the other side contains that variable". *)
Fixpoint contains_fuel (fuel : nat) (env : gmap VarId Term) (v : VarId)
    (t : Term) : bool :=
  match fuel with
  | O => false
  | S fuel' =>
      match resolve env t with
      | TVar w => Nat.eqb v w
      | TCompound _ args => existsb (contains_fuel fuel' env v) args
      | _ => false
      end
  end.

(** Modelled from the spec: the [Unify] methods of atomic terms are not
    in compound.go; section 4.1: "Atom/Integer/Float vs same kind: exact
    equality. Integer and Float are distinct kinds and never unify". *)
Definition atomic_eqb (a b : Term) : bool :=
  match a, b with
  | TAtom x, TAtom y => String.eqb x y
  | TInteger x, TInteger y => Z.eqb x y
  | TFloat x, TFloat y => Z.eqb x y
  | _, _ => false
  end.

(** Modelled from the spec: [Variable.Unify] is not in compound.go;
    section 4.1: "Variable vs anything: bind the variable to the other
    side; if occurs-check is on and the other side contains that
    variable, fail".  A variable is not bound to itself. *)
Definition bind_var (fuel : nat) (v : VarId) (t : Term) (occursCheck : bool)
    (env : gmap VarId Term) : gmap VarId Term * bool :=
  match t with
  | TVar w =>
      if Nat.eqb v w then (env, true) else (<[v := t]> env, true)
  | _ =>
      if occursCheck && contains_fuel fuel env v t then (env, false)
      else (<[v := t]> env, true)
  end.

(** Modelled from the spec: unification of two arbitrary terms is not in
    compound.go; section 4.1, rules 1 to 5. *)
Fixpoint unify_fuel (fuel : nat) (a b : Term) (occursCheck : bool)
    (env : gmap VarId Term) : gmap VarId Term * bool :=
  match fuel with
  | O => (env, false)
  | S fuel' =>
      match resolve env a, resolve env b with
      | TVar v, b' => bind_var fuel' v b' occursCheck env
      | a', TVar w => bind_var fuel' w a' occursCheck env
      | TCompound f cs, TCompound g ts =>
          if negb (String.eqb f g) then (env, false)
          else if negb (Nat.eqb (length cs) (length ts)) then (env, false)
          else
            (fix loop (cs ts : list Term) (env : gmap VarId Term) :=
               match cs, ts with
               | x :: cs', y :: ts' =>
                   let '(env', ok) := unify_fuel fuel' x y occursCheck env in
                   if negb ok then (env', false) else loop cs' ts' env'
               | _, _ => (env, true)
               end) cs ts env
      | a', b' => (env, atomic_eqb a' b')
      end
  end.

(** The model, for a bound [fuel] on the depth of the terms it visits. *)
Definition model (fuel : nat) : EnvModel := {|
  Env := gmap VarId Term;
  Resolve := resolve;
  Variable_Unify := fun v t occ env => unify_fuel fuel (TVar v) t occ env;
  Atomic_Unify := fun c t occ env => unify_fuel fuel c t occ env
|}.

End SpecEnv.

End engine.

(** ** Package [prolog]: the machine

    This version of the engine keeps the binding of a variable in the
    variable itself ([Variable.Ref]) and undoes bindings by resetting the
    variables of an [assignment]. *)
Module prolog.

(** *** Run-time values *)

(** What a Go function call comes to: it returns, or the run time stops it
    (index out of range, nil dereference, assignment to an entry of a nil
    map, stack exhausted). *)
Inductive outcome (A : Type) : Type :=
| Ret (a : A)
| Panic (why : string).
Arguments Ret {A} a.
Arguments Panic {A} why.

(** [type Variable struct { Name string; Ref Term }] *)
Record Variable_ : Type := mkVariable { Name : string; Ref : Term }.

(** The zero value [Variable{}]. *)
Definition zeroVariable : Variable_ := mkVariable "" TNil.

(** One record of the logger: [logrus.WithField(key, value).Warn(msg)]. *)
Record logEntry : Type := mkEntry {
  Level : string;
  Message : string;
  Data : list (string * procedureIndicator)
}.

(** The mutable store outside the engine: the variables allocated so far,
    the next free address, and the records the logger has received. *)
Record State : Type := mkState {
  heap : gmap VarId Variable_;
  next : VarId;
  logged : list logEntry
}.

(** A computation that reads and writes the store and may panic. *)
Definition M (A : Type) : Type := State -> outcome (A * State).

Definition ret {A : Type} (a : A) : M A := fun s => Ret (a, s).

Definition bind {A B : Type} (m : M A) (f : A -> M B) : M B :=
  fun s =>
    match m s with
    | Ret (a, s') => f a s'
    | Panic why => Panic why
    end.

Definition panic {A : Type} (why : string) : M A := fun _ => Panic why.

#[global] Instance M_ret : MRet M := @ret.
#[global] Instance M_bind : MBind M := fun A B f m => bind m f.

(** The cell at the address [v]. *)
Definition deref (h : gmap VarId Variable_) (v : VarId) : Variable_ :=
  default zeroVariable (h !! v).

(** [&Variable{}]: a fresh variable. *)
Definition new_Variable : M VarId :=
  fun s =>
    Ret (next s,
         mkState (<[next s := zeroVariable]> (heap s)) (S (next s)) (logged s)).

(** [v.Ref = t] *)
Definition set_Ref (v : VarId) (t : Term) (h : gmap VarId Variable_)
  : gmap VarId Variable_ :=
  <[v := mkVariable (Name (deref h v)) t]> h.

(** [v.Name = n] *)
Definition set_Name (v : VarId) (n : string) (h : gmap VarId Variable_)
  : gmap VarId Variable_ :=
  <[v := mkVariable n (Ref (deref h v))]> h.

Definition modify_heap (f : gmap VarId Variable_ -> gmap VarId Variable_)
  : M unit :=
  fun s => Ret (tt, mkState (f (heap s)) (next s) (logged s)).

(** [logrus.WithField("procedure", pi).Warn(msg)] *)
Definition logrus_Warn (pi : procedureIndicator) (msg : string) : M unit :=
  fun s =>
    Ret (tt, mkState (heap s) (next s)
               (logged s ++ mkEntry "warning" msg (("procedure", pi) :: nil) :: nil)).

(** [xs[i]] for a byte [i]; out of range panics. *)
Definition index {A : Type} (xs : list A) (i : Z) : M A :=
  match nth_error xs (Z.to_nat i) with
  | Some x => ret x
  | None => panic "index out of range"
  end.

(** *** Errors *)

(** An argument of a format string. *)
Inductive fmtArg : Type :=
| ArgByte (b : Z)
| ArgTerm (t : Term)
| ArgUnknown (u : Z).

(** A Go [error]: [errors.New(text)], [fmt.Errorf(format, a...)] kept
    unformatted, or an exception that carries a Prolog term. *)
Inductive error : Type :=
| errors_New (text : string)
| fmt_Errorf (format : string) (a : list fmtArg)
| Exception (term : Term) (cause : option error).

(** Modelled from the spec: [existenceErrorProcedure] is not in the source
    files; section 4.4: "produce an existence_error(procedure,
    name/arity)". *)
Definition existenceErrorProcedure (culprit : Term) : error :=
  Exception (TCompound "existence_error" (TAtom "procedure" :: culprit :: nil)) None.

(** Modelled from the spec: [typeErrorCallable] is not in the source
    files; section 6: "type_error(callable, T) (compiler)". *)
Definition typeErrorCallable (culprit : Term) : error :=
  Exception (TCompound "type_error" (TAtom "callable" :: culprit :: nil)) None.

(** Modelled from the spec: [systemError] is not in the source files;
    section 6: "an engine-internal system_error for unreachable states".
    The Go error it wraps is kept as the cause. *)
Definition systemError (err : error) : error :=
  Exception (TAtom "system_error") (Some err).

(** *** Promises *)

(** [Promise] and the closures of type [func() Promise].  A closure is a
    computation [Func f], but for the closure that [exec] builds for a
    call instruction, [func() Promise { return e.arrive(pf, astack, k) }]:
    it is kept as [ArriveThunk pf astack k] and reads the engine [e] when
    it is run (see [run]). *)
Inductive Promise : Type :=
| Bool (ok : bool)
| Error (err : error)
| Delay (k : list thunk)
with thunk : Type :=
| Func (f : M Promise)
| ArriveThunk (pf : procedureIndicator) (astack : Term) (k : thunk).

(** [func Done() Promise { return Bool(true) }] *)
Definition Done : thunk := Func (ret (Bool true)).

(** *** What the machine file calls and does not define *)
Class Host : Type := {
  (** [t.Unify(u, occursCheck)] for a receiver [t] that is not nil *)
  Unify : Term -> Term -> bool -> M bool;
  (** [Resolve(t)] *)
  Resolve : Term -> M Term;
  (** [Functor(t, name, arity, Done).Force()] *)
  Functor_Force : Term -> Atom -> Integer -> M (bool * option error);
  (** [Univ(t, list, Done).Force()] *)
  Univ_Force : Term -> Term -> M (bool * option error);
  (** the depth of recursion the run time allows *)
  stack_limit : nat
}.

(** *** Opcodes *)

Definition bytecode := list Z.

Definition opVoid : Z := 0.
Definition opEnter : Z := 1.
Definition opCall : Z := 2.
Definition opExit : Z := 3.
Definition opConst : Z := 4.
Definition opVar : Z := 5.
Definition opFunctor : Z := 6.
Definition opPop : Z := 7.

(** [byte(i)] for an [int] that is not negative. *)
Definition byte (i : nat) : Z := Z.of_nat i mod 256.

Section Machine.
Context {H : Host}.

(** A call of the method [Unify] through the interface [Term]. *)
Definition Term_Unify (t u : Term) (occursCheck : bool) : M bool :=
  match t with
  | TNil => panic "nil pointer dereference"
  | _ => Unify t u occursCheck
  end.

(** [x.(procedureIndicator)] *)
Definition as_procedureIndicator (x : Term) : option procedureIndicator :=
  match x with
  | TIndicator pf => Some pf
  | _ => None
  end.

(** [Engine.exec(pc, xr, vars, k, args, astack)].  The receiver occurs
    only in the closure of the call instruction. *)
Fixpoint exec (pc : bytecode) (xr : list Term) (vars : list VarId)
    (k : thunk) (args astack : Term) {struct pc} : M Promise :=
  match pc with
  | nil => ret (Error (errors_New "non-exit end of bytecode"))
  | op :: pc1 =>
      if Z.eqb op opVoid then exec pc1 xr vars k args astack
      else if Z.eqb op opConst then
        match pc1 with
        | nil => panic "index out of range"
        | i :: pc2 =>
            x ← index xr i;
            arest ← new_Variable;
            ok ← Term_Unify args (Cons x (TVar arest)) false;
            if negb ok then ret (Bool false)
            else exec pc2 xr vars k (TVar arest) astack
        end
      else if Z.eqb op opVar then
        match pc1 with
        | nil => panic "index out of range"
        | i :: pc2 =>
            v ← index vars i;
            arest ← new_Variable;
            ok ← Term_Unify args (Cons (TVar v) (TVar arest)) false;
            if negb ok then ret (Bool false)
            else exec pc2 xr vars k (TVar arest) astack
        end
      else if Z.eqb op opFunctor then
        match pc1 with
        | nil => panic "index out of range"
        | i :: pc2 =>
            x ← index xr i;
            arg ← new_Variable;
            arest ← new_Variable;
            ok ← Term_Unify args (Cons (TVar arg) (TVar arest)) false;
            if negb ok then ret (Bool false)
            else
              match as_procedureIndicator x with
              | None => ret (Error (errors_New "not a principal functor"))
              | Some pf =>
                  r ← Functor_Force (TVar arg) (name pf) (arity pf);
                  match r with
                  | (_, Some err) => ret (Error err)
                  | (false, None) => ret (Bool false)
                  | (true, None) =>
                      args' ← new_Variable;
                      r ← Univ_Force (TVar arg)
                            (Cons (TAtom (name pf)) (TVar args'));
                      match r with
                      | (_, Some err) => ret (Error err)
                      | (false, None) => ret (Bool false)
                      | (true, None) =>
                          exec pc2 xr vars k (TVar args')
                            (Cons (TVar arest) astack)
                      end
                  end
              end
        end
      else if Z.eqb op opPop then
        ok ← Term_Unify args (List_ nil) false;
        if negb ok then ret (Bool false)
        else
          a ← new_Variable;
          arest ← new_Variable;
          ok ← Term_Unify astack (Cons (TVar a) (TVar arest)) false;
          if negb ok then ret (Bool false)
          else exec pc1 xr vars k (TVar a) (TVar arest)
      else if Z.eqb op opEnter then
        ok ← Term_Unify args (List_ nil) false;
        if negb ok then ret (Bool false)
        else
          ok ← Term_Unify astack (List_ nil) false;
          if negb ok then ret (Bool false)
          else
            v ← new_Variable;
            exec pc1 xr vars k (TVar v) (TVar v)
      else if Z.eqb op opCall then
        match pc1 with
        | nil => panic "index out of range"
        | i :: pc2 =>
            x ← index xr i;
            ok ← Term_Unify args (List_ nil) false;
            if negb ok then ret (Bool false)
            else
              match as_procedureIndicator x with
              | None => ret (Error (errors_New "not a principal functor"))
              | Some pf =>
                  ret (Delay (ArriveThunk pf astack
                                (Func (v ← new_Variable;
                                       ret (Delay (Func (exec pc2 xr vars k
                                                           (TVar v) (TVar v))
                                                   :: nil))))
                              :: nil))
              end
        end
      else if Z.eqb op opExit then ret (Delay (k :: nil))
      else ret (Error (fmt_Errorf "unknown(%d)" (ArgByte op :: nil)))
  end.

(** *** Clauses and procedures *)

(** [type clause struct { pf; raw; xrTable; vars; bytecode }] *)
Record clause : Type := mkClause {
  pf : procedureIndicator;
  raw : Term;
  xrTable : list Term;
  vars : list VarId;
  bytecode_ : bytecode
}.

(** [type assignment []*Variable] *)
Definition assignment := list VarId.

(** [assignment.contains(v)] *)
Definition assignment_contains (a : assignment) (v : VarId) : bool :=
  existsb (Nat.eqb v) a.

(** [(a *assignment).add(t)], its recursion bounded by [fuel]. *)
Fixpoint assignment_add (fuel : nat) (h : gmap VarId Variable_) (t : Term)
    (a : assignment) : option assignment :=
  match fuel with
  | O => None
  | S fuel' =>
      match t with
      | TVar v =>
          match Ref (deref h v) with
          | TNil => if assignment_contains a v then Some a else Some (a ++ v :: nil)
          | r => assignment_add fuel' h r a
          end
      | TCompound _ args =>
          fold_left (fun acc arg =>
                       match acc with
                       | Some a' => assignment_add fuel' h arg a'
                       | None => None
                       end) args (Some a)
      | _ => Some a
      end
  end.

(** [newAssignment(ts...)] *)
Definition newAssignment (ts : list Term) : M assignment :=
  fun s =>
    match fold_left (fun acc t =>
                       match acc with
                       | Some a => assignment_add stack_limit (heap s) t a
                       | None => None
                       end) ts (Some nil) with
    | Some a => Ret (a, s)
    | None => Panic "stack overflow"
    end.

(** [assignment.reset()]: [for _, v := range a { v.Ref = nil }] on a heap. *)
Definition reset_heap (a : assignment) (h : gmap VarId Variable_)
  : gmap VarId Variable_ :=
  fold_left (fun h v => set_Ref v TNil h) a h.

Definition assignment_reset (a : assignment) : M unit :=
  modify_heap (reset_heap a).

(** [vars := make([]*Variable, n); for i := range vars { vars[i] = &Variable{} }] *)
Fixpoint make_vars (n : nat) : M (list VarId) :=
  match n with
  | O => ret nil
  | S n' => v ← new_Variable; vs ← make_vars n'; ret (v :: vs)
  end.

(** The closure [ks[i]] of [clauses.Call] for the clause [c]. *)
Definition alternative (a : assignment) (c : clause) (args : Term) (k : thunk)
  : M Promise :=
  _ ← assignment_reset a;
  vs ← make_vars (length (vars c));
  exec (bytecode_ c) (xrTable c) vs k args (List_ nil).

(** [clauses.Call(e, args, k)] *)
Definition clauses_Call (cs : list clause) (args : Term) (k : thunk) : M Promise :=
  if Nat.eqb (length cs) 0 then ret (Bool false)
  else
    a ← newAssignment (args :: nil);
    ret (Delay (map (fun c => Func (alternative a c args k)) cs)).

(** The closure that every [predicateN.Call] hands to the host function. *)
Definition exit_thunk (k : thunk) : thunk :=
  Func (exec (opExit :: nil) nil nil k TNil TNil).

(** [predicate0.Call] to [predicate5.Call] *)
Definition predicate0_Call (p : thunk -> M Promise) (args : Term) (k : thunk)
  : M Promise :=
  ok ← Term_Unify args (List_ nil) false;
  if negb ok then ret (Error (errors_New "wrong number of arguments"))
  else p (exit_thunk k).

Definition predicate1_Call (p : Term -> thunk -> M Promise) (args : Term)
    (k : thunk) : M Promise :=
  v1 ← new_Variable;
  ok ← Term_Unify args (List_ (TVar v1 :: nil)) false;
  if negb ok
  then ret (Error (fmt_Errorf "wrong number of arguments: %s" (ArgTerm args :: nil)))
  else p (TVar v1) (exit_thunk k).

Definition predicate2_Call (p : Term -> Term -> thunk -> M Promise)
    (args : Term) (k : thunk) : M Promise :=
  v1 ← new_Variable; v2 ← new_Variable;
  ok ← Term_Unify args (List_ (TVar v1 :: TVar v2 :: nil)) false;
  if negb ok then ret (Error (errors_New "wrong number of arguments"))
  else p (TVar v1) (TVar v2) (exit_thunk k).

Definition predicate3_Call (p : Term -> Term -> Term -> thunk -> M Promise)
    (args : Term) (k : thunk) : M Promise :=
  v1 ← new_Variable; v2 ← new_Variable; v3 ← new_Variable;
  ok ← Term_Unify args (List_ (TVar v1 :: TVar v2 :: TVar v3 :: nil)) false;
  if negb ok then ret (Error (errors_New "wrong number of arguments"))
  else p (TVar v1) (TVar v2) (TVar v3) (exit_thunk k).

Definition predicate4_Call
    (p : Term -> Term -> Term -> Term -> thunk -> M Promise)
    (args : Term) (k : thunk) : M Promise :=
  v1 ← new_Variable; v2 ← new_Variable; v3 ← new_Variable; v4 ← new_Variable;
  ok ← Term_Unify args
         (List_ (TVar v1 :: TVar v2 :: TVar v3 :: TVar v4 :: nil)) false;
  if negb ok then ret (Error (errors_New "wrong number of arguments"))
  else p (TVar v1) (TVar v2) (TVar v3) (TVar v4) (exit_thunk k).

Definition predicate5_Call
    (p : Term -> Term -> Term -> Term -> Term -> thunk -> M Promise)
    (args : Term) (k : thunk) : M Promise :=
  v1 ← new_Variable; v2 ← new_Variable; v3 ← new_Variable; v4 ← new_Variable;
  v5 ← new_Variable;
  ok ← Term_Unify args
         (List_ (TVar v1 :: TVar v2 :: TVar v3 :: TVar v4 :: TVar v5 :: nil))
         false;
  if negb ok then ret (Error (errors_New "wrong number of arguments"))
  else p (TVar v1) (TVar v2) (TVar v3) (TVar v4) (TVar v5) (exit_thunk k).

(** The implementations of [type procedure interface { Call(...) Promise }]. *)
Inductive procedure : Type :=
| clauses (cs : list clause)
| predicate0 (p : thunk -> M Promise)
| predicate1 (p : Term -> thunk -> M Promise)
| predicate2 (p : Term -> Term -> thunk -> M Promise)
| predicate3 (p : Term -> Term -> Term -> thunk -> M Promise)
| predicate4 (p : Term -> Term -> Term -> Term -> thunk -> M Promise)
| predicate5 (p : Term -> Term -> Term -> Term -> Term -> thunk -> M Promise).

(** [p.Call(e, args, k)] *)
Definition Call (p : procedure) (args : Term) (k : thunk) : M Promise :=
  match p with
  | clauses cs => clauses_Call cs args k
  | predicate0 f => predicate0_Call f args k
  | predicate1 f => predicate1_Call f args k
  | predicate2 f => predicate2_Call f args k
  | predicate3 f => predicate3_Call f args k
  | predicate4 f => predicate4_Call f args k
  | predicate5 f => predicate5_Call f args k
  end.

(** *** The engine *)

(** [type unknownAction int] *)
Definition unknownAction := Z.
Definition unknownError : unknownAction := 0.
Definition unknownFail : unknownAction := 1.
Definition unknownWarning : unknownAction := 2.

(** [type Engine struct]: the fields that the functions below read or
    write.  A nil map is [None]. *)
Record Engine : Type := mkEngine {
  procedures : option (gmap procedureIndicator procedure);
  unknown : unknownAction
}.

(** The zero value [Engine{}]. *)
Definition zeroEngine : Engine := mkEngine None 0.

(** [m[key]]: the zero value for a key that is absent, and for a nil map. *)
Definition map_index (m : option (gmap procedureIndicator procedure))
    (key : procedureIndicator) : option procedure :=
  match m with
  | Some m' => m' !! key
  | None => None
  end.

(** [m[key] = p]: a panic for a nil map. *)
Definition map_assign (m : option (gmap procedureIndicator procedure))
    (key : procedureIndicator) (p : procedure)
  : outcome (gmap procedureIndicator procedure) :=
  match m with
  | Some m' => Ret (<[key := p]> m')
  | None => Panic "assignment to entry in nil map"
  end.

(** [Engine.arrive(pi, args, k)] *)
Definition arrive (e : Engine) (pi : procedureIndicator) (args : Term)
    (k : thunk) : M Promise :=
  match map_index (procedures e) pi with
  | None =>
      if Z.eqb (unknown e) unknownError then
        ret (Error (existenceErrorProcedure
                      (TCompound "/" (TAtom (name pi) :: TInteger (arity pi) :: nil))))
      else if Z.eqb (unknown e) unknownWarning then
        _ ← logrus_Warn pi "unknown procedure";
        ret (Bool false)
      else if Z.eqb (unknown e) unknownFail then ret (Bool false)
      else
        ret (Error (systemError
                      (fmt_Errorf "unknown unknown: %s"
                                  (ArgUnknown (unknown e) :: nil))))
  | Some p => ret (Delay (Func (Call p args k) :: nil))
  end.

(** A call [k()] of a closure, in the engine [e]. *)
Definition run (e : Engine) (k : thunk) : M Promise :=
  match k with
  | Func f => f
  | ArriveThunk pf astack k' => arrive e pf astack k'
  end.

(** The body shared by [Register0] to [Register5]:
<<
  if e.procedures == nil { e.procedures = map[procedureIndicator]procedure{} }
  e.procedures[pi] = p
>> *)
Definition register (pi : procedureIndicator) (p : procedure) (e : Engine)
  : outcome Engine :=
  let e1 :=
    match procedures e with
    | None => mkEngine (Some ∅) (unknown e)
    | Some _ => e
    end in
  match map_assign (procedures e1) pi p with
  | Ret m => Ret (mkEngine (Some m) (unknown e1))
  | Panic why => Panic why
  end.

Definition Register0 (name : string) (p : thunk -> M Promise) :=
  register (mkPI name 0) (predicate0 p).
Definition Register1 (name : string) (p : Term -> thunk -> M Promise) :=
  register (mkPI name 1) (predicate1 p).
Definition Register2 (name : string) (p : Term -> Term -> thunk -> M Promise) :=
  register (mkPI name 2) (predicate2 p).
Definition Register3 (name : string)
    (p : Term -> Term -> Term -> thunk -> M Promise) :=
  register (mkPI name 3) (predicate3 p).
Definition Register4 (name : string)
    (p : Term -> Term -> Term -> Term -> thunk -> M Promise) :=
  register (mkPI name 4) (predicate4 p).
Definition Register5 (name : string)
    (p : Term -> Term -> Term -> Term -> Term -> thunk -> M Promise) :=
  register (mkPI name 5) (predicate5 p).

(** *** The clause compiler

    The methods of [*clause] take the clause and return it updated; an
    [error] that is nil is [None]. *)

Definition emit (c : clause) (code : bytecode) : clause :=
  mkClause (pf c) (raw c) (xrTable c) (vars c) (bytecode_ c ++ code).

(** The loop of [xrOffset]: the index of the first entry that unifies
    with [o]. *)
Fixpoint xrSearch (i : nat) (rs : list Term) (o : Term) : M (option nat) :=
  match rs with
  | nil => ret None
  | r :: rs' =>
      ok ← Term_Unify r o false;
      if (ok : bool) then ret (Some i) else xrSearch (S i) rs' o
  end.

(** [clause.xrOffset(o)] *)
Definition xrOffset (c : clause) (o : Term) : M (Z * clause) :=
  found ← xrSearch 0 (xrTable c) o;
  match found with
  | Some i => ret (byte i, c)
  | None =>
      let c' := mkClause (pf c) (raw c) (xrTable c ++ o :: nil) (vars c)
                         (bytecode_ c) in
      ret (byte (length (xrTable c') - 1), c')
  end.

(** The loop of [varOffset]: the index of the first entry that is [o]. *)
Fixpoint varSearch (i : nat) (vs : list VarId) (o : VarId) : option nat :=
  match vs with
  | nil => None
  | v :: vs' => if Nat.eqb v o then Some i else varSearch (S i) vs' o
  end.

(** [clause.varOffset(o)] *)
Definition varOffset (c : clause) (o : VarId) : M (Z * clause) :=
  match varSearch 0 (vars c) o with
  | Some i => ret (byte i, c)
  | None =>
      _ ← modify_heap (set_Name o "");
      let c' := mkClause (pf c) (raw c) (xrTable c) (vars c ++ o :: nil)
                         (bytecode_ c) in
      ret (byte (length (vars c') - 1), c')
  end.

(** [clause.compileArg(a)] *)
Fixpoint compileArg (c : clause) (a : Term) {struct a}
  : M (option error * clause) :=
  match a with
  | TVar v =>
      '(i, c1) ← varOffset c v;
      ret (None, emit c1 (opVar :: i :: nil))
  | TFloat _ | TInteger _ | TAtom _ =>
      '(i, c1) ← xrOffset c a;
      ret (None, emit c1 (opConst :: i :: nil))
  | TCompound f ns =>
      '(i, c1) ← xrOffset c (TIndicator (mkPI f (Z.of_nat (length ns))));
      '(err, c2) ←
         (fix each (ns : list Term) (c : clause) {struct ns}
            : M (option error * clause) :=
            match ns with
            | nil => ret (None, c)
            | n :: ns' =>
                '(err, c') ← compileArg c n;
                match err with
                | Some _ => ret (err, c')
                | None => each ns' c'
                end
            end) ns (emit c1 (opFunctor :: i :: nil));
      match err with
      | Some _ => ret (err, c2)
      | None => ret (None, emit c2 (opPop :: nil))
      end
  | _ =>
      ret (Some (systemError (fmt_Errorf "unknown argument: %s" (ArgTerm a :: nil))), c)
  end.

(** [for _, a := range args { if err := c.compileArg(a); err != nil { return err } }] *)
Fixpoint compileArgs (c : clause) (ns : list Term) : M (option error * clause) :=
  match ns with
  | nil => ret (None, c)
  | n :: ns' =>
      '(err, c') ← compileArg c n;
      match err with
      | Some _ => ret (err, c')
      | None => compileArgs c' ns'
      end
  end.

(** [clause.compilePred(p)] *)
Definition compilePred (c : clause) (p : Term) : M (option error * clause) :=
  match p with
  | TAtom a =>
      '(i, c1) ← xrOffset c (TIndicator (mkPI a 0));
      ret (None, emit c1 (opCall :: i :: nil))
  | TCompound f ns =>
      '(err, c1) ← compileArgs c ns;
      match err with
      | Some _ => ret (err, c1)
      | None =>
          '(i, c2) ← xrOffset c1 (TIndicator (mkPI f (Z.of_nat (length ns))));
          ret (None, emit c2 (opCall :: i :: nil))
      end
  | _ => ret (Some (typeErrorCallable p), c)
  end.

(** The loop over the body in [compileClause], with the call of
    [compilePred] that follows it:
<<
  for {
    p, ok := body.( *Compound)
    if !ok || p.Functor != "," || len(p.Args) != 2 { break }
    if err := c.compilePred(p.Args[0]); err != nil { return err }
    body = p.Args[1]
  }
  if err := c.compilePred(body); err != nil { return err }
>> *)
Fixpoint compileBody (c : clause) (body : Term) {struct body}
  : M (option error * clause) :=
  match body with
  | TCompound f (g :: rest :: nil) =>
      if String.eqb f "," then
        '(err, c1) ← compilePred c g;
        match err with
        | Some _ => ret (err, c1)
        | None => compileBody c1 rest
        end
      else compilePred c body
  | _ => compilePred c body
  end.

(** The switch on the head in [compileClause]. *)
Definition compileHead (c : clause) (head : Term) : M (option error * clause) :=
  match head with
  | TAtom _ => ret (None, c)
  | TCompound _ ns => compileArgs c ns
  | _ => ret (Some (typeErrorCallable head), c)
  end.

(** [clause.compileClause(head, body)]; a body that is absent is nil. *)
Definition compileClause (c : clause) (head body : Term)
  : M (option error * clause) :=
  '(err, c1) ← compileHead c head;
  match err with
  | Some _ => ret (err, c1)
  | None =>
      '(err, c2) ←
         match body with
         | TNil => ret (None, c1)
         | _ => compileBody (emit c1 (opEnter :: nil)) body
         end;
      match err with
      | Some _ => ret (err, c2)
      | None => ret (None, emit c2 (opExit :: nil))
      end
  end.

(** [clause.compile(t)] *)
Definition compile (c : clause) (t : Term) : M (option error * clause) :=
  t' ← Resolve t;
  let c1 := mkClause (pf c) t' (xrTable c) (vars c) (bytecode_ c) in
  match t' with
  | TAtom _ => compileClause c1 t' TNil
  | TCompound f ns =>
      if String.eqb f ":-" then
        h ← index ns 0;
        b ← index ns 1;
        compileClause c1 h b
      else compileClause c1 t' TNil
  | _ => ret (Some (typeErrorCallable t'), c1)
  end.

End Machine.

(** *** What is observable through a term *)

(** [reach h t v]: the variable [v] is met when [t] is read in the heap
    [h], following the bindings of variables. *)
Inductive reach (h : gmap VarId Variable_) : Term -> VarId -> Prop :=
| reach_var v : reach h (TVar v) v
| reach_ref v w : reach h (Ref (deref h v)) w -> reach h (TVar v) w
| reach_arg f args t w : In t args -> reach h t w -> reach h (TCompound f args) w.

(** The heap has no cyclic binding: [rank] decreases along every binding. *)
Definition ranked (rank : VarId -> nat) (h : gmap VarId Variable_) : Prop :=
  forall v w, In w (term_vars (Ref (deref h v))) -> (rank w < rank v)%nat.

(** [h'] keeps every binding of [h]. *)
Definition keeps_bindings (h h' : gmap VarId Variable_) : Prop :=
  forall v, Ref (deref h v) <> TNil -> Ref (deref h' v) = Ref (deref h v).

(** *** A model of the host

    The [Unify] methods, [Resolve], [Functor] and [Univ] of this version
    of the engine are not in the source files. *)
Module SpecHost.

(** Modelled from the spec: [Resolve] is not in the source files; section
    3: "resolve(t) follows bindings until reaching a non-variable or an
    unbound variable".  A chain of bindings without a cycle is no longer
    than the number of cells. *)
Fixpoint resolve_fuel (fuel : nat) (h : gmap VarId Variable_) (t : Term) : Term :=
  match fuel with
  | O => t
  | S fuel' =>
      match t with
      | TVar v =>
          match Ref (deref h v) with
          | TNil => t
          | r => resolve_fuel fuel' h r
          end
      | _ => t
      end
  end.

Definition resolve (h : gmap VarId Variable_) (t : Term) : Term :=
  resolve_fuel (S (size h)) h t.

(** Modelled from the spec: the occurs check is not in the source files;
    section 4.1: "the other side contains that variable". *)
Fixpoint contains_fuel (fuel : nat) (h : gmap VarId Variable_) (v : VarId)
    (t : Term) : bool :=
  match fuel with
  | O => false
  | S fuel' =>
      match resolve h t with
      | TVar w => Nat.eqb v w
      | TCompound _ args => existsb (contains_fuel fuel' h v) args
      | _ => false
      end
  end.

(** Modelled from the spec: the [Unify] methods of atomic terms are not
    in the source files; section 4.1: "Atom/Integer/Float vs same kind:
    exact equality. Integer and Float are distinct kinds and never
    unify"; section 9: "syntactic equality ... of Atoms and procedure
    indicators". *)
Definition atomic_eqb (a b : Term) : bool :=
  match a, b with
  | TAtom x, TAtom y => String.eqb x y
  | TInteger x, TInteger y => Z.eqb x y
  | TFloat x, TFloat y => Z.eqb x y
  | TIndicator x, TIndicator y =>
      String.eqb (name x) (name y) && Z.eqb (arity x) (arity y)
  | _, _ => false
  end.

(** Modelled from the spec: [Variable.Unify] is not in the source files;
    section 4.1: "Variable vs anything: bind the variable to the other
    side; if occurs-check is on and the other side contains that
    variable, fail".  A variable is not bound to itself. *)
Definition bind_var (fuel : nat) (v : VarId) (t : Term) (occursCheck : bool)
  : M bool :=
  fun s =>
    match t with
    | TVar w =>
        if Nat.eqb v w then Ret (true, s)
        else Ret (true, mkState (set_Ref v t (heap s)) (next s) (logged s))
    | _ =>
        if occursCheck && contains_fuel fuel (heap s) v t then Ret (false, s)
        else Ret (true, mkState (set_Ref v t (heap s)) (next s) (logged s))
    end.

(** Modelled from the spec: the [Unify] methods of this version are not in
    the source files; section 4.1, rules 1 to 5. *)
Fixpoint unify_fuel (fuel : nat) (a b : Term) (occursCheck : bool) : M bool :=
  match fuel with
  | O => panic "stack overflow"
  | S fuel' =>
      fun s =>
        match resolve (heap s) a, resolve (heap s) b with
        | TVar v, b' => bind_var fuel' v b' occursCheck s
        | a', TVar w => bind_var fuel' w a' occursCheck s
        | TCompound f cs, TCompound g ts =>
            if negb (String.eqb f g) then Ret (false, s)
            else if negb (Nat.eqb (length cs) (length ts)) then Ret (false, s)
            else
              (fix each (cs ts : list Term) : M bool :=
                 match cs, ts with
                 | x :: cs', y :: ts' =>
                     ok ← unify_fuel fuel' x y occursCheck;
                     if negb ok then ret false else each cs' ts'
                 | _, _ => ret true
                 end) cs ts s
        | a', b' => Ret (atomic_eqb a' b', s)
        end
  end.

(** Modelled from the spec: [Functor] is not in the source files; section
    4.3, [functor i]: "unify A with a compound of functor f and n fresh
    argument variables". *)
Definition functor_force (fuel : nat) (t : Term) (name : Atom) (arity : Integer)
  : M (bool * option error) :=
  vs ← (fix fresh (n : nat) : M (list Term) :=
          match n with
          | O => ret nil
          | S n' => v ← new_Variable; vs ← fresh n'; ret (TVar v :: vs)
          end) (Z.to_nat arity);
  ok ← unify_fuel fuel t
         (match vs with nil => TAtom name | _ => TCompound name vs end) false;
  ret (ok, None).

(** Modelled from the spec: [Univ] is not in the source files; section
    4.3, [functor i]: "set args to that compound's argument list". *)
Definition univ_force (fuel : nat) (t list : Term) : M (bool * option error) :=
  fun s =>
    match resolve (heap s) t with
    | TCompound f args =>
        (ok ← unify_fuel fuel list (List_ (TAtom f :: args)) false;
         ret (ok, None)) s
    | TVar _ => Ret ((false, Some (errors_New "instantiation error")), s)
    | t' =>
        (ok ← unify_fuel fuel list (List_ (t' :: nil)) false;
         ret (ok, None)) s
    end.

(** The model, for a bound [fuel] on the depth of recursion. *)
Definition model (fuel : nat) : Host := {|
  Unify := unify_fuel fuel;
  Resolve := fun t s => Ret (resolve (heap s) t, s);
  Functor_Force := functor_force fuel;
  Univ_Force := univ_force fuel;
  stack_limit := fuel
|}.

End SpecHost.

(** *** Vocabulary of the properties *)

(** The store after [n] fresh variables, and their addresses in the order
    of allocation. *)
Fixpoint fresh_from (n : nat) (s : State) : list VarId * State :=
  match n with
  | O => (nil, s)
  | S n' =>
      let s1 := mkState (<[next s := zeroVariable]> (heap s)) (S (next s))
                        (logged s) in
      let '(vs, s') := fresh_from n' s1 in
      (next s :: vs, s')
  end.

(** The arity of a host predicate; a list of clauses has none. *)
Definition host_arity (p : procedure) : option nat :=
  match p with
  | clauses _ => None
  | predicate0 _ => Some 0%nat
  | predicate1 _ => Some 1%nat
  | predicate2 _ => Some 2%nat
  | predicate3 _ => Some 3%nat
  | predicate4 _ => Some 4%nat
  | predicate5 _ => Some 5%nat
  end.

(** The host function of [p] applied to the arguments [ts] and the
    continuation [k], when [ts] has as many terms as [p] takes. *)
Definition host_apply (p : procedure) (ts : list Term) (k : thunk)
  : option (M Promise) :=
  match p, ts with
  | predicate0 f, nil => Some (f k)
  | predicate1 f, t1 :: nil => Some (f t1 k)
  | predicate2 f, t1 :: t2 :: nil => Some (f t1 t2 k)
  | predicate3 f, t1 :: t2 :: t3 :: nil => Some (f t1 t2 t3 k)
  | predicate4 f, t1 :: t2 :: t3 :: t4 :: nil => Some (f t1 t2 t3 t4 k)
  | predicate5 f, t1 :: t2 :: t3 :: t4 :: t5 :: nil => Some (f t1 t2 t3 t4 t5 k)
  | _, _ => None
  end.

(** One byte. *)
Definition is_byte (b : Z) : Prop := 0 <= b < 256.

(** [c'] is [c] with [code] appended to the bytecode, all of it bytes. *)
Definition appends (c c' : clause) (code : bytecode) : Prop :=
  bytecode_ c' = bytecode_ c ++ code /\ Forall is_byte code.

(** The step of the loop over the arguments in [assignment.add]. *)
Definition add_step (fuel : nat) (h : gmap VarId Variable_)
    (acc : option assignment) (arg : Term) : option assignment :=
  match acc with
  | Some a' => assignment_add fuel h arg a'
  | None => None
  end.

(** The goals of a body, as section 4.2 of the specification walks it:
    "while the current term is a Compound with functor [,] and arity 2,
    compile its first argument as a goal and descend into the second.
    Compile the final term as a goal." *)
Fixpoint spine (body : Term) : list Term :=
  match body with
  | TCompound f (g :: rest :: nil) =>
      if String.eqb f "," then g :: spine rest else body :: nil
  | _ => body :: nil
  end.

Section Layout.
Context {H : Host}.

(** [goals_code c goals s codes c' s']: from the clause [c] and the store
    [s], the goals compile one after the other without error, the i-th
    appending [codes[i]] to the bytecode, and leave [c'] and [s']. *)
Inductive goals_code
  : clause -> list Term -> State -> list bytecode -> clause -> State -> Prop :=
| goals_code_nil c s : goals_code c nil s nil c s
| goals_code_cons c g gs s c1 s1 code codes c' s' :
    compilePred c g s = Ret ((None, c1), s1) ->
    bytecode_ c1 = bytecode_ c ++ code ->
    goals_code c1 gs s1 codes c' s' ->
    goals_code c (g :: gs) s (code :: codes) c' s'.

End Layout.

(** A clause with nothing compiled yet, and an empty store. *)
Definition emptyClause (pi : procedureIndicator) : clause :=
  mkClause pi TNil nil nil nil.

Definition emptyState : State := mkState ∅ 0 nil.

(** The fact [p(0, 1, ..., 256)], of 257 distinct constants. *)
Definition wide_fact : Term :=
  TCompound "p" (map (fun n => TInteger (Z.of_nat n)) (seq 0 257)).

(** An error is a [system_error]. *)
Definition is_system_error (err : error) : Prop :=
  exists cause, err = systemError cause.

End prolog.

(** ** Well-formed tables and bytecode *)
Module vm.
Import prolog.

(** The kinds of term that the compiler puts in [xrTable]: the constants
    of [compileArg] and the indicators of [compileArg] and [compilePred]. *)
Definition key (t : Term) : Prop :=
  match t with
  | TAtom _ | TInteger _ | TFloat _ | TIndicator _ => True
  | _ => False
  end.

(** The terms [compileArg] has a case for: atoms, numbers, variables and
    compounds of such terms. *)
Inductive ordinary : Term -> Prop :=
| ordinary_atom a : ordinary (TAtom a)
| ordinary_integer n : ordinary (TInteger n)
| ordinary_float f : ordinary (TFloat f)
| ordinary_var v : ordinary (TVar v)
| ordinary_compound f args : Forall ordinary args -> ordinary (TCompound f args).

(** [t] is, or holds as an argument at some depth, the term [b]. *)
Inductive subterm (b : Term) : Term -> Prop :=
| subterm_here : subterm b b
| subterm_arg f args t : In t args -> subterm b t -> subterm b (TCompound f args).

Section HostProperties.
Context {H : Host}.

(** On the keys of the table, [Unify] without occurs check is a test of
    equality that leaves the store alone. *)
Definition keys_exact : Prop :=
  forall r o s, key r -> key o ->
    exists ok : bool, Unify r o false s = Ret (ok, s) /\ (ok = true <-> r = o).

(** [why] is a panic of one of the operations of the host. *)
Definition host_panic (why : string) : Prop :=
  (exists t u occ s, Unify t u occ s = Panic why)
  \/ (exists t n a s, Functor_Force t n a s = Panic why)
  \/ (exists t l s, Univ_Force t l s = Panic why).

End HostProperties.

(** Bytecode whose instructions are whole, with operands inside the
    tables: [xr] is the table of constants and indicators, [nvars] the
    number of variable slots.  The operand of [functor] and of [call]
    is the index of an indicator. *)
Inductive well_formed (xr : list Term) (nvars : nat) : bytecode -> Prop :=
| wf_nil : well_formed xr nvars nil
| wf_void pc : well_formed xr nvars pc -> well_formed xr nvars (opVoid :: pc)
| wf_enter pc : well_formed xr nvars pc -> well_formed xr nvars (opEnter :: pc)
| wf_exit pc : well_formed xr nvars pc -> well_formed xr nvars (opExit :: pc)
| wf_pop pc : well_formed xr nvars pc -> well_formed xr nvars (opPop :: pc)
| wf_const i x pc :
    nth_error xr (Z.to_nat i) = Some x ->
    well_formed xr nvars pc -> well_formed xr nvars (opConst :: i :: pc)
| wf_var i pc :
    (Z.to_nat i < nvars)%nat ->
    well_formed xr nvars pc -> well_formed xr nvars (opVar :: i :: pc)
| wf_functor i pf pc :
    nth_error xr (Z.to_nat i) = Some (TIndicator pf) ->
    well_formed xr nvars pc -> well_formed xr nvars (opFunctor :: i :: pc)
| wf_call i pf pc :
    nth_error xr (Z.to_nat i) = Some (TIndicator pf) ->
    well_formed xr nvars pc -> well_formed xr nvars (opCall :: i :: pc).

(** What [exec] can return: [false], an error, or the delay of a single
    closure, which is the continuation [k] or the dispatch of an
    indicator of [xr]. *)
Definition exec_result (xr : list Term) (k : thunk) (p : Promise) : Prop :=
  match p with
  | Bool ok => ok = false
  | Error _ => True
  | Delay ks =>
      ks = k :: nil
      \/ exists pf astack k',
          ks = ArriveThunk pf astack k' :: nil /\ In (TIndicator pf) xr
  end.

(** A term that can be a head or a goal. *)
Definition callable (t : Term) : Prop :=
  match t with
  | TAtom _ | TCompound _ _ => True
  | _ => False
  end.

(** A term [compileArg] has no case for. *)
Definition bad_argument (b : Term) : Prop :=
  b = TNil \/ exists pi, b = TIndicator pi.

(** The error of [compileArg] for an argument [b] of [a] it has no case
    for. *)
Definition argument_error (a : Term) (e : error) : Prop :=
  exists b, subterm b a /\ bad_argument b
            /\ e = systemError (fmt_Errorf "unknown argument: %s" (ArgTerm b :: nil)).

(** The errors of [compilePred] for the goal [g]. *)
Definition goal_error (g : Term) (e : error) : Prop :=
  (~ callable g /\ e = typeErrorCallable g) \/ argument_error g e.

(** The errors of [compileClause] for the head [head] and the body
    [body]. *)
Definition clause_error (head body : Term) (e : error) : Prop :=
  goal_error head e
  \/ (body <> TNil /\ exists g, In g (spine body) /\ goal_error g e).

(** [c'] is [c] with entries appended to the table, slots appended to the
    variables and [code] appended to the bytecode. *)
Definition extends (c c' : clause) (code : bytecode) : Prop :=
  (exists xs, xrTable c' = xrTable c ++ xs)
  /\ (exists vs, vars c' = vars c ++ vs)
  /\ bytecode_ c' = bytecode_ c ++ code.

(** [code] is well formed for all tables of at most 256 entries that
    begin with the tables of [c]. *)
Definition code_ok (c : clause) (code : bytecode) : Prop :=
  forall xr nv,
    (exists xs, xr = xrTable c ++ xs) -> (length (vars c) <= nv)%nat ->
    (length xr <= 256)%nat -> (nv <= 256)%nat ->
    well_formed xr nv code.

(** What the compiler keeps from [c] to [c']. *)
Definition compiles (c c' : clause) (code : bytecode) : Prop :=
  extends c c' code /\ Forall key (xrTable c') /\ code_ok c' code.

(** [r] is one of [Register0 name p] to [Register5 name p]; [pi] is the
    indicator it registers under and [q] the procedure it stores. *)
Inductive registration
  : (Engine -> outcome Engine) -> procedureIndicator -> procedure -> Prop :=
| registration0 name p :
    registration (Register0 name p) (mkPI name 0) (predicate0 p)
| registration1 name p :
    registration (Register1 name p) (mkPI name 1) (predicate1 p)
| registration2 name p :
    registration (Register2 name p) (mkPI name 2) (predicate2 p)
| registration3 name p :
    registration (Register3 name p) (mkPI name 3) (predicate3 p)
| registration4 name p :
    registration (Register4 name p) (mkPI name 4) (predicate4 p)
| registration5 name p :
    registration (Register5 name p) (mkPI name 5) (predicate5 p).

(** One registration after another. *)
Definition and_then (r1 r2 : Engine -> outcome Engine) (e : Engine)
  : outcome Engine :=
  match r1 e with
  | Ret e1 => r2 e1
  | Panic why => Panic why
  end.

End vm.

(** ** Package [engine]: the rest of compound.go

    [Compound.Compare], [Compound.unparseNumberVar] and [Seq].  The
    [Compare] methods of the other kinds of term and the type [Token] are
    not in compound.go; a run-time panic is the outcome [None]. *)
Module compound.
Import engine.

(** *** The standard order *)

(** The [Compare] methods that compound.go calls but does not define. *)
Class OrderModel {EM : EnvModel} : Type := {
  (** [a.Compare(t, env)] for an atom [a] *)
  Atom_Compare : Atom -> Term -> Env -> Z;
  (** [x.Compare(t, env)] for a receiver [x] that is neither a compound
      nor an atom *)
  Other_Compare : Term -> Term -> Env -> Z
}.

Section Compare.
Context {EM : EnvModel} {OM : OrderModel}.

(** The method [Compare] of the interface [Term], dispatched on the
    dynamic type of the receiver.  The case of [TCompound] is
    [Compound.Compare]:
<<
  switch t := env.Resolve(t).(type) {
  case *Compound:
    if d := len(c.Args) - len(t.Args); d != 0 { return int64(d) }
    if d := c.Functor.Compare(t.Functor, env); d != 0 { return d }
    for i, a := range c.Args {
      if d := a.Compare(t.Args[i], env); d != 0 { return d }
    }
    return 0
  default:
    return 1
  }
>>
    The loop runs only over argument lists of one length. *)
Fixpoint Compare (c t : Term) (env : Env) {struct c} : Z :=
  match c with
  | TCompound f cargs =>
      match Resolve env t with
      | TCompound g targs =>
          let d := Z.of_nat (length cargs) - Z.of_nat (length targs) in
          if negb (Z.eqb d 0) then d
          else
            let d := Atom_Compare f (TAtom g) env in
            if negb (Z.eqb d 0) then d
            else
              (fix loop (cs ts : list Term) {struct cs} : Z :=
                 match cs, ts with
                 | a :: cs', b :: ts' =>
                     let d := Compare a b env in
                     if negb (Z.eqb d 0) then d else loop cs' ts'
                 | _, _ => 0
                 end) cargs targs
      | _ => 1
      end
  | TAtom a => Atom_Compare a t env
  | _ => Other_Compare c t env
  end.

(** [(c *Compound).Compare(t, env)] with [c = &Compound{f, cargs}]. *)
Definition Compound_Compare (f : Atom) (cargs : list Term) (t : Term)
    (env : Env) : Z :=
  Compare (TCompound f cargs) t env.

(** The loop of [Compound.Compare] on its own: the first difference of a
    pair of arguments, from left to right. *)
Fixpoint CompareArgs (cs ts : list Term) (env : Env) : Z :=
  match cs, ts with
  | a :: cs', b :: ts' =>
      let d := Compare a b env in
      if negb (Z.eqb d 0) then d else CompareArgs cs' ts' env
  | _, _ => 0
  end.

End Compare.

(** An order of the atoms for the examples: an atom is equal to itself,
    and before every other term. *)
Definition example_order (EM : EnvModel) : OrderModel := {|
  Atom_Compare := fun a t _ =>
    match t with
    | TAtom b => if String.eqb a b then 0 else -1
    | _ => -1
    end;
  Other_Compare := fun _ _ _ => 1
|}.

(** *** Tokens *)

(** The kinds of token that compound.go emits. *)
Inductive TokenKind : Type :=
| TokenVariable
| TokenParenL
| TokenParenR
| TokenBracketL
| TokenBracketR
| TokenBraceL
| TokenBraceR
| TokenComma
| TokenBar.

(** [Token{Kind: ..., Val: ...}] *)
Record Token : Type := mkToken { Kind : TokenKind; Val : string }.

(** [fmt.Sprintf("%d", j)] *)
Definition decimal (j : Z) : string :=
  DecimalString.NilZero.string_of_int (Z.to_int j).

Definition letters : string := "ABCDEFGHIJKLMNOPQRSTUVWXYZ".

(** [letters[i]]: out of range is a run-time panic. *)
Definition letter (i : Z) : option Ascii.ascii :=
  if Z.ltb i 0 then None else String.get (Z.to_nat i) letters.

(** The tokens that [c.unparseNumberVar(n, emit)] passes to [emit]; the
    receiver is not used.  [/] and [%] of Go truncate towards zero.
<<
  i, j := int(n)%len(letters), int(n)/len(letters)
  if j == 0 {
    s := string(letters[i])
    emit(Token{Kind: TokenVariable, Val: s})
    return
  }
  s := fmt.Sprintf("%s%d", string(letters[i]), j)
  emit(Token{Kind: TokenVariable, Val: s})
>> *)
Definition unparseNumberVar (n : Integer) : option (list Token) :=
  let i := Z.rem n (Z.of_nat (String.length letters)) in
  let j := Z.quot n (Z.of_nat (String.length letters)) in
  if Z.eqb j 0 then
    match letter i with
    | Some l => Some (mkToken TokenVariable (String l EmptyString) :: nil)
    | None => None
    end
  else
    match letter i with
    | Some l =>
        Some (mkToken TokenVariable (String l EmptyString ++ decimal j)%string
              :: nil)
    | None => None
    end.

(** *** Sequences *)

(** [Seq(sep, ts...)]: [ts[len(ts)-1]] of no term at all is a run-time
    panic.
<<
  s, ts := ts[len(ts)-1], ts[:len(ts)-1]
  for i := len(ts) - 1; i >= 0; i-- {
    s = &Compound{Functor: sep, Args: []Term{ts[i], s}}
  }
  return s
>> *)
Definition Seq (sep : Atom) (ts : list Term) : option Term :=
  match ts with
  | nil => None
  | _ :: _ =>
      Some (fold_right (fun t s => TCompound sep (t :: s :: nil))
                       (List.last ts TNil) (List.removelast ts))
  end.

(** [Pair(k, v)] *)
Definition Pair (k v : Term) : Term := TCompound "-" (k :: v :: nil).

End compound.

(** ** The names of the unknown-actions *)

(** [func (u unknownAction) String() string]; [fmt.Sprintf("unknown(%d)", u)]
    writes [u] in decimal. *)
Definition unknownAction_String (u : prolog.unknownAction) : string :=
  if Z.eqb u prolog.unknownError then "error"
  else if Z.eqb u prolog.unknownFail then "fail"
  else if Z.eqb u prolog.unknownWarning then "warning"
  else ("unknown(" ++ compound.decimal u ++ ")")%string.

(** * Properties *)

(** ** [Compound.Unify] *)

Section CompoundUnify.
Import engine.
Context {EM : EnvModel}.

(** [Compound.Unify], case by case on the resolved [t], with its loop
    written as [UnifyArgs]. *)
Lemma Compound_Unify_cases (f : Atom) (cargs : list Term) (t : Term)
    (occ : bool) (env : Env) :
  Compound_Unify f cargs t occ env =
  match Resolve env t with
  | TCompound g targs =>
      if negb (String.eqb f g) then (env, false)
      else if negb (Nat.eqb (length cargs) (length targs)) then (env, false)
      else UnifyArgs cargs targs occ env
  | TVar v => Variable_Unify v (TCompound f cargs) occ env
  | _ => (env, false)
  end.
Proof.
  unfold Compound_Unify. cbn [Unify].
  destruct (Resolve env t) as [| | | | |g targs|]; try reflexivity.
  destruct (negb (String.eqb f g)); [reflexivity|].
  destruct (negb (Nat.eqb (length cargs) (length targs))); [reflexivity|].
  clear. revert targs env.
  induction cargs as [|a cs IH]; intros [|b ts] env; try reflexivity.
  cbn [UnifyArgs]. destruct (Unify a b occ env) as [env' [|]]; cbn [negb].
  - apply IH.
  - reflexivity.
Qed.

(** Against a term that resolves to a variable, [Compound.Unify] hands
    over to the variable; against any other term that is not a compound
    it fails. *)
Lemma Compound_Unify_variable (f : Atom) (cargs : list Term) (t : Term)
    (occ : bool) (env : Env) (v : VarId) :
  Resolve env t = TVar v ->
  Compound_Unify f cargs t occ env
  = Variable_Unify v (TCompound f cargs) occ env.
Proof. intros Hres. rewrite Compound_Unify_cases, Hres. reflexivity. Qed.

Lemma Compound_Unify_default (f : Atom) (cargs : list Term) (t : Term)
    (occ : bool) (env : Env) :
  (forall g targs, Resolve env t <> TCompound g targs) ->
  (forall v, Resolve env t <> TVar v) ->
  Compound_Unify f cargs t occ env = (env, false).
Proof.
  intros Hc Hv. rewrite Compound_Unify_cases.
  destruct (Resolve env t) as [| | | |v|g targs|]; try reflexivity.
  - elim (Hv v). reflexivity.
  - elim (Hc g targs). reflexivity.
Qed.

Lemma UnifyArgs_true (occ : bool) (cs ts : list Term) (env env' : Env) :
  length cs = length ts ->
  UnifyArgs cs ts occ env = (env', true) ->
  ArgsUnified occ cs ts env env'.
Proof.
  revert ts env. induction cs as [|a cs IH]; intros [|b ts] env Hlen Hu;
    try discriminate.
  - injection Hu as ->. constructor.
  - cbn [UnifyArgs] in Hu.
    destruct (Unify a b occ env) as [env1 [|]] eqn:Hab; cbn [negb] in Hu.
    + econstructor; [exact Hab|]. apply IH; [|exact Hu].
      injection Hlen as Hlen. exact Hlen.
    + discriminate.
Qed.

Lemma UnifyArgs_stops (occ : bool) (l1 m1 : list Term) (a b : Term)
    (l2 m2 : list Term) (env env1 env2 : Env) :
  ArgsUnified occ l1 m1 env env1 ->
  Unify a b occ env1 = (env2, false) ->
  UnifyArgs (l1 ++ a :: l2) (m1 ++ b :: m2) occ env = (env2, false).
Proof.
  intros Hpre Hab. induction Hpre as [env|x y cs ts env envx env' Hxy _ IH].
  - cbn [app UnifyArgs]. rewrite Hab. reflexivity.
  - cbn [app UnifyArgs]. rewrite Hxy. cbn [negb]. apply IH, Hab.
Qed.

Lemma ArgsUnified_length (occ : bool) (cs ts : list Term) (env env' : Env) :
  ArgsUnified occ cs ts env env' -> length cs = length ts.
Proof. induction 1; cbn; congruence. Qed.

(** C2.  Unifying the compound [f(cargs)] with a term [t] that resolves to
    a compound [g(targs)]: a functor or arity mismatch fails and leaves
    the environment as it was; success implies the same functor, the same
    number of arguments and every pair of arguments unified, in order,
    each in the environment of the previous one; with the same functor and
    arity the result is that of the left-to-right loop; and once a pair
    fails after a prefix that unified, the result is that failure,
    whatever the remaining pairs are. *)
Theorem Compound_Unify_compound (f : Atom) (cargs : list Term) (t : Term)
    (occ : bool) (env : Env) (g : Atom) (targs : list Term) :
  Resolve env t = TCompound g targs ->
  (f <> g \/ length cargs <> length targs ->
   Compound_Unify f cargs t occ env = (env, false))
  /\ (forall env', Compound_Unify f cargs t occ env = (env', true) ->
        f = g /\ length cargs = length targs
        /\ ArgsUnified occ cargs targs env env')
  /\ (f = g -> length cargs = length targs ->
      Compound_Unify f cargs t occ env = UnifyArgs cargs targs occ env)
  /\ (f = g ->
      forall l1 a l2 m1 b m2 env1 env2,
        cargs = l1 ++ a :: l2 -> targs = m1 ++ b :: m2 ->
        length l2 = length m2 ->
        ArgsUnified occ l1 m1 env env1 ->
        Unify a b occ env1 = (env2, false) ->
        Compound_Unify f cargs t occ env = (env2, false)).
Proof.
  intros Hres. rewrite Compound_Unify_cases, Hres.
  destruct (String.eqb_spec f g) as [Hfg|Hfg]; cbn [negb].
  2:{ repeat split; intros; congruence. }
  destruct (Nat.eqb_spec (length cargs) (length targs)) as [Hlen|Hlen];
    cbn [negb].
  - repeat split; try assumption.
    + intros [?|?]; congruence.
    + apply UnifyArgs_true; assumption.
    + intros _ l1 a l2 m1 b m2 env1 env2 -> -> _ Hpre Hab.
      eapply UnifyArgs_stops; eassumption.
  - repeat split; intros; try congruence.
    exfalso. apply Hlen. subst cargs targs.
      match goal with H : ArgsUnified _ _ _ _ _ |- _ =>
        apply ArgsUnified_length in H end.
      rewrite !length_app. cbn [length]. lia.
Qed.

End CompoundUnify.

(** In the model of the environment a compound resolves to itself. *)
Lemma SpecEnv_resolve_compound (fuel : nat) (env : gmap VarId Term) (g : Atom)
    (targs : list Term) :
  @engine.Resolve (engine.SpecEnv.model fuel) env (TCompound g targs)
  = TCompound g targs.
Proof. reflexivity. Qed.

(** [p(a, X, c)] against [p(a, b, d)]: the second pair binds [X], the
    third fails. *)
Lemma Compound_Unify_compound_witness :
  let EM := engine.SpecEnv.model 8 in
  let cargs := TAtom "a" :: TVar 0 :: TAtom "c" :: nil in
  let targs := TAtom "a" :: TAtom "b" :: TAtom "d" :: nil in
  @engine.Resolve EM ∅ (TCompound "p" targs) = TCompound "p" targs
  /\ @engine.Compound_Unify EM "p" cargs (TCompound "p" targs) false ∅
     = @engine.UnifyArgs EM cargs targs false ∅
  /\ snd (@engine.Compound_Unify EM "p" cargs (TCompound "p" targs) false ∅)
     = false.
Proof.
  intros EM cargs targs.
  split; [reflexivity|].
  split.
  - apply (@Compound_Unify_compound EM "p" cargs (TCompound "p" targs) false
             ∅ "p" targs eq_refl); reflexivity.
  - vm_compute. reflexivity.
Defined.

(** ** The machine *)

Section MachineProperties.
Import prolog.
Context {H : Host}.

(** C1.  [arrive] on an indicator that has no procedure follows the
    unknown-action: [error] gives an error Promise with
    [existence_error(procedure, name/arity)], [fail] gives [false],
    [warning] logs one record and gives [false]; on an indicator that has
    the procedure [p] it gives a [Delay] of one closure, which calls [p]
    with [args] and [k]. *)
Theorem arrive_dispatch (e : Engine) (pi : procedureIndicator) (args : Term)
    (k : thunk) (s : State) :
  (map_index (procedures e) pi = None -> unknown e = unknownError ->
   arrive e pi args k s =
   Ret (Error (Exception
                 (TCompound "existence_error"
                    (TAtom "procedure"
                     :: TCompound "/" (TAtom (name pi) :: TInteger (arity pi) :: nil)
                     :: nil)) None), s))
  /\ (map_index (procedures e) pi = None -> unknown e = unknownFail ->
      arrive e pi args k s = Ret (Bool false, s))
  /\ (map_index (procedures e) pi = None -> unknown e = unknownWarning ->
      arrive e pi args k s =
      Ret (Bool false,
           mkState (heap s) (next s)
             (logged s
              ++ mkEntry "warning" "unknown procedure" (("procedure", pi) :: nil)
              :: nil)))
  /\ (forall p, map_index (procedures e) pi = Some p ->
      arrive e pi args k s = Ret (Delay (Func (Call p args k) :: nil), s)).
Proof.
  unfold arrive. repeat split.
  - intros -> ->. reflexivity.
  - intros -> ->. reflexivity.
  - intros -> ->. reflexivity.
  - intros p ->. reflexivity.
Qed.

(** C6.  The call instruction with operand [i]: [xr[i]] is read; [args] is
    unified with the empty list, and the result is [false] if that fails;
    [xr[i]] must be a procedure indicator, or the result is an error; the
    result is then a [Delay] of one closure, which is
    [arrive pf astack k'], where [k'] allocates one variable [v] and
    gives a [Delay] of the closure that executes the rest of the bytecode
    with [v] as both [args] and [astack]. *)
Theorem exec_call (i : Z) (pc : bytecode) (xr : list Term) (vars : list VarId)
    (k : thunk) (args astack : Term) (s : State) :
  exists k' : thunk,
    exec (opCall :: i :: pc) xr vars k args astack s =
    match nth_error xr (Z.to_nat i) with
    | None => Panic "index out of range"
    | Some x =>
        match Term_Unify args (List_ nil) false s with
        | Panic why => Panic why
        | Ret (false, s') => Ret (Bool false, s')
        | Ret (true, s') =>
            match x with
            | TIndicator pf => Ret (Delay (ArriveThunk pf astack k' :: nil), s')
            | _ => Ret (Error (errors_New "not a principal functor"), s')
            end
        end
    end
    /\ (forall e pf, run e (ArriveThunk pf astack k') = arrive e pf astack k')
    /\ (forall e s1,
          run e k' s1 =
          Ret (Delay (Func (exec pc xr vars k (TVar (next s1)) (TVar (next s1)))
                      :: nil),
               mkState (<[next s1 := zeroVariable]> (heap s1)) (S (next s1))
                       (logged s1))).
Proof.
  eexists. split; [|split].
  - cbn [exec]. change (Z.eqb opCall opVoid) with false.
    change (Z.eqb opCall opConst) with false.
    change (Z.eqb opCall opVar) with false.
    change (Z.eqb opCall opFunctor) with false.
    change (Z.eqb opCall opPop) with false.
    change (Z.eqb opCall opEnter) with false.
    change (Z.eqb opCall opCall) with true. cbv iota.
    unfold mbind, M_bind, bind, index.
    destruct (nth_error xr (Z.to_nat i)) as [x|]; [|reflexivity].
    unfold ret at 1.
    destruct (Term_Unify args (List_ nil) false s) as [[[|] s']|why];
      cbn [negb]; try reflexivity.
    destruct x; reflexivity.
  - reflexivity.
  - reflexivity.
Qed.

(** The program [[exit]] gives the continuation back, delayed. *)
Lemma exec_exit (pc : bytecode) (xr : list Term) (vars : list VarId)
    (k : thunk) (args astack : Term) (s : State) :
  exec (opExit :: pc) xr vars k args astack s = Ret (Delay (k :: nil), s).
Proof. reflexivity. Qed.

Lemma fresh_from_S (n : nat) (s : State) :
  fresh_from (S n) s =
  (next s :: fst (fresh_from n (mkState (<[next s := zeroVariable]> (heap s))
                                        (S (next s)) (logged s))),
   snd (fresh_from n (mkState (<[next s := zeroVariable]> (heap s))
                              (S (next s)) (logged s)))).
Proof. cbn [fresh_from]. destruct (fresh_from n _). reflexivity. Qed.

(** C7.  A host predicate [p] of arity [n], called with the packed
    arguments [args]: [n] fresh variables are allocated and [args] is
    unified with the list of them; if that succeeds the host function is
    applied to the variables and to a continuation that executes the
    program [[exit]], which gives the caller's continuation [k] back; if
    it fails the result is an error Promise. *)
Theorem predicate_Call (p : procedure) (n : nat) (args : Term) (k : thunk)
    (s : State) :
  host_arity p = Some n ->
  (n <= 5)%nat
  /\ exit_thunk k = Func (exec (opExit :: nil) nil nil k TNil TNil)
  /\ (forall e s1, run e (exit_thunk k) s1 = Ret (Delay (k :: nil), s1))
  /\ match Term_Unify args (List_ (map TVar (fst (fresh_from n s)))) false
             (snd (fresh_from n s)) with
     | Ret (true, s') =>
         exists body,
           host_apply p (map TVar (fst (fresh_from n s))) (exit_thunk k)
           = Some body
           /\ Call p args k s = body s'
     | Ret (false, s') =>
         exists err, Call p args k s = Ret (Error err, s')
     | Panic why => Call p args k s = Panic why
     end.
Proof.
  intros Hn.
  destruct p; cbn [host_arity] in Hn; try discriminate;
    injection Hn as <-; (split; [lia|]); (split; [reflexivity|]);
    (split; [reflexivity|]);
    rewrite ?fresh_from_S; cbn [fresh_from fst snd map Call];
    unfold predicate0_Call, predicate1_Call, predicate2_Call, predicate3_Call,
      predicate4_Call, predicate5_Call, mbind, M_bind, bind, new_Variable;
    cbn [next heap logged];
    match goal with
    | |- context [Term_Unify ?a ?l ?o ?st] =>
        destruct (Term_Unify a l o st) as [[[|] s']|why]
    end; cbn [negb host_apply]; eauto.
Qed.

(** C8, as the code has it.  An opcode outside 0..7 at the head of the
    bytecode, and the end of the bytecode, each give an error Promise and
    leave the store as it is; the error is the plain Go error
    [fmt.Errorf("unknown(%d)", op)], respectively
    [errors.New("non-exit end of bytecode")]. *)
Theorem exec_unknown_opcode_or_end (xr : list Term) (vars : list VarId)
    (k : thunk) (args astack : Term) (s : State) :
  (forall op pc, ~ (0 <= op <= 7) ->
     exec (op :: pc) xr vars k args astack s =
     Ret (Error (fmt_Errorf "unknown(%d)" (ArgByte op :: nil)), s))
  /\ exec nil xr vars k args astack s =
     Ret (Error (errors_New "non-exit end of bytecode"), s).
Proof.
  split; [|reflexivity].
  intros op pc Hop. cbn [exec].
  unfold opVoid, opConst, opVar, opFunctor, opPop, opEnter, opCall, opExit.
  repeat match goal with
         | |- context [Z.eqb op ?c] =>
             destruct (Z.eqb_spec op c); [lia|]
         end.
  reflexivity.
Qed.

(** An instruction that takes an operand, as the last byte of the
    bytecode: reading the operand is an index out of range. *)
Lemma exec_truncated_operand (op : Z) (xr : list Term) (vars : list VarId)
    (k : thunk) (args astack : Term) (s : State) :
  op = opConst \/ op = opVar \/ op = opFunctor \/ op = opCall ->
  exec (op :: nil) xr vars k args astack s = Panic "index out of range".
Proof. intros [->|[->|[->| ->]]]; reflexivity. Qed.

(** C9.  A procedure with no clause fails at once: the result is [false],
    the store is untouched, whatever the arguments, the continuation and
    the depth of recursion the host allows. *)
Theorem clauses_Call_empty (args : Term) (k : thunk) (s : State) :
  Call (clauses nil) args k s = Ret (Bool false, s)
  /\ clauses_Call nil args k s = Ret (Bool false, s).
Proof. split; reflexivity. Qed.

Lemma arrive_register (pi : procedureIndicator) (p : procedure) (e e' : Engine)
    (args : Term) (k : thunk) (s : State) :
  register pi p e = Ret e' ->
  arrive e' pi args k s = Ret (Delay (Func (Call p args k) :: nil), s).
Proof.
  unfold register. intros Hr.
  assert (map_index (procedures e') pi = Some p) as Hlook.
  { destruct e as [[m|] u]; cbn in Hr; inversion Hr; subst e';
      cbn; apply lookup_insert_eq. }
  unfold arrive. rewrite Hlook. reflexivity.
Qed.

(** C10.  On the zero value of [Engine], whose table of procedures is nil,
    each of [Register0] to [Register5] returns: the table is allocated
    and holds the predicate under its indicator; [arrive] with that
    indicator then gives the [Delay] that calls the predicate. *)
Theorem Register_zero_value (name : string) (args : Term) (k : thunk) (s : State) :
  (forall p, exists e',
      Register0 name p zeroEngine = Ret e'
      /\ procedures e' = Some {[ mkPI name 0 := predicate0 p ]}
      /\ arrive e' (mkPI name 0) args k s
         = Ret (Delay (Func (Call (predicate0 p) args k) :: nil), s))
  /\ (forall p, exists e',
      Register1 name p zeroEngine = Ret e'
      /\ procedures e' = Some {[ mkPI name 1 := predicate1 p ]}
      /\ arrive e' (mkPI name 1) args k s
         = Ret (Delay (Func (Call (predicate1 p) args k) :: nil), s))
  /\ (forall p, exists e',
      Register2 name p zeroEngine = Ret e'
      /\ procedures e' = Some {[ mkPI name 2 := predicate2 p ]}
      /\ arrive e' (mkPI name 2) args k s
         = Ret (Delay (Func (Call (predicate2 p) args k) :: nil), s))
  /\ (forall p, exists e',
      Register3 name p zeroEngine = Ret e'
      /\ procedures e' = Some {[ mkPI name 3 := predicate3 p ]}
      /\ arrive e' (mkPI name 3) args k s
         = Ret (Delay (Func (Call (predicate3 p) args k) :: nil), s))
  /\ (forall p, exists e',
      Register4 name p zeroEngine = Ret e'
      /\ procedures e' = Some {[ mkPI name 4 := predicate4 p ]}
      /\ arrive e' (mkPI name 4) args k s
         = Ret (Delay (Func (Call (predicate4 p) args k) :: nil), s))
  /\ (forall p, exists e',
      Register5 name p zeroEngine = Ret e'
      /\ procedures e' = Some {[ mkPI name 5 := predicate5 p ]}
      /\ arrive e' (mkPI name 5) args k s
         = Ret (Delay (Func (Call (predicate5 p) args k) :: nil), s)).
Proof.
  repeat split; intros p; eexists;
    (split; [reflexivity|]); (split; [reflexivity|]);
    apply (arrive_register _ _ zeroEngine); reflexivity.
Qed.

End MachineProperties.

(** ** The clause compiler *)

Section Compiler.
Import prolog.
Context {H : Host}.

Lemma bind_Ret_inv {A B : Type} (m : M A) (f : A -> M B) (s s' : State) (b : B) :
  (m ≫= f) s = Ret (b, s') ->
  exists a s1, m s = Ret (a, s1) /\ f a s1 = Ret (b, s').
Proof.
  unfold mbind, M_bind, bind. destruct (m s) as [[a s1]|why]; [|discriminate].
  intros Hf. exists a, s1. split; [reflexivity|exact Hf].
Qed.

Lemma ret_inv {A : Type} (a b : A) (s s' : State) :
  ret a s = Ret (b, s') -> a = b /\ s = s'.
Proof. unfold ret. intros Heq. injection Heq as -> ->. split; reflexivity. Qed.

Lemma byte_is_byte (i : nat) : is_byte (byte i).
Proof. unfold is_byte, byte. apply Z.mod_pos_bound. lia. Qed.

Lemma byte_small (i : nat) : (i < 256)%nat -> Z.to_nat (byte i) = i.
Proof. intros Hi. unfold byte. rewrite Z.mod_small by lia. lia. Qed.

Lemma appends_refl (c : clause) : appends c c nil.
Proof. split; [symmetry; apply app_nil_r|constructor]. Qed.

Lemma appends_trans (c1 c2 c3 : clause) (code1 code2 : bytecode) :
  appends c1 c2 code1 -> appends c2 c3 code2 -> appends c1 c3 (code1 ++ code2).
Proof.
  intros [H1 F1] [H2 F2]. split.
  - rewrite H2, H1, app_assoc. reflexivity.
  - apply Forall_app. split; assumption.
Qed.

Lemma appends_emit (c : clause) (code : bytecode) :
  Forall is_byte code -> appends c (emit c code) code.
Proof. intros Hb. split; [reflexivity|exact Hb]. Qed.

Lemma xrSearch_found (rs : list Term) (i : nat) (o : Term) (s s' : State) (j : nat) :
  xrSearch i rs o s = Ret (Some j, s') ->
  (i <= j)%nat /\ exists r s1 s2,
      nth_error rs (j - i) = Some r /\ Term_Unify r o false s1 = Ret (true, s2).
Proof.
  revert i s. induction rs as [|r rs IH]; intros i s Hs.
  - apply ret_inv in Hs as [Hs _]. discriminate.
  - cbn [xrSearch] in Hs. apply bind_Ret_inv in Hs as (ok & s1 & Hu & Hs).
    destruct ok.
    + apply ret_inv in Hs as [Hs _]. injection Hs as <-.
      split; [lia|]. exists r, s, s1. rewrite Nat.sub_diag. split; [reflexivity|exact Hu].
    + apply IH in Hs as (Hle & r' & sa & sb & Hnth & Hu').
      split; [lia|]. exists r', sa, sb. split; [|exact Hu'].
      replace (j - i)%nat with (S (j - S i)) by lia. exact Hnth.
Qed.

(** What [xrOffset] returns: the clause changes in its table only, by at
    most one entry at the end; the byte is the index [i] of an entry
    modulo 256; that entry unified with [o] or is [o], just appended. *)
Lemma xrOffset_spec (c : clause) (o : Term) (s s' : State) (b : Z) (c' : clause) :
  xrOffset c o s = Ret ((b, c'), s') ->
  bytecode_ c' = bytecode_ c /\ vars c' = vars c
  /\ exists (i : nat) (r : Term),
      b = byte i /\ nth_error (xrTable c') i = Some r
      /\ ((c' = c /\ exists s1 s2, Term_Unify r o false s1 = Ret (true, s2))
          \/ (xrTable c' = xrTable c ++ o :: nil /\ i = length (xrTable c) /\ r = o)).
Proof.
  unfold xrOffset. intros Hx.
  apply bind_Ret_inv in Hx as ([j|] & s1 & Hs & Hx);
    apply ret_inv in Hx as [Hx _]; injection Hx as <- <-.
  - split; [reflexivity|]. split; [reflexivity|].
    apply xrSearch_found in Hs as (_ & r & sa & sb & Hnth & Hu).
    rewrite Nat.sub_0_r in Hnth.
    exists j, r. split; [reflexivity|]. split; [exact Hnth|].
    left. split; [reflexivity|]. exists sa, sb. exact Hu.
  - split; [reflexivity|]. split; [reflexivity|].
    cbn [xrTable]. exists (length (xrTable c)), o.
    split; [f_equal; rewrite length_app; cbn; lia|].
    split; [|right; auto].
    rewrite nth_error_app2 by lia. rewrite Nat.sub_diag. reflexivity.
Qed.

Lemma varSearch_found (vs : list VarId) (i j : nat) (o : VarId) :
  varSearch i vs o = Some j -> (i <= j)%nat /\ nth_error vs (j - i) = Some o.
Proof.
  revert i. induction vs as [|v vs IH]; intros i Hs; [discriminate|].
  cbn [varSearch] in Hs. destruct (Nat.eqb_spec v o) as [->|Hne].
  - injection Hs as <-. rewrite Nat.sub_diag. split; [lia|reflexivity].
  - apply IH in Hs as [Hle Hnth]. split; [lia|].
    replace (j - i)%nat with (S (j - S i)) by lia. exact Hnth.
Qed.

(** What [varOffset] returns; it always returns. *)
Lemma varOffset_spec (c : clause) (o : VarId) (s : State) :
  exists (b : Z) (c' : clause) (s' : State) (i : nat),
    varOffset c o s = Ret ((b, c'), s')
    /\ bytecode_ c' = bytecode_ c /\ xrTable c' = xrTable c
    /\ b = byte i /\ nth_error (vars c') i = Some o.
Proof.
  unfold varOffset. destruct (varSearch 0 (vars c) o) as [j|] eqn:Hs.
  - apply varSearch_found in Hs as [_ Hnth]. rewrite Nat.sub_0_r in Hnth.
    exists (byte j), c, s, j. repeat split; try reflexivity. exact Hnth.
  - eexists _, _, _, (length (vars c)). split; [reflexivity|].
    cbn [bytecode_ xrTable vars]. repeat split.
    + f_equal. rewrite length_app. cbn. lia.
    + rewrite nth_error_app2 by lia. rewrite Nat.sub_diag. reflexivity.
Qed.

Lemma compileArg_compound (c : clause) (f : Atom) (ns : list Term) (s : State) :
  compileArg c (TCompound f ns) s =
  ('(i, c1) ← xrOffset c (TIndicator (mkPI f (Z.of_nat (length ns))));
   '(err, c2) ← compileArgs (emit c1 (opFunctor :: i :: nil)) ns;
   match err with
   | Some _ => ret (err, c2)
   | None => ret (None, emit c2 (opPop :: nil))
   end) s.
Proof.
  cbn [compileArg]. unfold mbind, M_bind, bind.
  destruct (xrOffset c _ s) as [[[i c1] s1]|why]; [|reflexivity].
  match goal with
  | |- match ?x ns ?c0 s1 with _ => _ end = _ =>
      assert (forall ms c s, x ms c s = compileArgs c ms s) as Heach
  end.
  { clear. induction ms as [|n ms IH]; intros c s; [reflexivity|].
    cbn [compileArgs]. unfold mbind, M_bind, bind.
    destruct (compileArg c n s) as [[[err c'] s']|why]; [|reflexivity].
    destruct err; [reflexivity|]. apply IH. }
  rewrite Heach. reflexivity.
Qed.

Lemma is_byte_ops :
  is_byte opVoid /\ is_byte opEnter /\ is_byte opCall /\ is_byte opExit
  /\ is_byte opConst /\ is_byte opVar /\ is_byte opFunctor /\ is_byte opPop.
Proof. unfold is_byte; cbv; intuition discriminate. Qed.

Ltac bytes :=
  repeat constructor;
  first [apply byte_is_byte | (unfold is_byte; cbv; intuition discriminate)].

(** [compileArgs] appends, if each of the arguments does. *)
Lemma compileArgs_appends_if (ns : list Term) :
  Forall (fun n => forall c s err c' s',
              compileArg c n s = Ret ((err, c'), s') ->
              exists code, appends c c' code) ns ->
  forall c s err c' s',
    compileArgs c ns s = Ret ((err, c'), s') ->
    exists code, appends c c' code.
Proof.
  induction 1 as [|n ns Hn _ IH]; intros c s err c' s' Hc.
  - apply ret_inv in Hc as [Hc _]. injection Hc as _ <-.
    exists nil. apply appends_refl.
  - cbn [compileArgs] in Hc.
    apply bind_Ret_inv in Hc as ([e1 c1] & s1 & Hc1 & Hc).
    apply Hn in Hc1 as [code1 Ha1]. destruct e1.
    + apply ret_inv in Hc as [Hc _]. injection Hc as _ <-. eauto.
    + apply IH in Hc as [code2 Ha2]. eexists. eapply appends_trans; eassumption.
Qed.

(** [compileArg] only appends bytes to the bytecode. *)
Lemma compileArg_appends (a : Term) :
  forall c s err c' s',
    compileArg c a s = Ret ((err, c'), s') ->
    exists code, appends c c' code.
Proof.
  induction a as [| x | x | x | v | f ns IH | pi] using Term_ind';
    intros c s err c' s' Hc.
  - apply ret_inv in Hc as [Hc _]. injection Hc as _ <-. exists nil. apply appends_refl.
  - cbn [compileArg] in Hc.
    apply bind_Ret_inv in Hc as ([i c1] & s1 & Hx & Hc).
    apply ret_inv in Hc as [Hc _]. injection Hc as _ <-.
    apply xrOffset_spec in Hx as (Hb & _ & j & _ & -> & _).
    eexists. split; [cbn [emit bytecode_]; rewrite Hb; reflexivity|bytes].
  - cbn [compileArg] in Hc.
    apply bind_Ret_inv in Hc as ([i c1] & s1 & Hx & Hc).
    apply ret_inv in Hc as [Hc _]. injection Hc as _ <-.
    apply xrOffset_spec in Hx as (Hb & _ & j & _ & -> & _).
    eexists. split; [cbn [emit bytecode_]; rewrite Hb; reflexivity|bytes].
  - cbn [compileArg] in Hc.
    apply bind_Ret_inv in Hc as ([i c1] & s1 & Hx & Hc).
    apply ret_inv in Hc as [Hc _]. injection Hc as _ <-.
    apply xrOffset_spec in Hx as (Hb & _ & j & _ & -> & _).
    eexists. split; [cbn [emit bytecode_]; rewrite Hb; reflexivity|bytes].
  - cbn [compileArg] in Hc.
    apply bind_Ret_inv in Hc as ([i c1] & s1 & Hx & Hc).
    apply ret_inv in Hc as [Hc _]. injection Hc as _ <-.
    destruct (varOffset_spec c v s) as (b & c2 & s2 & j & Hv & Hb & _ & -> & _).
    rewrite Hv in Hx. injection Hx as <- <- <-.
    eexists. split; [cbn [emit bytecode_]; rewrite Hb; reflexivity|bytes].
  - rewrite compileArg_compound in Hc.
    apply bind_Ret_inv in Hc as ([i c1] & s1 & Hx & Hc).
    apply bind_Ret_inv in Hc as ([e2 c2] & s2 & Hargs & Hc).
    apply xrOffset_spec in Hx as (Hb & _ & j & _ & -> & _).
    apply (compileArgs_appends_if ns IH) in Hargs as [code2 Ha2].
    assert (appends c (emit c1 (opFunctor :: byte j :: nil))
                    (opFunctor :: byte j :: nil)) as Ha1.
    { split; [cbn [emit bytecode_]; rewrite Hb; reflexivity|bytes]. }
    destruct e2; apply ret_inv in Hc as [Hc _]; injection Hc as _ <-.
    + eexists. eapply appends_trans; eassumption.
    + eexists. eapply appends_trans; [eapply appends_trans; eassumption|].
      apply appends_emit. bytes.
  - apply ret_inv in Hc as [Hc _]. injection Hc as _ <-. exists nil. apply appends_refl.
Qed.

Lemma compileArgs_appends (ns : list Term) (c : clause) (s : State)
    (err : option error) (c' : clause) (s' : State) :
  compileArgs c ns s = Ret ((err, c'), s') -> exists code, appends c c' code.
Proof.
  apply compileArgs_appends_if. apply Forall_forall. intros n _.
  apply compileArg_appends.
Qed.

(** [compilePred] only appends bytes; a goal that compiles ends in a call
    instruction. *)
Lemma compilePred_appends (p : Term) (c : clause) (s : State)
    (err : option error) (c' : clause) (s' : State) :
  compilePred c p s = Ret ((err, c'), s') ->
  exists code, appends c c' code
    /\ (err = None -> exists pre i, code = pre ++ opCall :: i :: nil).
Proof.
  intros Hc. destruct p as [| a | | | | f ns |]; cbn [compilePred] in Hc;
    try (apply ret_inv in Hc as [Hc _]; injection Hc as <- <-;
         exists nil; split; [apply appends_refl|discriminate]).
  - apply bind_Ret_inv in Hc as ([i c1] & s1 & Hx & Hc).
    apply ret_inv in Hc as [Hc _]. injection Hc as _ <-.
    apply xrOffset_spec in Hx as (Hb & _ & j & _ & -> & _).
    eexists. split.
    + split; [cbn [emit bytecode_]; rewrite Hb; reflexivity|bytes].
    + intros _. exists nil, (byte j). reflexivity.
  - apply bind_Ret_inv in Hc as ([e1 c1] & s1 & Hargs & Hc).
    apply compileArgs_appends in Hargs as [code1 Ha1].
    destruct e1.
    + apply ret_inv in Hc as [Hc _]. injection Hc as <- <-.
      exists code1. split; [exact Ha1|discriminate].
    + apply bind_Ret_inv in Hc as ([i c2] & s2 & Hx & Hc).
      apply ret_inv in Hc as [Hc _]. injection Hc as _ <-.
      apply xrOffset_spec in Hx as (Hb & _ & j & _ & -> & _).
      exists (code1 ++ opCall :: byte j :: nil). split.
      * eapply appends_trans; [exact Ha1|].
        split; [cbn [emit bytecode_]; rewrite Hb; reflexivity|bytes].
      * intros _. exists code1, (byte j). reflexivity.
Qed.

Lemma goals_code_single (c : clause) (g : Term) (s : State) (c' : clause)
    (s' : State) :
  compilePred c g s = Ret ((None, c'), s') ->
  exists codes,
    goals_code c (g :: nil) s codes c' s'
    /\ bytecode_ c' = bytecode_ c ++ concat codes
    /\ Forall (fun code => exists pre i, code = pre ++ opCall :: i :: nil) codes.
Proof.
  intros Hc. destruct (compilePred_appends _ _ _ _ _ _ Hc) as (code & [Hb _] & Hcall).
  exists (code :: nil). split; [|split].
  - econstructor; [exact Hc|exact Hb|constructor].
  - cbn [concat]. rewrite app_nil_r. exact Hb.
  - constructor; [apply Hcall; reflexivity|constructor].
Qed.

(** The loop over the body compiles the goals of [spine body] one after
    the other. *)
Lemma compileBody_goals (body : Term) :
  forall c s c' s',
    compileBody c body s = Ret ((None, c'), s') ->
    exists codes,
      goals_code c (spine body) s codes c' s'
      /\ bytecode_ c' = bytecode_ c ++ concat codes
      /\ Forall (fun code => exists pre i, code = pre ++ opCall :: i :: nil) codes.
Proof.
  induction body as [| x | x | x | v | f ns IH | pi] using Term_ind';
    intros c s c' s' Hc;
    try (apply goals_code_single; exact Hc).
  destruct ns as [|g [|rest [|x xs]]];
    try (apply goals_code_single; exact Hc).
  cbn [compileBody spine] in *. destruct (String.eqb f ",").
  2:{ apply goals_code_single; exact Hc. }
  apply bind_Ret_inv in Hc as ([e1 c1] & s1 & Hg & Hc).
  destruct e1.
  { apply ret_inv in Hc as [Hc _]. discriminate. }
  destruct (compilePred_appends _ _ _ _ _ _ Hg) as (code & [Hb _] & Hcall).
  inversion IH as [|? ? _ IH']. inversion IH' as [|? ? IHrest _]. subst.
  apply IHrest in Hc as (codes & Hgs & Hbs & Hcalls).
  exists (code :: codes). split; [|split].
  - econstructor; eassumption.
  - cbn [concat]. rewrite Hbs, Hb, app_assoc. reflexivity.
  - constructor; [apply Hcall; reflexivity|exact Hcalls].
Qed.

Lemma compileBody_appends (body : Term) :
  forall c s err c' s',
    compileBody c body s = Ret ((err, c'), s') ->
    exists code, appends c c' code.
Proof.
  assert (forall g c s err c' s',
             compilePred c g s = Ret ((err, c'), s') ->
             exists code, appends c c' code) as Hpred.
  { intros g c s err c' s' Hc.
    apply compilePred_appends in Hc as (code & Ha & _). eauto. }
  induction body as [| x | x | x | v | f ns IH | pi] using Term_ind';
    intros c s err c' s' Hc; try (eapply Hpred; exact Hc).
  destruct ns as [|g [|rest [|x xs]]]; try (eapply Hpred; exact Hc).
  cbn [compileBody] in Hc. destruct (String.eqb f ",").
  2:{ eapply Hpred; exact Hc. }
  apply bind_Ret_inv in Hc as ([e1 c1] & s1 & Hg & Hc).
  apply Hpred in Hg as [code1 Ha1]. destruct e1.
  - apply ret_inv in Hc as [Hc _]. injection Hc as _ <-. eauto.
  - inversion IH as [|? ? _ IH']. inversion IH' as [|? ? IHrest _]. subst.
    apply IHrest in Hc as [code2 Ha2].
    eexists. eapply appends_trans; eassumption.
Qed.

(** C5.  A head and a body that compile without error: the head appends
    its matching code [hcode]; a clause without body then ends with
    [exit]; with a body, [enter] follows the head, then the code of each
    goal of the conjunction spine, in order, each ending in a call
    instruction, then [exit].  In both cases the last byte is [exit]. *)
Theorem compileClause_layout (c : clause) (head body : Term) (s : State)
    (c' : clause) (s' : State) :
  compileClause c head body s = Ret ((None, c'), s') ->
  exists (hcode : bytecode) (chead : clause) (shead : State),
    compileHead c head s = Ret ((None, chead), shead)
    /\ bytecode_ chead = bytecode_ c ++ hcode
    /\ last (bytecode_ c') opVoid = opExit
    /\ match body with
       | TNil => bytecode_ c' = bytecode_ c ++ hcode ++ opExit :: nil
       | _ =>
           exists (codes : list bytecode) (cbody : clause),
             goals_code (emit chead (opEnter :: nil)) (spine body) shead
                        codes cbody s'
             /\ Forall (fun code => exists pre i, code = pre ++ opCall :: i :: nil)
                       codes
             /\ bytecode_ c' =
                bytecode_ c ++ hcode ++ opEnter :: concat codes ++ opExit :: nil
       end.
Proof.
  unfold compileClause. intros Hc.
  apply bind_Ret_inv in Hc as ([e1 c1] & s1 & Hh & Hc).
  destruct e1.
  { apply ret_inv in Hc as [Hc _]. discriminate. }
  assert (exists hcode, bytecode_ c1 = bytecode_ c ++ hcode) as [hcode Hb1].
  { destruct head; cbn [compileHead] in Hh;
      try (apply ret_inv in Hh as [Hh _]; discriminate).
    - apply ret_inv in Hh as [Hh _]. injection Hh as <-.
      exists nil. symmetry. apply app_nil_r.
    - apply compileArgs_appends in Hh as (code & Hb & _). eauto. }
  apply bind_Ret_inv in Hc as ([e2 c2] & s2 & Hbody & Hc).
  destruct e2.
  { apply ret_inv in Hc as [Hc _]. discriminate. }
  apply ret_inv in Hc as [Hc <-]. injection Hc as <-.
  exists hcode, c1, s1. split; [exact Hh|]. split; [exact Hb1|].
  split; [cbn [emit bytecode_]; apply last_last|].
  destruct body;
    try (apply compileBody_goals in Hbody as (codes & Hgs & Hbs & Hcalls);
         exists codes, c2; split; [exact Hgs|]; split; [exact Hcalls|];
         cbn [emit bytecode_] in *; rewrite Hbs, Hb1;
         rewrite <- !app_assoc; reflexivity).
  apply ret_inv in Hbody as [Hbody _]. injection Hbody as <-.
  cbn [emit bytecode_]. rewrite Hb1, <- app_assoc. reflexivity.
Qed.

(** The operands of [xrOffset] and [varOffset].  Neither has a failure
    result nor checks a size: each returns the index of the entry for
    [o] converted to a byte.  So the operand is a byte, and it is the
    index of that entry when the table has at most 256 entries; and every
    byte that [compileClause] appends is a byte. *)
Theorem offsets_are_bytes (c : clause) (s : State) :
  (forall o b c' s',
      xrOffset c o s = Ret ((b, c'), s') ->
      is_byte b
      /\ exists (i : nat) (r : Term),
          b = Z.of_nat i mod 256
          /\ nth_error (xrTable c') i = Some r
          /\ (r = o \/ exists s1 s2, Term_Unify r o false s1 = Ret (true, s2))
          /\ ((length (xrTable c') <= 256)%nat ->
              nth_error (xrTable c') (Z.to_nat b) = Some r))
  /\ (forall o, exists b c' s' (i : nat),
      varOffset c o s = Ret ((b, c'), s')
      /\ is_byte b
      /\ b = Z.of_nat i mod 256
      /\ nth_error (vars c') i = Some o
      /\ ((length (vars c') <= 256)%nat ->
          nth_error (vars c') (Z.to_nat b) = Some o))
  /\ (forall head body err c' s',
      compileClause c head body s = Ret ((err, c'), s') ->
      exists code, bytecode_ c' = bytecode_ c ++ code /\ Forall is_byte code).
Proof.
  split; [|split].
  - intros o b c' s' Hx.
    apply xrOffset_spec in Hx as (_ & _ & i & r & -> & Hnth & Hr).
    split; [apply byte_is_byte|]. exists i, r.
    split; [reflexivity|]. split; [exact Hnth|]. split.
    + destruct Hr as [[_ Hu]|(_ & _ & ->)]; [right; exact Hu|left; reflexivity].
    + intros Hlen. rewrite byte_small; [exact Hnth|].
      assert (i < length (xrTable c'))%nat by (apply nth_error_Some; congruence).
      lia.
  - intros o. destruct (varOffset_spec c o s) as (b & c' & s' & i & Hv & _ & _ & -> & Hnth).
    exists (byte i), c', s', i. split; [exact Hv|].
    split; [apply byte_is_byte|]. split; [reflexivity|]. split; [exact Hnth|].
    intros Hlen. rewrite byte_small; [exact Hnth|].
    assert (i < length (vars c'))%nat by (apply nth_error_Some; congruence).
    lia.
  - intros head body err c' s'. unfold compileClause. intros Hc.
    apply bind_Ret_inv in Hc as ([e1 c1] & s1 & Hh & Hc).
    assert (exists hcode, appends c c1 hcode) as [hcode Ha1].
    { destruct head; cbn [compileHead] in Hh;
        try (apply ret_inv in Hh as [Hh _]; injection Hh as _ <-;
             exists nil; apply appends_refl).
      apply compileArgs_appends in Hh. exact Hh. }
    destruct e1.
    { apply ret_inv in Hc as [Hc _]. injection Hc as _ <-. exists hcode. exact Ha1. }
    apply bind_Ret_inv in Hc as ([e2 c2] & s2 & Hbody & Hc).
    assert (exists bcode, appends c1 c2 bcode) as [bcode Ha2].
    { clear Hc. destruct body;
        try (apply compileBody_appends in Hbody as [code Ha];
             eexists; eapply appends_trans; [|exact Ha];
             apply appends_emit; bytes).
      apply ret_inv in Hbody as [Hbody _]. injection Hbody as _ <-.
      exists nil. apply appends_refl. }
    destruct e2; apply ret_inv in Hc as [Hc _]; injection Hc as _ <-.
    + eexists. eapply appends_trans; eassumption.
    + eexists. eapply appends_trans; [eapply appends_trans; eassumption|].
      apply appends_emit. bytes.
Qed.

End Compiler.

(** ** Alternatives of a procedure and the bindings of the arguments *)

Section Assignment.
Import prolog.

Lemma deref_set_Ref_eq (v : VarId) (t : Term) (h : gmap VarId Variable_) :
  Ref (deref (set_Ref v t h) v) = t.
Proof. unfold set_Ref, deref. rewrite lookup_insert_eq. reflexivity. Qed.

Lemma deref_set_Ref_ne (v w : VarId) (t : Term) (h : gmap VarId Variable_) :
  v <> w -> deref (set_Ref v t h) w = deref h w.
Proof. intros Hne. unfold set_Ref, deref. rewrite lookup_insert_ne by exact Hne. reflexivity. Qed.

Lemma reset_heap_out (a : assignment) (h : gmap VarId Variable_) (v : VarId) :
  ~ In v a -> deref (reset_heap a h) v = deref h v.
Proof.
  unfold reset_heap. revert h. induction a as [|x a IH]; intros h Hv; [reflexivity|].
  cbn [fold_left]. rewrite IH by (intros Hin; apply Hv; right; exact Hin).
  apply deref_set_Ref_ne. intros ->. apply Hv. left. reflexivity.
Qed.

Lemma reset_heap_in (a : assignment) (h : gmap VarId Variable_) (v : VarId) :
  In v a -> Ref (deref (reset_heap a h) v) = TNil.
Proof.
  unfold reset_heap. revert h. induction a as [|x a IH]; intros h Hv; [destruct Hv|].
  cbn [fold_left]. destruct (in_dec Nat.eq_dec v a) as [Hin|Hout].
  - apply IH, Hin.
  - destruct Hv as [->|Hin]; [|contradiction].
    fold (reset_heap a (set_Ref v TNil h)).
    rewrite reset_heap_out by exact Hout. apply deref_set_Ref_eq.
Qed.

Lemma reach_bound (h : gmap VarId Variable_) (v w : VarId) :
  Ref (deref h v) <> TNil ->
  (reach h (TVar v) w /\ Ref (deref h w) = TNil)
  <-> (reach h (Ref (deref h v)) w /\ Ref (deref h w) = TNil).
Proof.
  intros Hb. split; intros [Hr Hw]; (split; [|exact Hw]).
  - inversion Hr; subst; [contradiction|assumption].
  - apply reach_ref. exact Hr.
Qed.

Lemma reach_free (h : gmap VarId Variable_) (v w : VarId) :
  Ref (deref h v) = TNil -> reach h (TVar v) w -> w = v.
Proof.
  intros Hf Hr. inversion Hr as [|? ? Hr'|]; subst; [reflexivity|].
  rewrite Hf in Hr'. inversion Hr'.
Qed.

Lemma assignment_contains_In (a : assignment) (v : VarId) :
  assignment_contains a v = true <-> In v a.
Proof.
  unfold assignment_contains. rewrite existsb_exists. split.
  - intros (x & Hin & Heq). apply Nat.eqb_eq in Heq. subst. exact Hin.
  - intros Hin. exists v. split; [exact Hin|apply Nat.eqb_refl].
Qed.

Lemma fold_add_None (fuel : nat) (h : gmap VarId Variable_) (ts : list Term) :
  fold_left (add_step fuel h) ts None = None.
Proof. induction ts as [|t ts IH]; [reflexivity|exact IH]. Qed.

(** [assignment.add] collects the unbound variables that are met in [t],
    and nothing else. *)
Lemma assignment_add_spec (fuel : nat) (h : gmap VarId Variable_) :
  forall t a a',
    assignment_add fuel h t a = Some a' ->
    forall w, In w a' <-> In w a \/ (reach h t w /\ Ref (deref h w) = TNil).
Proof.
  induction fuel as [|fuel IH]; intros t a a' Hadd w; [discriminate|].
  destruct t as [| x | x | x | v | f ts | pi]; cbn [assignment_add] in Hadd;
    try (injection Hadd as <-; split; [intros Hin; left; exact Hin|];
         intros [Hin|[Hr _]]; [exact Hin|inversion Hr]).
  - destruct (Ref (deref h v)) eqn:Eref;
      try (rewrite reach_bound by (rewrite Eref; discriminate);
           rewrite Eref; apply IH, Hadd).
    destruct (assignment_contains a v) eqn:Ec; injection Hadd as <-.
    + apply assignment_contains_In in Ec. split; [intros Hin; left; exact Hin|].
      intros [Hin|[Hr _]]; [exact Hin|].
      apply reach_free in Hr; [subst; exact Ec|exact Eref].
    + rewrite in_app_iff. cbn [In]. split.
      * intros [Hin|[->|[]]]; [left; exact Hin|].
        right. split; [apply reach_var|exact Eref].
      * intros [Hin|[Hr _]]; [left; exact Hin|].
        apply reach_free in Hr; [subst; right; left; reflexivity|exact Eref].
  - change (fold_left (add_step fuel h) ts (Some a) = Some a') in Hadd.
    assert (forall us a0,
               fold_left (add_step fuel h) us (Some a0) = Some a' ->
               In w a' <->
               In w a0 \/ exists t, In t us /\ reach h t w /\ Ref (deref h w) = TNil)
      as Hfold.
    { clear Hadd. induction us as [|u us IHus]; intros a0 Hf.
      - injection Hf as <-. split; [intros Hin; left; exact Hin|].
        intros [Hin|(t & [] & _)]. exact Hin.
      - cbn [fold_left add_step] in Hf.
        destruct (assignment_add fuel h u a0) as [a1|] eqn:Hu.
        2:{ rewrite fold_add_None in Hf. discriminate. }
        rewrite (IHus _ Hf), (IH _ _ _ Hu w). cbn [In]. split.
        + intros [[Hin|[Hr Hw]]|(t & Hin & Hr & Hw)]; eauto 6.
        + intros [Hin|(t & [->|Hin] & Hr & Hw)]; eauto 6. }
    rewrite (Hfold _ _ Hadd). split.
    + intros [Hin|(t & Hin & Hr & Hw)]; [left; exact Hin|].
      right. split; [eapply reach_arg; eassumption|exact Hw].
    + intros [Hin|[Hr Hw]]; [left; exact Hin|].
      right. inversion Hr; subst. eauto.
Qed.

Lemma assignment_add_mono (fuel : nat) (h : gmap VarId Variable_) :
  forall t a a' fuel',
    assignment_add fuel h t a = Some a' -> (fuel <= fuel')%nat ->
    assignment_add fuel' h t a = Some a'.
Proof.
  induction fuel as [|fuel IH]; intros t a a' fuel' Hadd Hle; [discriminate|].
  destruct fuel' as [|fuel']; [lia|]. assert (fuel <= fuel')%nat as Hle' by lia.
  destruct t as [| x | x | x | v | f ts | pi]; cbn [assignment_add] in *;
    try exact Hadd.
  - destruct (Ref (deref h v)); try exact Hadd; eapply IH; eassumption.
  - change (fold_left (add_step fuel h) ts (Some a) = Some a') in Hadd.
    change (fold_left (add_step fuel' h) ts (Some a) = Some a').
    revert a Hadd. induction ts as [|u us IHus]; intros a Hadd; [exact Hadd|].
    cbn [fold_left add_step] in *.
    destruct (assignment_add fuel h u a) as [a1|] eqn:Hu.
    2:{ rewrite fold_add_None in Hadd. discriminate. }
    rewrite (IH _ _ _ _ Hu Hle'). apply IHus, Hadd.
Qed.

(** In a heap without cyclic binding, [assignment.add] returns when the
    depth of recursion allowed is large enough. *)
Lemma assignment_add_returns (rank : VarId -> nat) (h : gmap VarId Variable_) :
  ranked rank h ->
  forall n t, (forall w, In w (term_vars t) -> (rank w < n)%nat) ->
  forall a, exists fuel a', assignment_add fuel h t a = Some a'.
Proof.
  intros Hrank n. induction n as [n IHn] using lt_wf_ind.
  induction t as [| x | x | x | v | f ts IHts | pi] using Term_ind';
    intros Hvars a; try (exists 1%nat, a; reflexivity).
  - assert (rank v < n)%nat as Hv by (apply Hvars; left; reflexivity).
    destruct (IHn (rank v) Hv (Ref (deref h v)) (Hrank v) a) as (fuel & a' & Hadd).
    destruct (Ref (deref h v)) eqn:Eref;
      try (exists (S fuel), a'; cbn [assignment_add]; rewrite Eref; exact Hadd).
    exists 1%nat. cbn [assignment_add]. rewrite Eref.
    destruct (assignment_contains a v); eauto.
  - assert (forall a, exists fuel a',
                 fold_left (add_step fuel h) ts (Some a) = Some a') as Hfold.
    { cbn [term_vars] in Hvars. clear a.
      induction IHts as [|u us Hu _ IHus]; intros a.
      - exists 0%nat, a. reflexivity.
      - assert (forall w, In w (term_vars u) -> (rank w < n)%nat) as Hvu.
        { intros w Hw. apply Hvars. cbn [flat_map]. apply in_or_app. left. exact Hw. }
        assert (forall w, In w (flat_map term_vars us) -> (rank w < n)%nat) as Hvus.
        { intros w Hw. apply Hvars. cbn [flat_map]. apply in_or_app. right. exact Hw. }
        destruct (Hu Hvu a) as (fuel1 & a1 & H1).
        destruct (IHus Hvus a1) as (fuel2 & a2 & H2).
        exists (Nat.max fuel1 fuel2), a2. cbn [fold_left add_step].
        rewrite (assignment_add_mono _ _ _ _ _ _ H1 (Nat.le_max_l _ _)).
        clear - H2. revert a1 H2.
        generalize (Nat.le_max_r fuel1 fuel2). generalize (Nat.max fuel1 fuel2).
        intros m Hm. induction us as [|x xs IHxs]; intros a1 H2; [exact H2|].
        cbn [fold_left add_step] in *.
        destruct (assignment_add fuel2 h x a1) as [a3|] eqn:Hx.
        2:{ rewrite fold_add_None in H2. discriminate. }
        rewrite (assignment_add_mono _ _ _ _ _ _ Hx Hm). apply IHxs, H2. }
    destruct (Hfold a) as (fuel & a' & Hf). exists (S fuel), a'. exact Hf.
Qed.

Lemma make_vars_fresh_from `{Host} (n : nat) (s : State) :
  make_vars n s = Ret (fst (fresh_from n s), snd (fresh_from n s)).
Proof.
  revert s. induction n as [|n IH]; intros s; [reflexivity|].
  cbn [make_vars fresh_from]. unfold mbind, M_bind, bind, new_Variable.
  rewrite IH. destruct (fresh_from n _). reflexivity.
Qed.

Lemma fresh_from_old (n : nat) (s : State) (v : VarId) :
  (v < next s)%nat -> deref (heap (snd (fresh_from n s))) v = deref (heap s) v.
Proof.
  revert s. induction n as [|n IH]; intros s Hv; [reflexivity|].
  cbn [fresh_from].
  destruct (fresh_from n _) as [vs s'] eqn:Ef. cbn [snd].
  change s' with (snd (vs, s')). rewrite <- Ef. rewrite IH by (cbn [next]; lia).
  cbn [heap]. unfold deref. rewrite lookup_insert_ne by lia. reflexivity.
Qed.

End Assignment.

(** C3.  A procedure of clauses is called with [args] in the store [s0],
    whose bindings have no cycle and whose variables met from [args] are
    allocated.  Then [assignment.add] returns, for some depth of
    recursion, the assignment [a] of [args].  If the host allows that
    depth, the call returns one closure per clause, all built over [a].
    Run in any later store [s'] that still has the bindings [s0] had,
    such a closure resets [a], allocates the variables of its clause and
    starts its bytecode, in a store in which every variable met from
    [args] is bound, or unbound, exactly as in [s0]. *)
Theorem clauses_Call_restores (rank : VarId -> nat) (args : Term)
    (s0 : prolog.State) :
  prolog.ranked rank (prolog.heap s0) ->
  (forall v, prolog.reach (prolog.heap s0) args v -> (v < prolog.next s0)%nat) ->
  (exists (fuel : nat) (a : prolog.assignment),
      prolog.assignment_add fuel (prolog.heap s0) args nil = Some a)
  /\ forall (fuel : nat) (a : prolog.assignment),
      prolog.assignment_add fuel (prolog.heap s0) args nil = Some a ->
      forall H : prolog.Host,
      (fuel <= prolog.stack_limit)%nat ->
      forall (cs : list prolog.clause) (k : prolog.thunk), cs <> nil ->
      prolog.clauses_Call cs args k s0
      = prolog.Ret
          (prolog.Delay
             (map (fun c => prolog.Func (prolog.alternative a c args k)) cs), s0)
      /\ forall (c : prolog.clause) (s' : prolog.State),
          In c cs ->
          prolog.keeps_bindings (prolog.heap s0) (prolog.heap s') ->
          (prolog.next s0 <= prolog.next s')%nat ->
          let fresh :=
            prolog.fresh_from (length (prolog.vars c))
              (prolog.mkState (prolog.reset_heap a (prolog.heap s'))
                              (prolog.next s') (prolog.logged s')) in
          prolog.alternative a c args k s'
          = prolog.exec (prolog.bytecode_ c) (prolog.xrTable c) (fst fresh) k
                        args (List_ nil) (snd fresh)
          /\ forall v, prolog.reach (prolog.heap s0) args v ->
               prolog.Ref (prolog.deref (prolog.heap (snd fresh)) v)
               = prolog.Ref (prolog.deref (prolog.heap s0) v).
Proof.
  intros Hrank Halloc. split.
  { apply (assignment_add_returns rank (prolog.heap s0) Hrank
             (S (list_max (map rank (term_vars args))))).
    intros w Hw. apply Nat.lt_succ_r.
    assert (Forall (fun k => k <= list_max (map rank (term_vars args)))%nat
                   (map rank (term_vars args))) as Hmax
      by (apply list_max_le; reflexivity).
    rewrite Forall_forall in Hmax. apply Hmax. apply in_map, Hw. }
  intros fuel a Hadd H Hfuel cs k Hcs. split.
  - unfold prolog.clauses_Call. destruct cs as [|c cs]; [contradiction|].
    cbn [length Nat.eqb]. unfold mbind, prolog.M_bind, prolog.bind, prolog.newAssignment.
    cbn [fold_left].
    rewrite (assignment_add_mono _ _ _ _ _ _ Hadd Hfuel). reflexivity.
  - intros c s' _ Hkeep Hnext. cbv zeta. split.
    + unfold prolog.alternative, mbind, prolog.M_bind, prolog.bind,
        prolog.assignment_reset, prolog.modify_heap.
      rewrite make_vars_fresh_from. reflexivity.
    + intros v Hv. rewrite fresh_from_old by (cbn [prolog.next]; specialize (Halloc v Hv); lia).
      cbn [prolog.heap].
      pose proof (assignment_add_spec _ _ _ _ _ Hadd v) as Hin.
      destruct (in_dec Nat.eq_dec v a) as [Ha|Ha].
      * rewrite reset_heap_in by exact Ha.
        apply Hin in Ha as [[]|[_ Hfree]]. symmetry. exact Hfree.
      * rewrite reset_heap_out by exact Ha.
        destruct (prolog.Ref (prolog.deref (prolog.heap s0) v)) eqn:Eref;
          try (rewrite <- Eref; apply Hkeep; rewrite Eref; discriminate).
        exfalso. apply Ha, Hin. right. split; [exact Hv|reflexivity].
Qed.

(** ** The properties on concrete inputs *)

Section Examples.
Import prolog.

(** [undef/0] under each unknown-action, and a procedure that is there. *)
Lemma arrive_dispatch_witness :
  let H := SpecHost.model 8 in
  let undef := mkPI "undef" 0 in
  arrive (mkEngine None unknownError) undef (List_ nil) Done emptyState
  = Ret (Error (Exception
                  (TCompound "existence_error"
                     (TAtom "procedure"
                      :: TCompound "/" (TAtom "undef" :: TInteger 0 :: nil) :: nil))
                  None), emptyState)
  /\ arrive (mkEngine None unknownFail) undef (List_ nil) Done emptyState
     = Ret (Bool false, emptyState)
  /\ arrive (mkEngine None unknownWarning) undef (List_ nil) Done emptyState
     = Ret (Bool false,
            mkState ∅ 0
              (mkEntry "warning" "unknown procedure" (("procedure", undef) :: nil)
               :: nil))
  /\ arrive (mkEngine (Some {[ undef := clauses nil ]}) unknownError) undef
            (List_ nil) Done emptyState
     = Ret (Delay (Func (Call (clauses nil) (List_ nil) Done) :: nil), emptyState).
Proof.
  intros H undef. split; [|split; [|split]].
  - apply (proj1 (arrive_dispatch (mkEngine None unknownError) undef (List_ nil)
                    Done emptyState)); reflexivity.
  - apply (proj1 (proj2 (arrive_dispatch (mkEngine None unknownFail) undef
                           (List_ nil) Done emptyState))); reflexivity.
  - apply (proj1 (proj2 (proj2 (arrive_dispatch (mkEngine None unknownWarning)
                                  undef (List_ nil) Done emptyState))));
      reflexivity.
  - apply (proj2 (proj2 (proj2 (arrive_dispatch
                                  (mkEngine (Some {[ undef := clauses nil ]})
                                            unknownError)
                                  undef (List_ nil) Done emptyState)))).
    reflexivity.
Defined.

(** A host predicate of arity 2. *)
Lemma predicate_Call_witness :
  let H := SpecHost.model 8 in
  let p := predicate2 (fun _ _ k => ret (Delay (k :: nil))) in
  host_arity p = Some 2%nat
  /\ (2 <= 5)%nat
  /\ (forall e s1, run e (exit_thunk Done) s1 = Ret (Delay (Done :: nil), s1)).
Proof.
  intros H p. split; [reflexivity|].
  destruct (predicate_Call p 2 (List_ (TInteger 1 :: TInteger 2 :: nil)) Done
              emptyState eq_refl) as (Hle & _ & Hrun & _).
  split; [exact Hle|exact Hrun].
Defined.

(** The opcode 8. *)
Lemma exec_unknown_opcode_or_end_witness :
  let H := SpecHost.model 8 in
  ~ (0 <= 8 <= 7)
  /\ exec (8 :: nil) nil nil Done TNil TNil emptyState
     = Ret (Error (fmt_Errorf "unknown(%d)" (ArgByte 8 :: nil)), emptyState).
Proof.
  intros H. split; [lia|].
  apply (proj1 (exec_unknown_opcode_or_end nil nil Done TNil TNil emptyState)).
  lia.
Defined.

(** C8 as it is stated fails: the error Promise of the opcode 8, and
    that of the empty bytecode, do not carry a [system_error]. *)
Lemma exec_error_not_system_error :
  let H := SpecHost.model 8 in
  (exists err,
      exec (8 :: nil) nil nil Done TNil TNil emptyState = Ret (Error err, emptyState)
      /\ ~ is_system_error err)
  /\ (exists err,
      exec nil nil nil Done TNil TNil emptyState = Ret (Error err, emptyState)
      /\ ~ is_system_error err).
Proof.
  intros H. split; eexists; (split; [reflexivity|]); intros [cause Hc];
    discriminate Hc.
Qed.

(** C4.  The code at the fact [p(0, ..., 256)], which needs 257 entries
    of the table: it compiles without error; the instruction for the
    constant 256 has the operand 0, which is the entry of the constant 0.
    So the compiled fact, run on its own arguments [0, ..., 256], fails,
    and run on [0, ..., 255, 0], succeeds with the continuation. *)
Theorem wide_fact_miscompiled :
  let H := SpecHost.model 8 in
  let own := map (fun n => TInteger (Z.of_nat n)) (seq 0 257) in
  let other := map (fun n => TInteger (Z.of_nat n)) (seq 0 256)
               ++ TInteger 0 :: nil in
  match compileClause (emptyClause (mkPI "p" 257)) wide_fact TNil emptyState with
  | Ret ((None, c'), s1) =>
      wide_fact = TCompound "p" own
      /\ length (xrTable c') = 257%nat
      /\ vars c' = nil
      /\ nth_error (xrTable c') 256 = Some (TInteger 256)
      /\ firstn 2 (skipn 512 (bytecode_ c')) = opConst :: 0 :: nil
      /\ nth_error (xrTable c') 0 = Some (TInteger 0)
      /\ match exec (bytecode_ c') (xrTable c') nil Done (List_ own)
                    (List_ nil) s1 with
         | Ret (Bool false, _) => True
         | _ => False
         end
      /\ match exec (bytecode_ c') (xrTable c') nil Done (List_ other)
                    (List_ nil) s1 with
         | Ret (Delay (k :: nil), _) => k = Done
         | _ => False
         end
  | _ => False
  end.
Proof. vm_compute. repeat split; reflexivity. Qed.

(** The first constant of a clause. *)
Lemma offsets_are_bytes_witness :
  let H := SpecHost.model 8 in
  let c := emptyClause (mkPI "p" 1) in
  let c' := mkClause (mkPI "p" 1) TNil (TAtom "a" :: nil) nil nil in
  xrOffset c (TAtom "a") emptyState = Ret ((0, c'), emptyState)
  /\ is_byte 0.
Proof.
  intros H c c'.
  assert (xrOffset c (TAtom "a") emptyState = Ret ((0, c'), emptyState)) as Hx
    by reflexivity.
  split; [exact Hx|].
  exact (proj1 (proj1 (offsets_are_bytes c emptyState) (TAtom "a") 0 c' emptyState Hx)).
Defined.

(** The goals of [q(X), r, s(X, 1)]. *)
Lemma spine_example :
  spine (TCompound ","
           (TCompound "q" (TVar 0 :: nil)
            :: TCompound "," (TAtom "r"
                              :: TCompound "s" (TVar 0 :: TInteger 1 :: nil)
                              :: nil)
            :: nil))
  = TCompound "q" (TVar 0 :: nil) :: TAtom "r"
    :: TCompound "s" (TVar 0 :: TInteger 1 :: nil) :: nil.
Proof. reflexivity. Qed.

(** The clause [p(X) :- q(X), r.] *)
Lemma compileClause_layout_witness :
  let H := SpecHost.model 8 in
  let head := TCompound "p" (TVar 0 :: nil) in
  let body := TCompound "," (TCompound "q" (TVar 0 :: nil) :: TAtom "r" :: nil) in
  let code := opVar :: 0 :: opEnter :: opVar :: 0 :: opCall :: 0 :: opCall :: 1
              :: opExit :: nil in
  let c' := mkClause (mkPI "p" 1) TNil
              (TIndicator (mkPI "q" 1) :: TIndicator (mkPI "r" 0) :: nil)
              (0%nat :: nil) code in
  let s' := mkState (set_Name 0 "" ∅) 0 nil in
  compileClause (emptyClause (mkPI "p" 1)) head body emptyState
  = Ret ((None, c'), s')
  /\ last (bytecode_ c') opVoid = opExit.
Proof.
  intros H head body code c' s'.
  assert (compileClause (emptyClause (mkPI "p" 1)) head body emptyState
          = Ret ((None, c'), s')) as Hc by (vm_compute; reflexivity).
  split; [exact Hc|].
  destruct (compileClause_layout _ _ _ _ _ _ Hc) as (_ & _ & _ & _ & _ & Hlast & _).
  exact Hlast.
Defined.

(** [p(X, a)] is called with [X] bound to [f(Y)] and [Y] unbound.  The
    alternative of the clause [p(f(b), c).] binds [Y] to [b] and fails on
    the second argument.  The next alternative starts with [Y] unbound
    and [X] bound to [f(Y)], as they were at the call. *)
Lemma clauses_Call_restores_witness :
  let H := SpecHost.model 8 in
  let h0 : gmap VarId Variable_ :=
    {[ 0%nat := mkVariable "X" (TCompound "f" (TVar 1 :: nil)) ]} in
  let s0 := mkState h0 2 nil in
  let args := List_ (TVar 0 :: TAtom "a" :: nil) in
  let c1 := mkClause (mkPI "p" 2) TNil
              (TIndicator (mkPI "f" 1) :: TAtom "b" :: TAtom "c" :: nil) nil
              (opFunctor :: 0 :: opConst :: 1 :: opPop :: opConst :: 2
               :: opExit :: nil) in
  let c2 := mkClause (mkPI "p" 2) TNil nil (7%nat :: nil)
              (opVar :: 0 :: opVar :: 0 :: opExit :: nil) in
  let a : assignment := 1%nat :: nil in
  let s1 := match alternative a c1 args Done s0 with
            | Ret (_, s) => s
            | Panic _ => s0
            end in
  let fresh := fresh_from (length (vars c2))
                 (mkState (reset_heap a (heap s1)) (next s1) (logged s1)) in
  alternative a c1 args Done s0 = Ret (Bool false, s1)
  /\ SpecHost.resolve (heap s1) (TVar 1) = TAtom "b"
  /\ alternative a c2 args Done s1
     = exec (bytecode_ c2) (xrTable c2) (fst fresh) Done args (List_ nil)
            (snd fresh)
  /\ Ref (deref (heap (snd fresh)) 1) = TNil
  /\ Ref (deref (heap (snd fresh)) 0) = TCompound "f" (TVar 1 :: nil).
Proof.
  intros H h0 s0 args c1 c2 a s1 fresh.
  assert (Ref (deref h0 0) = TCompound "f" (TVar 1 :: nil)) as E0 by reflexivity.
  assert (Ref (deref h0 1) = TNil) as E1 by reflexivity.
  assert (ranked (fun v => if Nat.eqb v 0 then 1%nat else 0%nat) (heap s0))
    as Hranked.
  { cbn [heap s0]. intros v w Hw. destruct (Nat.eq_dec v 0%nat) as [->|Hne].
    - rewrite E0 in Hw. destruct Hw as [<-|[]]. cbn. lia.
    - unfold deref, h0 in Hw. rewrite lookup_singleton_ne in Hw by congruence.
      destruct Hw. }
  assert (reach (heap s0) args 0%nat /\ reach (heap s0) args 1%nat) as [Hr0 Hr1].
  { split; (eapply reach_arg; [left; reflexivity|]); [apply reach_var|].
    apply reach_ref. cbn [heap s0]. rewrite E0.
    eapply reach_arg; [left; reflexivity|apply reach_var]. }
  assert (forall v, reach (heap s0) args v -> (v < next s0)%nat) as Halloc.
  { cbn [heap next s0]. intros v Hr.
    inversion Hr as [| |? ? t ? Hin Hrt]; subst.
    destruct Hin as [<-|[<-|[]]].
    - inversion Hrt as [|? ? Hrx|]; subst; [lia|].
      rewrite E0 in Hrx. inversion Hrx as [| |? ? t ? Hin Hry]; subst.
      destruct Hin as [<-|[]].
      inversion Hry as [|? ? Hrz|]; subst; [lia|].
      rewrite E1 in Hrz. inversion Hrz.
    - inversion Hrt as [| |? ? t ? Hin Hrx]; subst.
      destruct Hin as [<-|[<-|[]]]; inversion Hrx. }
  assert (alternative a c1 args Done s0 = Ret (Bool false, s1)) as Hfail
    by (vm_compute; reflexivity).
  assert (keeps_bindings (heap s0) (heap s1)) as Hkeep.
  { intros v Hb. destruct (Nat.eq_dec v 0%nat) as [->|Hne].
    - vm_compute. reflexivity.
    - exfalso. apply Hb. cbn [heap s0]. unfold deref, h0.
      rewrite lookup_singleton_ne by congruence. reflexivity. }
  assert (next s0 <= next s1)%nat as Hnext
    by (apply Nat.leb_le; vm_compute; reflexivity).
  assert (assignment_add 8 (heap s0) args nil = Some a) as Hadd
    by (vm_compute; reflexivity).
  destruct (proj2 (clauses_Call_restores _ args s0 Hranked Halloc) 8%nat a Hadd
              H (le_n _) (c1 :: c2 :: nil) Done ltac:(discriminate))
    as (_ & Halt).
  destruct (Halt c2 s1 (or_intror (or_introl eq_refl)) Hkeep Hnext)
    as (Hexec & Hrefs).
  split; [exact Hfail|]. split; [vm_compute; reflexivity|].
  split; [exact Hexec|]. split.
  - exact (eq_trans (Hrefs 1%nat Hr1) E1).
  - exact (eq_trans (Hrefs 0%nat Hr0) E0).
Defined.

End Examples.

(** * More of the code *)

(** ** Registration and dispatch *)

Section Registration.
Import prolog vm.
Context {H : Host}.

Lemma registration_register (r : Engine -> outcome Engine)
    (pi : procedureIndicator) (q : procedure) :
  registration r pi q -> r = register pi q.
Proof. destruct 1; reflexivity. Qed.

Lemma register_returns (pi : procedureIndicator) (q : procedure) (e : Engine) :
  register pi q e
  = Ret (mkEngine (Some (<[pi := q]> (default ∅ (procedures e)))) (unknown e)).
Proof. destruct e as [[m|] u]; reflexivity. Qed.

(** X1.  Each of [Register0] to [Register5], on any engine, returns; the
    engine then has the predicate under its indicator, has every other
    indicator as before, and has the unknown-action as before. *)
Theorem Register_lookup (r : Engine -> outcome Engine) (pi : procedureIndicator)
    (q : procedure) (e : Engine) :
  registration r pi q ->
  exists e',
    r e = Ret e'
    /\ map_index (procedures e') pi = Some q
    /\ (forall pi', pi' <> pi ->
          map_index (procedures e') pi' = map_index (procedures e) pi')
    /\ unknown e' = unknown e.
Proof.
  intros Hr. rewrite (registration_register _ _ _ Hr), register_returns.
  eexists. split; [reflexivity|]. cbn [procedures unknown map_index].
  split; [apply lookup_insert_eq|]. split; [|reflexivity].
  intros pi' Hne. rewrite lookup_insert_ne by congruence.
  destruct (procedures e); [reflexivity|apply lookup_empty].
Qed.

(** X2.  Registering twice under one indicator leaves the engine that the
    second registration alone would leave; registrations under two
    different indicators give the same engine in either order. *)
Theorem Register_twice (r1 r2 : Engine -> outcome Engine)
    (pi1 pi2 : procedureIndicator) (q1 q2 : procedure) (e : Engine) :
  registration r1 pi1 q1 -> registration r2 pi2 q2 ->
  (pi1 = pi2 -> and_then r1 r2 e = r2 e)
  /\ (pi1 <> pi2 -> and_then r1 r2 e = and_then r2 r1 e).
Proof.
  intros Hr1 Hr2.
  rewrite (registration_register _ _ _ Hr1), (registration_register _ _ _ Hr2).
  unfold and_then.
  rewrite (register_returns pi1 q1 e), (register_returns pi2 q2 e).
  rewrite !register_returns. cbn [procedures unknown default from_option id].
  split.
  - intros <-. rewrite insert_insert_eq. reflexivity.
  - intros Hne. rewrite insert_insert_ne by congruence. reflexivity.
Qed.

(** X3.  A registration does not change how [arrive] dispatches any other
    indicator. *)
Theorem arrive_after_Register (r : Engine -> outcome Engine)
    (pi pi' : procedureIndicator) (q : procedure) (e e' : Engine)
    (args : Term) (k : thunk) (s : State) :
  registration r pi q -> r e = Ret e' -> pi' <> pi ->
  arrive e' pi' args k s = arrive e pi' args k s.
Proof.
  intros Hr He Hne.
  rewrite (registration_register _ _ _ Hr), register_returns in He.
  injection He as <-. unfold arrive. cbn [procedures unknown map_index].
  rewrite lookup_insert_ne by congruence.
  destruct (procedures e) as [m|]; cbn [default map_index];
    [reflexivity|rewrite lookup_empty; reflexivity].
Qed.

(** X4.  [arrive] always returns, and never [true]; it leaves the
    variables and the allocator as they are, and logs nothing unless the
    procedure is absent and the unknown-action is [warning].  With the
    procedure absent and an unknown-action that is none of the three
    defined, the result is an error Promise with a [system_error]. *)
Theorem arrive_total (e : Engine) (pi : procedureIndicator) (args : Term)
    (k : thunk) (s : State) :
  (exists p s',
      arrive e pi args k s = Ret (p, s')
      /\ p <> Bool true
      /\ heap s' = heap s /\ next s' = next s
      /\ (logged s' <> logged s ->
          map_index (procedures e) pi = None /\ unknown e = unknownWarning))
  /\ (map_index (procedures e) pi = None ->
      unknown e <> unknownError -> unknown e <> unknownFail ->
      unknown e <> unknownWarning ->
      exists err, arrive e pi args k s = Ret (Error err, s)
                  /\ is_system_error err).
Proof.
  unfold arrive. split.
  - destruct (map_index (procedures e) pi) as [q|];
      [|destruct (Z.eqb_spec (unknown e) unknownError) as [He|He];
        [|destruct (Z.eqb_spec (unknown e) unknownWarning) as [Hw|Hw];
          [|destruct (Z.eqb_spec (unknown e) unknownFail) as [Hf|Hf]]]];
      eexists _, _; (split; [reflexivity|]); (split; [discriminate|]);
      (split; [reflexivity|]); (split; [reflexivity|]); intros Hl;
      try (elim Hl; reflexivity).
    split; [reflexivity|exact Hw].
  - intros -> He Hf Hw.
    destruct (Z.eqb_spec (unknown e) unknownError); [contradiction|].
    destruct (Z.eqb_spec (unknown e) unknownWarning); [contradiction|].
    destruct (Z.eqb_spec (unknown e) unknownFail); [contradiction|].
    eexists. split; [reflexivity|]. eexists. reflexivity.
Qed.

End Registration.

(** ** The shape of what [exec] returns *)

Section ExecShape.
Import prolog vm.
Context {H : Host}.

Lemma index_inv {A : Type} (xs : list A) (i : Z) (s s' : State) (x : A) :
  index xs i s = Ret (x, s') -> nth_error xs (Z.to_nat i) = Some x /\ s' = s.
Proof.
  unfold index. destruct (nth_error xs (Z.to_nat i)); [|discriminate].
  intros Hr. apply ret_inv in Hr as [-> ->]. split; reflexivity.
Qed.

Lemma as_procedureIndicator_inv (x : Term) (pf : procedureIndicator) :
  as_procedureIndicator x = Some pf -> x = TIndicator pf.
Proof. destruct x; try discriminate. intros Hx. injection Hx as ->. reflexivity. Qed.

Ltac exec_step Hx IH :=
  match type of Hx with
  | panic _ _ = Ret _ => discriminate Hx
  | ret _ _ = Ret _ => apply ret_inv in Hx as [Hx _]; subst
  | (_ ≫= _) _ = Ret _ => apply bind_Ret_inv in Hx as (? & ? & ? & Hx)
  | (if negb ?b then _ else _) _ = Ret _ => destruct b; cbn [negb] in Hx
  | (match ?x with _ => _ end) _ = Ret _ => destruct x eqn:?
  | exec _ _ _ _ _ _ _ = Ret _ => apply IH in Hx; [exact Hx|cbn [length] in *; lia]
  end.

(** X5.  Whatever the bytecode, [exec] never returns [true]: it returns
    [false], an error, or the delay of exactly one closure, which is the
    continuation [k] it was given or the dispatch of an indicator of
    [xr]. *)
Theorem exec_returns (pc : bytecode) (xr : list Term) (vars : list VarId)
    (k : thunk) (args astack : Term) (s s' : State) (p : Promise) :
  exec pc xr vars k args astack s = Ret (p, s') -> exec_result xr k p.
Proof.
  remember (length pc) as n eqn:Hn.
  assert (length pc <= n)%nat as Hle by lia. clear Hn.
  revert pc args astack s Hle.
  induction n as [|n IHn]; intros pc args astack s Hle Hx.
  - destruct pc; [|cbn in Hle; lia]. apply ret_inv in Hx as [<- _]. exact I.
  - assert (forall pc' a b s0,
               (length pc' <= n)%nat ->
               exec pc' xr vars k a b s0 = Ret (p, s') -> exec_result xr k p)
      as IH by (intros; eapply IHn; eassumption).
    clear IHn.
    destruct pc as [|op pc1]; [apply ret_inv in Hx as [<- _]; exact I|].
    cbn [exec] in Hx. cbn [length] in Hle.
    destruct (Z.eqb op opVoid); [repeat exec_step Hx IH|].
    destruct (Z.eqb op opConst);
      [destruct pc1 as [|i pc2]; repeat exec_step Hx IH; exact eq_refl|].
    destruct (Z.eqb op opVar);
      [destruct pc1 as [|i pc2]; repeat exec_step Hx IH; exact eq_refl|].
    destruct (Z.eqb op opFunctor);
      [destruct pc1 as [|i pc2]; repeat exec_step Hx IH;
       first [exact eq_refl|exact I]|].
    destruct (Z.eqb op opPop); [repeat exec_step Hx IH; exact eq_refl|].
    destruct (Z.eqb op opEnter); [repeat exec_step Hx IH; exact eq_refl|].
    destruct (Z.eqb op opCall).
    { destruct pc1 as [|i pc2]; repeat exec_step Hx IH;
        try exact eq_refl; try exact I.
      right. eexists _, _, _. split; [reflexivity|].
      match goal with
      | Hi : index xr _ _ = Ret _, Hp : as_procedureIndicator _ = Some _ |- _ =>
          apply index_inv in Hi as [Hi _];
          apply as_procedureIndicator_inv in Hp; subst;
          eapply nth_error_In; exact Hi
      end. }
    destruct (Z.eqb op opExit); repeat exec_step Hx IH.
    + left. reflexivity.
    + exact I.
Qed.

End ExecShape.

(** ** Assignments and variable slots *)

Section Snapshots.
Import prolog vm.
Context {H : Host}.

Lemma fold_add_spec (fuel : nat) (h : gmap VarId Variable_) (w : VarId) :
  forall us a0 a',
    fold_left (add_step fuel h) us (Some a0) = Some a' ->
    In w a' <->
    In w a0 \/ exists t, In t us /\ reach h t w /\ Ref (deref h w) = TNil.
Proof.
  induction us as [|u us IHus]; intros a0 a' Hf.
  - injection Hf as <-. split; [intros Hin; left; exact Hin|].
    intros [Hin|(t & [] & _)]. exact Hin.
  - cbn [fold_left add_step] in Hf.
    destruct (assignment_add fuel h u a0) as [a1|] eqn:Hu.
    2:{ rewrite fold_add_None in Hf. discriminate. }
    rewrite (IHus _ _ Hf), (assignment_add_spec _ _ _ _ _ Hu w). cbn [In]. split.
    + intros [[Hin|[Hr Hw]]|(t & Hin & Hr & Hw)]; eauto 6.
    + intros [Hin|(t & [->|Hin] & Hr & Hw)]; eauto 6.
Qed.

Lemma assignment_add_NoDup (fuel : nat) (h : gmap VarId Variable_) :
  forall t a a', assignment_add fuel h t a = Some a' -> List.NoDup a -> List.NoDup a'.
Proof.
  induction fuel as [|fuel IH]; intros t a a' Hadd Hnd; [discriminate|].
  destruct t as [| x | x | x | v | f ts | pi]; cbn [assignment_add] in Hadd;
    try (injection Hadd as <-; exact Hnd).
  - destruct (Ref (deref h v)); try (eapply IH; eassumption).
    destruct (assignment_contains a v) eqn:Ec; injection Hadd as <-; [exact Hnd|].
    apply List.NoDup_app; [exact Hnd|repeat constructor; intros []|].
    intros x Hx [<-|[]]. apply assignment_contains_In in Hx. congruence.
  - change (fold_left (add_step fuel h) ts (Some a) = Some a') in Hadd.
    revert a Hadd Hnd. induction ts as [|u us IHus]; intros a Hadd Hnd.
    + injection Hadd as <-. exact Hnd.
    + cbn [fold_left add_step] in Hadd.
      destruct (assignment_add fuel h u a) as [a1|] eqn:Hu.
      2:{ rewrite fold_add_None in Hadd. discriminate. }
      eapply IHus; [exact Hadd|]. eapply IH; eassumption.
Qed.

(** X6.  When [newAssignment(ts...)] returns, the store is as before and
    the assignment holds, each once, exactly the variables that are
    unbound and met from one of [ts] along the bindings. *)
Theorem newAssignment_collects (ts : list Term) (s s' : State) (a : assignment) :
  newAssignment ts s = Ret (a, s') ->
  s' = s
  /\ List.NoDup a
  /\ forall v, In v a <->
       (exists t, In t ts /\ reach (heap s) t v) /\ Ref (deref (heap s) v) = TNil.
Proof.
  unfold newAssignment.
  change (fun acc t => match acc with
                       | Some a => assignment_add stack_limit (heap s) t a
                       | None => None
                       end) with (add_step stack_limit (heap s)).
  destruct (fold_left (add_step stack_limit (heap s)) ts (Some nil)) as [a0|] eqn:Hf;
    [|discriminate].
  intros Hr. injection Hr as -> ->. split; [reflexivity|]. split.
  - clear - Hf. assert (List.NoDup (@nil VarId)) as Hnd by constructor.
    revert Hf Hnd. generalize (@nil VarId).
    induction ts as [|u us IHus]; intros a0 Hf Hnd.
    + injection Hf as <-. exact Hnd.
    + cbn [fold_left add_step] in Hf.
      destruct (assignment_add stack_limit (heap s') u a0) as [a1|] eqn:Hu.
      2:{ rewrite fold_add_None in Hf. discriminate. }
      eapply IHus; [exact Hf|]. eapply assignment_add_NoDup; eassumption.
  - intros v. rewrite (fold_add_spec _ _ v _ _ _ Hf). cbn [In]. split.
    + intros [[]|(t & Hin & Hr & Hv)]. split; [exists t; split; assumption|exact Hv].
    + intros [(t & Hin & Hr) Hv]. right. exists t. repeat split; assumption.
Qed.

Lemma deref_set_Ref_Name (v w : VarId) (t : Term) (h : gmap VarId Variable_) :
  Name (deref (set_Ref v t h) w) = Name (deref h w).
Proof.
  destruct (Nat.eq_dec v w) as [->|Hne].
  - unfold set_Ref, deref. rewrite lookup_insert_eq. reflexivity.
  - rewrite deref_set_Ref_ne by exact Hne. reflexivity.
Qed.

(** X7.  [assignment.reset()] always returns; it unbinds the variables of
    the assignment and changes nothing else: not the binding of any other
    variable, no name, not the allocator, not the log. *)
Theorem assignment_reset_effect (a : assignment) (s : State) :
  exists s',
    assignment_reset a s = Ret (tt, s')
    /\ next s' = next s /\ logged s' = logged s
    /\ forall v,
        Name (deref (heap s') v) = Name (deref (heap s) v)
        /\ (In v a -> Ref (deref (heap s') v) = TNil)
        /\ (~ In v a -> Ref (deref (heap s') v) = Ref (deref (heap s) v)).
Proof.
  eexists. split; [reflexivity|]. cbn [next logged heap].
  split; [reflexivity|]. split; [reflexivity|]. intros v. split; [|split].
  - unfold reset_heap. generalize (heap s).
    induction a as [|x a IH]; intros h; [reflexivity|].
    cbn [fold_left]. rewrite IH. apply deref_set_Ref_Name.
  - apply reset_heap_in.
  - intros Hout. rewrite reset_heap_out by exact Hout. reflexivity.
Qed.

(** X8.  Resetting an assignment in the store in which [newAssignment]
    took it changes no binding. *)
Theorem reset_after_newAssignment (ts : list Term) (s : State) (a : assignment) :
  newAssignment ts s = Ret (a, s) ->
  forall v, Ref (deref (reset_heap a (heap s)) v) = Ref (deref (heap s) v).
Proof.
  intros Hnew v.
  assert (In v a -> Ref (deref (heap s) v) = TNil) as Hfree.
  { unfold newAssignment in Hnew.
    change (fun acc t => match acc with
                         | Some a => assignment_add stack_limit (heap s) t a
                         | None => None
                         end) with (add_step stack_limit (heap s)) in Hnew.
    destruct (fold_left (add_step stack_limit (heap s)) ts (Some nil)) as [a0|] eqn:Hf;
      [|discriminate].
    injection Hnew as ->. intros Hin.
    apply (fold_add_spec _ _ v _ _ _ Hf) in Hin as [[]|(_ & _ & _ & Hv)]. exact Hv. }
  destruct (in_dec Nat.eq_dec v a) as [Hin|Hout].
  - rewrite reset_heap_in by exact Hin. symmetry. apply Hfree, Hin.
  - rewrite reset_heap_out by exact Hout. reflexivity.
Qed.

(** X9.  The variable slots of an alternative: [n] slots are the [n]
    addresses from the next free one on, all different; each is a new
    unbound, unnamed variable; every other cell and the log are as
    before. *)
Theorem make_vars_fresh (n : nat) (s : State) :
  exists s',
    make_vars n s = Ret (seq (next s) n, s')
    /\ List.NoDup (seq (next s) n)
    /\ next s' = (next s + n)%nat /\ logged s' = logged s
    /\ (forall v, (next s <= v < next s + n)%nat ->
          deref (heap s') v = zeroVariable)
    /\ (forall v, ~ (next s <= v < next s + n)%nat ->
          deref (heap s') v = deref (heap s) v).
Proof.
  revert s. induction n as [|n IH]; intros s.
  - exists s. split; [reflexivity|]. split; [constructor|].
    split; [lia|]. split; [reflexivity|]. split; [intros v Hv; lia|reflexivity].
  - destruct (IH (mkState (<[next s := zeroVariable]> (heap s)) (S (next s))
                          (logged s)))
      as (s' & Hm & _ & Hnext & Hlog & Hnew & Hold).
    cbn [next logged heap] in *. exists s'. split.
    { cbn [make_vars seq]. unfold mbind, M_bind, bind, new_Variable.
      rewrite Hm. reflexivity. }
    split; [apply List.seq_NoDup|]. split; [lia|]. split; [exact Hlog|]. split.
    + intros v Hv. destruct (Nat.eq_dec v (next s)) as [->|Hne].
      * rewrite Hold by lia. unfold deref. rewrite lookup_insert_eq. reflexivity.
      * apply Hnew. lia.
    + intros v Hv. rewrite Hold by lia. unfold deref.
      rewrite lookup_insert_ne by lia. reflexivity.
Qed.

End Snapshots.

(** ** The tables of the compiler *)

Section Tables.
Import prolog vm.
Context {H : Host}.

Lemma varSearch_None (vs : list VarId) (i : nat) (o : VarId) :
  varSearch i vs o = None -> ~ In o vs.
Proof.
  revert i. induction vs as [|v vs IH]; intros i Hs; [intros []|].
  cbn [varSearch] in Hs. destruct (Nat.eqb_spec v o) as [->|Hne]; [discriminate|].
  intros [Heq|Hin]; [contradiction|]. exact (IH _ Hs Hin).
Qed.

Lemma varSearch_last (vs : list VarId) (i : nat) (o : VarId) :
  varSearch i vs o = None ->
  varSearch i (vs ++ o :: nil) o = Some (i + length vs)%nat.
Proof.
  revert i. induction vs as [|v vs IH]; intros i Hs.
  - cbn. rewrite Nat.eqb_refl. f_equal. lia.
  - cbn [varSearch app length] in *. destruct (Nat.eqb v o); [discriminate|].
    rewrite (IH _ Hs). f_equal. lia.
Qed.

(** X10.  [varOffset] keeps the slots free of duplicates: the slots it
    leaves are the old ones, followed by [o] if [o] was not among them;
    asked again for [o], in any store, it gives the same operand and
    changes neither the clause nor the store. *)
Theorem varOffset_dedup (c : clause) (o : VarId) (s : State) :
  List.NoDup (vars c) ->
  exists b c' s',
    varOffset c o s = Ret ((b, c'), s')
    /\ List.NoDup (vars c')
    /\ (vars c' = vars c \/ vars c' = vars c ++ o :: nil)
    /\ In o (vars c')
    /\ xrTable c' = xrTable c /\ bytecode_ c' = bytecode_ c
    /\ forall s2, varOffset c' o s2 = Ret ((b, c'), s2).
Proof.
  intros Hnd. unfold varOffset at 1.
  destruct (varSearch 0 (vars c) o) as [j|] eqn:Hs.
  - exists (byte j), c, s. split; [reflexivity|]. split; [exact Hnd|].
    split; [left; reflexivity|]. split.
    { apply varSearch_found in Hs as [_ Hnth]. eapply nth_error_In, Hnth. }
    split; [reflexivity|]. split; [reflexivity|].
    intros s2. unfold varOffset. rewrite Hs. reflexivity.
  - eexists _, _, _. split; [reflexivity|]. cbn [vars xrTable bytecode_].
    split.
    { apply List.NoDup_app; [exact Hnd|repeat constructor; intros []|].
      intros x Hx [<-|[]]. exact (varSearch_None _ _ _ Hs Hx). }
    split; [right; reflexivity|]. split; [apply in_or_app; right; left; reflexivity|].
    split; [reflexivity|]. split; [reflexivity|].
    intros s2. unfold varOffset. cbn [vars].
    rewrite (varSearch_last _ _ _ Hs). cbn [Nat.add].
    unfold ret. repeat f_equal. rewrite length_app. cbn [length]. lia.
Qed.

(** X11.  What [varOffset] does to the store: nothing when [o] is among
    the slots already; otherwise it clears the name of [o] and nothing
    else.  It never changes a binding, the allocator or the log. *)
Theorem varOffset_store (c : clause) (o : VarId) (s s' : State) (b : Z)
    (c' : clause) :
  varOffset c o s = Ret ((b, c'), s') ->
  next s' = next s /\ logged s' = logged s
  /\ (forall v, Ref (deref (heap s') v) = Ref (deref (heap s) v))
  /\ (forall v, v <> o -> deref (heap s') v = deref (heap s) v)
  /\ (In o (vars c) -> s' = s)
  /\ (~ In o (vars c) -> Name (deref (heap s') o) = "").
Proof.
  unfold varOffset. destruct (varSearch 0 (vars c) o) as [j|] eqn:Hs.
  - intros Hr. apply ret_inv in Hr as [_ <-].
    repeat split; try reflexivity. intros Hout. exfalso. apply Hout.
    apply varSearch_found in Hs as [_ Hnth]. eapply nth_error_In, Hnth.
  - intros Hr. apply bind_Ret_inv in Hr as ([] & s1 & Hm & Hr).
    apply ret_inv in Hr as [_ <-]. injection Hm as <-. cbn [next logged heap].
    split; [reflexivity|]. split; [reflexivity|]. split; [|split; [|split]].
    + intros v. unfold set_Name, deref at 1.
      destruct (Nat.eq_dec o v) as [->|Hne].
      * rewrite lookup_insert_eq. reflexivity.
      * rewrite lookup_insert_ne by exact Hne. reflexivity.
    + intros v Hne. unfold set_Name, deref at 1.
      rewrite lookup_insert_ne by congruence. reflexivity.
    + intros Hin. elim (varSearch_None _ _ _ Hs Hin).
    + intros _. unfold set_Name, deref at 1. rewrite lookup_insert_eq. reflexivity.
Qed.

Lemma Term_Unify_key (r o : Term) (s : State) :
  keys_exact -> key r -> key o ->
  exists ok : bool, Term_Unify r o false s = Ret (ok, s) /\ (ok = true <-> r = o).
Proof.
  intros Hk Hr Ho. destruct (Hk r o s Hr Ho) as (ok & Hu & Hok).
  exists ok. split; [|exact Hok]. destruct r; try exact Hu. destruct Hr.
Qed.

(** The search of [xrOffset], when [Unify] is exact on the keys: the
    first index of [o], if any. *)
Lemma xrSearch_exact (rs : list Term) (i : nat) (o : Term) (s : State) :
  keys_exact -> Forall key rs -> key o ->
  (exists j, xrSearch i rs o s = Ret (Some (i + j)%nat, s)
             /\ nth_error rs j = Some o
             /\ forall j', (j' < j)%nat -> nth_error rs j' <> Some o)
  \/ (xrSearch i rs o s = Ret (None, s) /\ ~ In o rs).
Proof.
  intros Hk Hrs Ho. revert i. induction Hrs as [|r rs Hr _ IH]; intros i.
  - right. split; [reflexivity|intros []].
  - cbn [xrSearch]. unfold mbind, M_bind, bind.
    destruct (Term_Unify_key r o s Hk Hr Ho) as (ok & -> & Hok). destruct ok.
    + left. exists 0%nat. rewrite Nat.add_0_r. split; [reflexivity|].
      split; [cbn; f_equal; apply Hok; reflexivity|intros j' Hj; lia].
    + assert (r <> o) as Hne by (intros Heq; apply Hok in Heq; discriminate).
      destruct (IH (S i)) as [(j & Hs & Hnth & Hfirst)|[Hs Hout]].
      * left. exists (S j). replace (i + S j)%nat with (S i + j)%nat by lia.
        split; [exact Hs|]. split; [exact Hnth|].
        intros [|j'] Hj; cbn; [congruence|apply Hfirst; lia].
      * right. split; [exact Hs|]. intros [Heq|Hin]; [contradiction|].
        exact (Hout Hin).
Qed.

Lemma xrOffset_exact (c : clause) (o : Term) (s : State) :
  keys_exact -> Forall key (xrTable c) -> key o ->
  exists (i : nat) (c' : clause),
    xrOffset c o s = Ret ((byte i, c'), s)
    /\ nth_error (xrTable c') i = Some o
    /\ (forall j, (j < i)%nat -> nth_error (xrTable c') j <> Some o)
    /\ ((In o (xrTable c) /\ c' = c)
        \/ (~ In o (xrTable c) /\ xrTable c' = xrTable c ++ o :: nil
            /\ i = length (xrTable c)))
    /\ Forall key (xrTable c')
    /\ vars c' = vars c /\ bytecode_ c' = bytecode_ c.
Proof.
  intros Hk Hkeys Ho. unfold xrOffset, mbind, M_bind, bind.
  destruct (xrSearch_exact (xrTable c) 0 o s Hk Hkeys Ho)
    as [(j & -> & Hnth & Hfirst)|[-> Hout]].
  - exists j, c. cbn [Nat.add]. split; [reflexivity|]. split; [exact Hnth|].
    split; [exact Hfirst|]. split; [left; split; [eapply nth_error_In, Hnth|reflexivity]|].
    split; [exact Hkeys|]. split; reflexivity.
  - eexists (length (xrTable c)), _. split.
    { unfold ret. repeat f_equal. cbn [xrTable]. rewrite length_app. cbn. lia. }
    cbn [xrTable vars bytecode_]. split.
    { rewrite nth_error_app2 by lia. rewrite Nat.sub_diag. reflexivity. }
    split.
    { intros j Hj Hnth. rewrite nth_error_app1 in Hnth by exact Hj.
      apply Hout. eapply nth_error_In, Hnth. }
    split; [right; repeat split; assumption|].
    split; [apply Forall_app; split; [exact Hkeys|repeat constructor; exact Ho]|].
    split; reflexivity.
Qed.

(** X12.  With a [Unify] that is exact on the keys, [xrOffset] keeps the
    table a list of keys without duplicates: [o] is at one offset [i] of
    the table it leaves, appended if [o] was not in the table, and what
    [xrOffset] returns, without touching the store, is [byte(i)]; asked
    again for [o] it gives the same operand and leaves the clause as it
    is.  When the table it leaves has at most 256 entries, the operand is
    the offset [i] itself, and the entry at the operand is [o]. *)
Theorem xrOffset_dedup (c : clause) (o : Term) (s : State) :
  keys_exact -> Forall key (xrTable c) -> List.NoDup (xrTable c) -> key o ->
  exists (i : nat) (c' : clause),
    xrOffset c o s = Ret ((byte i, c'), s)
    /\ (forall j, nth_error (xrTable c') j = Some o <-> j = i)
    /\ (xrTable c' = xrTable c \/ xrTable c' = xrTable c ++ o :: nil)
    /\ Forall key (xrTable c') /\ List.NoDup (xrTable c')
    /\ vars c' = vars c /\ bytecode_ c' = bytecode_ c
    /\ (forall s2, xrOffset c' o s2 = Ret ((byte i, c'), s2))
    /\ ((length (xrTable c') <= 256)%nat ->
        byte i = Z.of_nat i
        /\ nth_error (xrTable c') (Z.to_nat (byte i)) = Some o).
Proof.
  intros Hk Hkeys Hnd Ho.
  destruct (xrOffset_exact c o s Hk Hkeys Ho)
    as (i & c' & Hx & Hnth & Hfirst & Hcase & Hkeys' & Hv & Hb).
  assert (List.NoDup (xrTable c')) as Hnd'.
  { destruct Hcase as [[_ ->]|(Hout & -> & _)]; [exact Hnd|].
    apply List.NoDup_app; [exact Hnd|repeat constructor; intros []|].
    intros x Hx' [<-|[]]. exact (Hout Hx'). }
  exists i, c'. split; [exact Hx|]. split.
  { intros j. split; [|intros ->; exact Hnth].
    intros Hj. rewrite List.NoDup_nth_error in Hnd'.
    apply Hnd'; [apply nth_error_Some; congruence|congruence]. }
  split; [destruct Hcase as [[_ ->]|(_ & -> & _)]; [left|right]; reflexivity|].
  split; [exact Hkeys'|]. split; [exact Hnd'|]. split; [exact Hv|].
  split; [exact Hb|]. split.
  - intros s2.
    destruct (xrOffset_exact c' o s2 Hk Hkeys' Ho)
      as (i2 & c2 & Hx2 & Hnth2 & _ & Hcase2 & _).
    destruct Hcase2 as [[_ ->]|(Hout & _)].
    2:{ elim Hout. eapply nth_error_In, Hnth. }
    rewrite Hx2. rewrite List.NoDup_nth_error in Hnd'.
    rewrite (Hnd' i2 i); [reflexivity|apply nth_error_Some; congruence|congruence].
  - intros Hlen.
    assert (i < length (xrTable c'))%nat as Hi by (apply nth_error_Some; congruence).
    assert (Z.to_nat (byte i) = i) as Hbyte by (apply byte_small; lia).
    split; [|rewrite Hbyte; exact Hnth].
    unfold byte. apply Z.mod_small. lia.
Qed.

End Tables.

(** ** What the compiler keeps, and its errors *)

Section CompilerInvariants.
Import prolog vm.
Context {H : Host}.
Hypothesis Hkeys : keys_exact.

Lemma bind_Ret {A B : Type} (m : M A) (f : A -> M B) (s s1 : State) (a : A) :
  m s = Ret (a, s1) -> (m ≫= f) s = f a s1.
Proof. unfold mbind, M_bind, bind. intros ->. reflexivity. Qed.

Lemma well_formed_app (xr : list Term) (nv : nat) (a b : bytecode) :
  well_formed xr nv a -> well_formed xr nv b -> well_formed xr nv (a ++ b).
Proof.
  intros Ha Hb. induction Ha; cbn [app]; try (econstructor; eassumption).
  exact Hb.
Qed.

Lemma extends_trans (c1 c2 c3 : clause) (code1 code2 : bytecode) :
  extends c1 c2 code1 -> extends c2 c3 code2 -> extends c1 c3 (code1 ++ code2).
Proof.
  intros ([xs1 Hx1] & [vs1 Hv1] & Hb1) ([xs2 Hx2] & [vs2 Hv2] & Hb2).
  split; [|split].
  - exists (xs1 ++ xs2). rewrite Hx2, Hx1, app_assoc. reflexivity.
  - exists (vs1 ++ vs2). rewrite Hv2, Hv1, app_assoc. reflexivity.
  - rewrite Hb2, Hb1, app_assoc. reflexivity.
Qed.

Lemma code_ok_mono (c1 c2 : clause) (code0 code : bytecode) :
  extends c1 c2 code0 -> code_ok c1 code -> code_ok c2 code.
Proof.
  intros ([xs Hx] & [vs Hv] & _) Hok xr nv [ys Hxr] Hnv Hlen Hnv'.
  apply Hok; try assumption.
  - exists (xs ++ ys). rewrite Hxr, Hx, app_assoc. reflexivity.
  - rewrite Hv, length_app in Hnv. lia.
Qed.

Lemma compiles_refl (c : clause) :
  Forall key (xrTable c) -> compiles c c nil.
Proof.
  intros Hk. split; [|split; [exact Hk|intros xr nv _ _ _ _; constructor]].
  split; [exists nil; symmetry; apply app_nil_r|].
  split; [exists nil; symmetry; apply app_nil_r|symmetry; apply app_nil_r].
Qed.

Lemma compiles_trans (c1 c2 c3 : clause) (code1 code2 : bytecode) :
  compiles c1 c2 code1 -> compiles c2 c3 code2 -> compiles c1 c3 (code1 ++ code2).
Proof.
  intros (He1 & _ & Hok1) (He2 & Hk & Hok2). split; [|split; [exact Hk|]].
  - eapply extends_trans; eassumption.
  - intros xr nv Hxr Hnv Hlen Hnv'. apply well_formed_app.
    + eapply code_ok_mono; eassumption.
    + apply Hok2; assumption.
Qed.

Lemma compiles_emit (c : clause) (code : bytecode) :
  Forall key (xrTable c) -> code_ok c code -> compiles c (emit c code) code.
Proof.
  intros Hk Hok. split; [|split; [exact Hk|exact Hok]].
  split; [exists nil; symmetry; apply app_nil_r|].
  split; [exists nil; symmetry; apply app_nil_r|reflexivity].
Qed.

Lemma operand_in_table (c : clause) (i : nat) (o : Term) (xr : list Term) :
  nth_error (xrTable c) i = Some o ->
  (exists xs, xr = xrTable c ++ xs) -> (length xr <= 256)%nat ->
  nth_error xr (Z.to_nat (byte i)) = Some o.
Proof.
  intros Hnth [xs ->] Hlen.
  assert (i < length (xrTable c))%nat as Hi by (apply nth_error_Some; congruence).
  rewrite length_app in Hlen. rewrite byte_small by lia.
  rewrite nth_error_app1 by exact Hi. exact Hnth.
Qed.

(** [xrOffset] followed by the emission of an instruction that takes the
    operand. *)
Lemma xrOffset_compiles (c : clause) (o : Term) (s : State) (op : Z) :
  Forall key (xrTable c) -> key o ->
  (forall xr nv i pc, nth_error xr (Z.to_nat i) = Some o ->
                      well_formed xr nv pc -> well_formed xr nv (op :: i :: pc)) ->
  exists (i : Z) (c1 : clause),
    xrOffset c o s = Ret ((i, c1), s)
    /\ compiles c (emit c1 (op :: i :: nil)) (op :: i :: nil).
Proof.
  intros Hk Ho Hwf.
  destruct (xrOffset_exact c o s Hkeys Hk Ho)
    as (i & c1 & Hx & Hnth & _ & Hcase & Hk1 & Hv & Hb).
  exists (byte i), c1. split; [exact Hx|].
  assert (extends c c1 nil) as Hext.
  { split; [|split].
    - destruct Hcase as [[_ ->]|(_ & -> & _)]; eauto.
      exists nil. symmetry. apply app_nil_r.
    - exists nil. rewrite Hv. symmetry. apply app_nil_r.
    - rewrite Hb. symmetry. apply app_nil_r. }
  change (op :: byte i :: nil) with (nil ++ op :: byte i :: nil) at 2.
  apply compiles_trans with (c2 := c1).
  - split; [exact Hext|]. split; [exact Hk1|]. intros xr nv _ _ _ _. constructor.
  - apply compiles_emit; [exact Hk1|].
    intros xr nv Hxr _ Hlen _. apply Hwf; [|constructor].
    eapply operand_in_table; eassumption.
Qed.

Lemma varOffset_compiles (c : clause) (o : VarId) (s : State) :
  Forall key (xrTable c) ->
  exists (i : Z) (c1 : clause) (s1 : State),
    varOffset c o s = Ret ((i, c1), s1)
    /\ compiles c (emit c1 (opVar :: i :: nil)) (opVar :: i :: nil).
Proof.
  intros Hk.
  destruct (varOffset_spec c o s) as (b & c1 & s1 & i & Hv & Hb & Hx & -> & Hnth).
  exists (byte i), c1, s1. split; [exact Hv|].
  assert (exists vs, vars c1 = vars c ++ vs) as Hvars.
  { unfold varOffset in Hv. destruct (varSearch 0 (vars c) o).
    - apply ret_inv in Hv as [Hv _]. injection Hv as _ <-.
      exists nil. symmetry. apply app_nil_r.
    - apply bind_Ret_inv in Hv as (? & ? & _ & Hv).
      apply ret_inv in Hv as [Hv _]. injection Hv as _ <-. cbn [vars]. eauto. }
  change (opVar :: byte i :: nil) with (nil ++ opVar :: byte i :: nil) at 2.
  apply compiles_trans with (c2 := c1).
  - split; [|split; [rewrite Hx; exact Hk|intros xr nv _ _ _ _; constructor]].
    split; [exists nil; rewrite Hx; symmetry; apply app_nil_r|].
    split; [exact Hvars|rewrite Hb; symmetry; apply app_nil_r].
  - apply compiles_emit; [rewrite Hx; exact Hk|].
    intros xr nv _ Hnv _ Hnv'. constructor; [|constructor].
    assert (i < length (vars c1))%nat as Hi by (apply nth_error_Some; congruence).
    rewrite byte_small by lia. lia.
Qed.

Lemma subterm_arg_of (b n : Term) (f : Atom) (ns : list Term) :
  In n ns -> subterm b n -> subterm b (TCompound f ns).
Proof. intros Hin Hs. eapply subterm_arg; eassumption. Qed.

(** The loop over arguments, given what [compileArg] does on each. *)
Lemma compileArgs_full_if (ns : list Term) :
  Forall (fun n => forall c s, Forall key (xrTable c) ->
            exists err c' s' code,
              compileArg c n s = Ret ((err, c'), s')
              /\ compiles c c' code
              /\ forall e, err = Some e -> argument_error n e) ns ->
  forall c s, Forall key (xrTable c) ->
    exists err c' s' code,
      compileArgs c ns s = Ret ((err, c'), s')
      /\ compiles c c' code
      /\ forall e, err = Some e -> exists n, In n ns /\ argument_error n e.
Proof.
  induction 1 as [|n ns Hn _ IH]; intros c s Hk.
  - exists None, c, s, nil. split; [reflexivity|].
    split; [apply compiles_refl, Hk|discriminate].
  - destruct (Hn c s Hk) as (e1 & c1 & s1 & code1 & Hc1 & Hcomp1 & He1).
    cbn [compileArgs]. rewrite (bind_Ret _ _ _ _ _ Hc1). destruct e1 as [e|].
    + exists (Some e), c1, s1, code1. split; [reflexivity|].
      split; [exact Hcomp1|]. intros e' He'. injection He' as <-.
      exists n. split; [left; reflexivity|apply He1; reflexivity].
    + destruct (IH c1 s1 (proj1 (proj2 Hcomp1)))
        as (e2 & c2 & s2 & code2 & Hc2 & Hcomp2 & He2).
      exists e2, c2, s2, (code1 ++ code2). split; [exact Hc2|].
      split; [eapply compiles_trans; eassumption|].
      intros e He. destruct (He2 e He) as (m & Hin & Hm).
      exists m. split; [right; exact Hin|exact Hm].
Qed.

Lemma compileArg_full (a : Term) :
  forall c s, Forall key (xrTable c) ->
    exists err c' s' code,
      compileArg c a s = Ret ((err, c'), s')
      /\ compiles c c' code
      /\ forall e, err = Some e -> argument_error a e.
Proof.
  induction a as [| x | x | x | v | f ns IH | pi] using Term_ind';
    intros c s Hk.
  - eexists _, c, s, nil. split; [reflexivity|]. split; [apply compiles_refl, Hk|].
    intros e He. injection He as <-. exists TNil.
    split; [constructor|]. split; [left; reflexivity|reflexivity].
  - destruct (xrOffset_compiles c (TAtom x) s opConst Hk I) as (i & c1 & Hx & Hcomp).
    { intros; econstructor; eassumption. }
    eexists None, _, s, _. cbn [compileArg]. rewrite (bind_Ret _ _ _ _ _ Hx).
    split; [reflexivity|]. split; [exact Hcomp|discriminate].
  - destruct (xrOffset_compiles c (TInteger x) s opConst Hk I) as (i & c1 & Hx & Hcomp).
    { intros; econstructor; eassumption. }
    eexists None, _, s, _. cbn [compileArg]. rewrite (bind_Ret _ _ _ _ _ Hx).
    split; [reflexivity|]. split; [exact Hcomp|discriminate].
  - destruct (xrOffset_compiles c (TFloat x) s opConst Hk I) as (i & c1 & Hx & Hcomp).
    { intros; econstructor; eassumption. }
    eexists None, _, s, _. cbn [compileArg]. rewrite (bind_Ret _ _ _ _ _ Hx).
    split; [reflexivity|]. split; [exact Hcomp|discriminate].
  - destruct (varOffset_compiles c v s Hk) as (i & c1 & s1 & Hv & Hcomp).
    eexists None, _, s1, _. cbn [compileArg]. rewrite (bind_Ret _ _ _ _ _ Hv).
    split; [reflexivity|]. split; [exact Hcomp|discriminate].
  - destruct (xrOffset_compiles c (TIndicator (mkPI f (Z.of_nat (length ns)))) s
                opFunctor Hk I) as (i & c1 & Hx & Hcomp1).
    { intros; econstructor; eassumption. }
    destruct (compileArgs_full_if ns IH (emit c1 (opFunctor :: i :: nil)) s
                (proj1 (proj2 Hcomp1)))
      as (e2 & c2 & s2 & code2 & Hc2 & Hcomp2 & He2).
    rewrite compileArg_compound, (bind_Ret _ _ _ _ _ Hx), (bind_Ret _ _ _ _ _ Hc2).
    destruct e2 as [e|].
    + eexists (Some e), c2, s2, _. split; [reflexivity|].
      split; [eapply compiles_trans; eassumption|].
      intros e' He'. injection He' as <-.
      destruct (He2 e eq_refl) as (n & Hin & b & Hsub & Hbad & ->).
      exists b. split; [eapply subterm_arg_of; eassumption|]. split; [exact Hbad|reflexivity].
    + eexists None, _, s2, _. split; [reflexivity|]. split; [|discriminate].
      eapply compiles_trans; [eapply compiles_trans; eassumption|].
      apply compiles_emit; [exact (proj1 (proj2 Hcomp2))|].
      intros xr nv _ _ _ _. repeat constructor.
  - eexists _, c, s, nil. split; [reflexivity|]. split; [apply compiles_refl, Hk|].
    intros e He. injection He as <-. exists (TIndicator pi).
    split; [constructor|]. split; [right; eexists; reflexivity|reflexivity].
Qed.

Lemma compileArgs_full (ns : list Term) (c : clause) (s : State) :
  Forall key (xrTable c) ->
  exists err c' s' code,
    compileArgs c ns s = Ret ((err, c'), s')
    /\ compiles c c' code
    /\ forall e, err = Some e -> exists n, In n ns /\ argument_error n e.
Proof.
  apply compileArgs_full_if. apply Forall_forall. intros n _. apply compileArg_full.
Qed.

Lemma ordinary_subterm (b a : Term) :
  subterm b a -> ordinary a -> ordinary b.
Proof.
  induction 1 as [|f args t Hin _ IH]; intros Ha; [exact Ha|].
  inversion Ha as [| | | |? ? Hall]; subst. apply IH.
  rewrite Forall_forall in Hall. apply Hall, Hin.
Qed.

Lemma ordinary_no_error (a : Term) (e : error) :
  ordinary a -> ~ argument_error a e.
Proof.
  intros Ha (b & Hsub & Hbad & _).
  pose proof (ordinary_subterm _ _ Hsub Ha) as Hb.
  destruct Hbad as [->|[pi ->]]; inversion Hb.
Qed.

Lemma compilePred_full (p : Term) (c : clause) (s : State) :
  Forall key (xrTable c) ->
  exists err c' s' code,
    compilePred c p s = Ret ((err, c'), s')
    /\ compiles c c' code
    /\ (forall e, err = Some e -> goal_error p e).
Proof.
  intros Hk.
  destruct p as [| a | | | | f ns |];
    try (eexists _, c, s, nil; split; [reflexivity|];
         split; [apply compiles_refl, Hk|];
         intros e He; injection He as <-; left; split; [intros []|reflexivity]).
  - destruct (xrOffset_compiles c (TIndicator (mkPI a 0)) s opCall Hk I)
      as (i & c1 & Hx & Hcomp).
    { intros; econstructor; eassumption. }
    eexists None, _, s, _. cbn [compilePred]. rewrite (bind_Ret _ _ _ _ _ Hx).
    split; [reflexivity|]. split; [exact Hcomp|discriminate].
  - destruct (compileArgs_full ns c s Hk) as (e1 & c1 & s1 & code1 & Hc1 & Hcomp1 & He1).
    cbn [compilePred]. rewrite (bind_Ret _ _ _ _ _ Hc1). destruct e1 as [e|].
    + eexists (Some e), c1, s1, code1. split; [reflexivity|].
      split; [exact Hcomp1|]. intros e' He'. injection He' as <-. right.
      destruct (He1 e eq_refl) as (n & Hin & b & Hsub & Hbad & ->).
      exists b. split; [eapply subterm_arg_of; eassumption|]. split; [exact Hbad|reflexivity].
    + destruct (xrOffset_compiles c1 (TIndicator (mkPI f (Z.of_nat (length ns)))) s1
                  opCall (proj1 (proj2 Hcomp1)) I) as (i & c2 & Hx & Hcomp2).
      { intros; econstructor; eassumption. }
      rewrite (bind_Ret _ _ _ _ _ Hx).
      eexists None, _, s1, _. split; [reflexivity|]. split; [|discriminate].
      eapply compiles_trans; eassumption.
Qed.

Lemma compileBody_full (body : Term) :
  forall c s, Forall key (xrTable c) ->
    exists err c' s' code,
      compileBody c body s = Ret ((err, c'), s')
      /\ compiles c c' code
      /\ (forall e, err = Some e -> exists g, In g (spine body) /\ goal_error g e).
Proof.
  assert (forall g c s, Forall key (xrTable c) ->
            exists err c' s' code,
              compilePred c g s = Ret ((err, c'), s')
              /\ compiles c c' code
              /\ (forall e, err = Some e ->
                    exists g', In g' (g :: nil) /\ goal_error g' e)) as Hsingle.
  { intros g c s Hk.
    destruct (compilePred_full g c s Hk) as (err & c' & s' & code & Hc & Hcomp & He).
    exists err, c', s', code. split; [exact Hc|]. split; [exact Hcomp|].
    intros e Hee. exists g. split; [left; reflexivity|apply He, Hee]. }
  induction body as [| x | x | x | v | f ns IH | pi] using Term_ind';
    intros c s Hk; try (apply Hsingle; exact Hk).
  destruct ns as [|g [|rest [|x xs]]]; try (apply Hsingle; exact Hk).
  cbn [compileBody spine]. destruct (String.eqb f ","); [|apply Hsingle; exact Hk].
  destruct (compilePred_full g c s Hk) as (e1 & c1 & s1 & code1 & Hc1 & Hcomp1 & He1).
  rewrite (bind_Ret _ _ _ _ _ Hc1). destruct e1 as [e|].
  - exists (Some e), c1, s1, code1. split; [reflexivity|]. split; [exact Hcomp1|].
    intros e' He'. injection He' as <-. exists g.
    split; [left; reflexivity|apply He1; reflexivity].
  - inversion IH as [|? ? _ IH']. inversion IH' as [|? ? IHrest _]. subst.
    destruct (IHrest c1 s1 (proj1 (proj2 Hcomp1)))
      as (e2 & c2 & s2 & code2 & Hc2 & Hcomp2 & He2).
    exists e2, c2, s2, (code1 ++ code2). split; [exact Hc2|].
    split; [eapply compiles_trans; eassumption|].
    intros e He. destruct (He2 e He) as (g' & Hin & Hg).
    exists g'. split; [right; exact Hin|exact Hg].
Qed.

Lemma compileClause_full (c : clause) (head body : Term) (s : State) :
  Forall key (xrTable c) ->
  exists err c' s' code,
    compileClause c head body s = Ret ((err, c'), s')
    /\ compiles c c' code
    /\ (forall e, err = Some e -> clause_error head body e)
    /\ (err = None -> last (bytecode_ c') opVoid = opExit).
Proof.
  intros Hk. unfold compileClause.
  assert (exists e1 c1 s1 code1,
             compileHead c head s = Ret ((e1, c1), s1)
             /\ compiles c c1 code1
             /\ (forall e, e1 = Some e -> goal_error head e))
    as (e1 & c1 & s1 & code1 & Hc1 & Hcomp1 & He1).
  { destruct head as [| a | | | | f ns |];
      try (eexists _, c, s, nil; split; [reflexivity|];
           split; [apply compiles_refl, Hk|];
           intros e He; injection He as <-; left; split; [intros []|reflexivity]).
    - exists None, c, s, nil. split; [reflexivity|].
      split; [apply compiles_refl, Hk|discriminate].
    - destruct (compileArgs_full ns c s Hk) as (e1 & c1 & s1 & code1 & Hc & Hcomp & He).
      exists e1, c1, s1, code1. split; [exact Hc|]. split; [exact Hcomp|].
      intros e Hee. right. destruct (He e Hee) as (n & Hin & b & Hsub & Hbad & ->).
      exists b. split; [eapply subterm_arg_of; eassumption|]. split; [exact Hbad|reflexivity]. }
  rewrite (bind_Ret _ _ _ _ _ Hc1). destruct e1 as [e|].
  { exists (Some e), c1, s1, code1. split; [reflexivity|]. split; [exact Hcomp1|].
    split; [|discriminate]. intros e' He'. injection He' as <-. left.
    apply He1. reflexivity. }
  assert (exists e2 c2 s2 code2,
             match body with
             | TNil => ret (None, c1)
             | _ => compileBody (emit c1 (opEnter :: nil)) body
             end s1 = Ret ((e2, c2), s2)
             /\ compiles c1 c2 code2
             /\ (forall e, e2 = Some e ->
                   body <> TNil /\ exists g, In g (spine body) /\ goal_error g e))
    as (e2 & c2 & s2 & code2 & Hc2 & Hcomp2 & He2).
  { assert (compiles c1 (emit c1 (opEnter :: nil)) (opEnter :: nil)) as Henter.
    { apply compiles_emit; [exact (proj1 (proj2 Hcomp1))|].
      intros xr nv _ _ _ _. repeat constructor. }
    destruct body;
      try (match goal with
           | |- context [compileBody _ ?b] =>
               destruct (compileBody_full b (emit c1 (opEnter :: nil)) s1
                           (proj1 (proj2 Henter)))
                 as (e2 & c2 & s2 & code2 & Hc & Hcomp & He);
               exists e2, c2, s2, (opEnter :: code2);
               split; [exact Hc|];
               split; [exact (compiles_trans _ _ _ _ _ Henter Hcomp)|];
               intros e Hee; split; [discriminate|apply He, Hee]
           end).
    exists None, c1, s1, nil. split; [reflexivity|].
    split; [apply compiles_refl, (proj1 (proj2 Hcomp1))|discriminate]. }
  rewrite (bind_Ret _ _ _ _ _ Hc2). destruct e2 as [e|].
  { exists (Some e), c2, s2, (code1 ++ code2). split; [reflexivity|].
    split; [eapply compiles_trans; eassumption|]. split; [|discriminate].
    intros e' He'. injection He' as <-. right. apply He2. reflexivity. }
  eexists None, _, s2, _. split; [reflexivity|]. split.
  - eapply compiles_trans; [eapply compiles_trans; eassumption|].
    apply compiles_emit; [exact (proj1 (proj2 Hcomp2))|].
    intros xr nv _ _ _ _. repeat constructor.
  - split; [discriminate|]. intros _. cbn [emit bytecode_]. apply last_last.
Qed.

End CompilerInvariants.

Section CompilerProperties.
Import prolog vm.
Context {H : Host}.

(** X13.  With a [Unify] that is exact on the keys and a table of keys,
    [compileArg] returns for every term, and without error for every
    ordinary term: an atom, a number, a variable or a compound of
    ordinary terms. *)
Theorem compileArg_ordinary (c : clause) (a : Term) (s : State) :
  keys_exact -> Forall key (xrTable c) ->
  exists err c' s',
    compileArg c a s = Ret ((err, c'), s')
    /\ Forall key (xrTable c')
    /\ (ordinary a -> err = None).
Proof.
  intros Hk Hc.
  destruct (compileArg_full Hk a c s Hc) as (err & c' & s' & code & Hr & Hcomp & He).
  exists err, c', s'. split; [exact Hr|]. split; [exact (proj1 (proj2 Hcomp))|].
  intros Ha. destruct err as [e|]; [|reflexivity].
  elim (ordinary_no_error a e Ha). apply He. reflexivity.
Qed.

(** X14.  With a [Unify] that is exact on the keys and a table of keys,
    [compileClause] always returns.  An error it returns is
    [type_error(callable, T)] for the head or a goal of the body's spine
    that is not callable, or the [system_error] of an argument, at any
    depth, that [compileArg] has no case for.  A callable, ordinary head
    with a body of callable, ordinary goals, or no body, compiles
    without error. *)
Theorem compileClause_errors (c : clause) (head body : Term) (s : State) :
  keys_exact -> Forall key (xrTable c) ->
  exists err c' s',
    compileClause c head body s = Ret ((err, c'), s')
    /\ (forall e, err = Some e -> clause_error head body e)
    /\ (callable head -> ordinary head ->
        (body = TNil
         \/ Forall (fun g => callable g /\ ordinary g) (spine body)) ->
        err = None).
Proof.
  intros Hk Hc.
  destruct (compileClause_full Hk c head body s Hc)
    as (err & c' & s' & code & Hr & _ & He & _).
  exists err, c', s'. split; [exact Hr|]. split; [exact He|].
  intros Hcall Hord Hbody. destruct err as [e|]; [|reflexivity]. exfalso.
  destruct (He e eq_refl) as [Hg|(Hnil & g & Hin & Hg)].
  - destruct Hg as [[Hnc _]|Harg]; [exact (Hnc Hcall)|].
    exact (ordinary_no_error _ _ Hord Harg).
  - destruct Hbody as [->|Hall]; [exact (Hnil eq_refl)|].
    rewrite Forall_forall in Hall. destruct (Hall g Hin) as [Hgc Hgo].
    destruct Hg as [[Hnc _]|Harg]; [exact (Hnc Hgc)|].
    exact (ordinary_no_error _ _ Hgo Harg).
Qed.

(** X15.  [compile] on a term that [Resolve] gives as [t']: if [t'] is
    not callable the result is [type_error(callable, t')] and only [raw]
    is changed; if [t'] is a compound [:-] with fewer than two arguments,
    [compile] panics on the index; arguments of [:-] after the second are
    not looked at. *)
Theorem compile_edges (c : clause) (t t' : Term) (s s1 : State) :
  Resolve t s = Ret (t', s1) ->
  (~ callable t' ->
   compile c t s
   = Ret ((Some (typeErrorCallable t'),
           mkClause (pf c) t' (xrTable c) (vars c) (bytecode_ c)), s1))
  /\ (forall ns, t' = TCompound ":-" ns -> (length ns < 2)%nat ->
      compile c t s = Panic "index out of range")
  /\ (forall h b rest, t' = TCompound ":-" (h :: b :: rest) ->
      compile c t s
      = compileClause (mkClause (pf c) t' (xrTable c) (vars c) (bytecode_ c))
                      h b s1).
Proof.
  intros Hres. unfold compile. rewrite (bind_Ret _ _ _ _ _ Hres).
  split; [|split].
  - intros Hnc. destruct t'; try reflexivity; elim Hnc; exact I.
  - intros ns -> Hlen. cbn [String.eqb Ascii.eqb Bool.eqb].
    destruct ns as [|h [|b rest]]; [reflexivity|reflexivity|cbn in Hlen; lia].
  - intros h b rest ->. reflexivity.
Qed.

Lemma well_formed_mono (xr xs : list Term) (nv nv' : nat) (pc : bytecode) :
  well_formed xr nv pc -> (nv <= nv')%nat -> well_formed (xr ++ xs) nv' pc.
Proof.
  intros Hwf Hnv. induction Hwf; try (econstructor; eassumption).
  - econstructor; [|assumption].
    rewrite nth_error_app1; [eassumption|apply nth_error_Some; congruence].
  - econstructor; [lia|assumption].
  - econstructor; [|assumption].
    rewrite nth_error_app1; [eassumption|apply nth_error_Some; congruence].
  - eapply wf_call; [|assumption].
    rewrite nth_error_app1; [eassumption|apply nth_error_Some; congruence].
Qed.

Lemma compileClause_wf (c : clause) (head body : Term) (s s' : State)
    (err : option error) (c' : clause) :
  keys_exact -> Forall key (xrTable c) ->
  well_formed (xrTable c) (length (vars c)) (bytecode_ c) ->
  compileClause c head body s = Ret ((err, c'), s') ->
  (length (xrTable c') <= 256)%nat -> (length (vars c') <= 256)%nat ->
  well_formed (xrTable c') (length (vars c')) (bytecode_ c')
  /\ Forall key (xrTable c').
Proof.
  intros Hk Hc Hwf Hr Hlx Hlv.
  destruct (compileClause_full Hk c head body s Hc)
    as (err0 & c0 & s0 & code & Hr0 & Hcomp & _).
  rewrite Hr in Hr0. injection Hr0 as <- <- <-.
  destruct Hcomp as (([xs Hx] & [vs Hv] & Hb) & Hk' & Hok).
  split; [|exact Hk']. rewrite Hb. apply well_formed_app.
  - rewrite Hx, Hv. apply (well_formed_mono _ _ (length (vars c))); [exact Hwf|].
    rewrite length_app. lia.
  - apply Hok; try assumption; try lia. exists nil. symmetry. apply app_nil_r.
Qed.

(** X16.  With a [Unify] that is exact on the keys: if the table of a
    clause holds keys and its bytecode is well formed for its tables,
    then after [compileClause], with or without error, the bytecode is
    well formed for the new tables, provided these have at most 256
    entries each: every instruction is whole, every operand is inside
    its table, and the operand of every [functor] and [call] is the
    index of an indicator. *)
Theorem compileClause_well_formed (c : clause) (head body : Term) (s s' : State)
    (err : option error) (c' : clause) :
  keys_exact -> Forall key (xrTable c) ->
  well_formed (xrTable c) (length (vars c)) (bytecode_ c) ->
  compileClause c head body s = Ret ((err, c'), s') ->
  (length (xrTable c') <= 256)%nat -> (length (vars c') <= 256)%nat ->
  well_formed (xrTable c') (length (vars c')) (bytecode_ c')
  /\ Forall key (xrTable c').
Proof. apply compileClause_wf. Qed.

End CompilerProperties.

(** ** The machine on well-formed bytecode *)

Section ExecWellFormed.
Import prolog vm.
Context {H : Host}.

Lemma bind_Panic_inv {A B : Type} (m : M A) (f : A -> M B) (s : State)
    (why : string) :
  (m ≫= f) s = Panic why ->
  m s = Panic why \/ exists a s1, m s = Ret (a, s1) /\ f a s1 = Panic why.
Proof.
  unfold mbind, M_bind, bind. destruct (m s) as [[a s1]|w].
  - intros Hf. right. exists a, s1. split; [reflexivity|exact Hf].
  - intros Hw. left. injection Hw as ->. reflexivity.
Qed.

Lemma index_Ret {A : Type} (xs : list A) (i : Z) (x : A) (s : State) :
  nth_error xs (Z.to_nat i) = Some x -> index xs i s = Ret (x, s).
Proof. unfold index. intros ->. reflexivity. Qed.

Lemma Term_Unify_Panic (t u : Term) (occ : bool) (s : State) (why : string) :
  t <> TNil -> Term_Unify t u occ s = Panic why -> host_panic why.
Proof.
  intros Ht Hp. left. exists t, u, occ, s.
  destruct t; try exact Hp. contradiction.
Qed.

Ltac reduce_opcode :=
  cbn [exec]; unfold opVoid, opEnter, opCall, opExit, opConst, opVar, opFunctor,
                opPop;
  cbn [Z.eqb Pos.eqb].

Ltac panic_step Hx IH :=
  match type of Hx with
  | ret _ _ = Panic _ => discriminate Hx
  | new_Variable _ = Panic _ => discriminate Hx
  | Term_Unify _ _ _ _ = Panic _ =>
      eapply Term_Unify_Panic; [|exact Hx]; first [assumption|discriminate]
  | Functor_Force _ _ _ _ = Panic _ =>
      right; left; eexists _, _, _, _; exact Hx
  | Univ_Force _ _ _ = Panic _ =>
      right; right; eexists _, _, _; exact Hx
  | (_ ≫= _) _ = Panic _ =>
      apply bind_Panic_inv in Hx as [Hx|(? & ? & ? & Hx)]
  | (if negb ?b then _ else _) _ = Panic _ => destruct b; cbn [negb] in Hx
  | (match ?x with _ => _ end) _ = Panic _ => destruct x
  | exec _ _ _ _ _ _ _ = Panic _ =>
      eapply IH; [| |exact Hx]; first [assumption|discriminate]
  end.

Lemma exec_wf_panic (xr : list Term) (vars : list VarId) (k : thunk)
    (pc : bytecode) :
  well_formed xr (length vars) pc ->
  forall args astack s why,
    args <> TNil -> astack <> TNil ->
    exec pc xr vars k args astack s = Panic why -> host_panic why.
Proof.
  induction 1 as [|pc _ IH|pc _ IH|pc _ IH|pc _ IH|i x pc Hi _ IH|i pc Hi _ IH
                  |i pf pc Hi _ IH|i pf pc Hi _ IH];
    intros args astack s why Ha Hs Hx.
  - discriminate Hx.
  - revert Hx. reduce_opcode. intros Hx. exact (IH _ _ _ _ Ha Hs Hx).
  - revert Hx. reduce_opcode. intros Hx. repeat panic_step Hx IH.
  - revert Hx. reduce_opcode. intros Hx. discriminate Hx.
  - revert Hx. reduce_opcode. intros Hx. repeat panic_step Hx IH.
  - revert Hx. reduce_opcode. intros Hx.
    apply bind_Panic_inv in Hx as [Hx|(? & ? & Hix & Hx)];
      [rewrite (index_Ret _ _ _ _ Hi) in Hx; discriminate Hx|].
    repeat panic_step Hx IH.
  - revert Hx. reduce_opcode. intros Hx.
    destruct (nth_error vars (Z.to_nat i)) as [v|] eqn:Hv.
    2:{ apply nth_error_None in Hv. lia. }
    apply bind_Panic_inv in Hx as [Hx|(? & ? & Hix & Hx)];
      [rewrite (index_Ret _ _ _ _ Hv) in Hx; discriminate Hx|].
    repeat panic_step Hx IH.
  - revert Hx. reduce_opcode. intros Hx.
    apply bind_Panic_inv in Hx as [Hx|(? & ? & Hix & Hx)];
      [rewrite (index_Ret _ _ _ _ Hi) in Hx; discriminate Hx|].
    rewrite (index_Ret _ _ _ _ Hi) in Hix. injection Hix as <- <-.
    cbn [as_procedureIndicator] in Hx.
    repeat panic_step Hx IH.
  - revert Hx. reduce_opcode. intros Hx.
    apply bind_Panic_inv in Hx as [Hx|(? & ? & Hix & Hx)];
      [rewrite (index_Ret _ _ _ _ Hi) in Hx; discriminate Hx|].
    rewrite (index_Ret _ _ _ _ Hi) in Hix. injection Hix as <- <-.
    cbn [as_procedureIndicator] in Hx.
    repeat panic_step Hx IH.
Qed.

(** X17.  On bytecode that is well formed for [xr] and the number of
    slots, started with [args] and [astack] that are not nil, [exec] does
    not panic by itself: a panic of [exec] is a panic of a [Unify],
    [Functor] or [Univ] it called. *)
Theorem exec_well_formed (xr : list Term) (vars : list VarId) (k : thunk)
    (pc : bytecode) (args astack : Term) (s : State) (why : string) :
  well_formed xr (length vars) pc ->
  args <> TNil -> astack <> TNil ->
  exec pc xr vars k args astack s = Panic why -> host_panic why.
Proof. intros Hwf. apply exec_wf_panic. exact Hwf. Qed.

(** X18.  With a [Unify] that is exact on the keys: a clause compiled
    from nothing, with or without error, into tables of at most 256
    entries each, does not make [exec] panic by itself, whatever the slots
    (as many as the clause has variables), the continuation, the
    arguments and the store. *)
Theorem compiled_clause_runs (pi : procedureIndicator) (head body : Term)
    (s0 s1 : State) (err : option error) (c : clause) (vs : list VarId)
    (k : thunk) (args astack : Term) (s : State) (why : string) :
  keys_exact ->
  compileClause (emptyClause pi) head body s0 = Ret ((err, c), s1) ->
  (length (xrTable c) <= 256)%nat -> (length (vars c) <= 256)%nat ->
  length vs = length (vars c) ->
  args <> TNil -> astack <> TNil ->
  exec (bytecode_ c) (xrTable c) vs k args astack s = Panic why ->
  host_panic why.
Proof.
  intros Hk Hc Hlx Hlv Hvs Ha Hs.
  apply exec_wf_panic; [|exact Ha|exact Hs]. rewrite Hvs.
  refine (proj1 (compileClause_wf (emptyClause pi) head body s0 s1 err c Hk _ _
                   Hc Hlx Hlv)); constructor.
Qed.

End ExecWellFormed.

(** ** The model of the host is exact on the keys *)

Section HostModel.
Import prolog vm.

Lemma atomic_eqb_key (r o : Term) :
  key r -> key o -> (SpecHost.atomic_eqb r o = true <-> r = o).
Proof.
  destruct r as [| a | n | f | v | g ts | [n1 a1]];
    destruct o as [| b | m | g' | w | g' us | [n2 a2]];
    cbn [key SpecHost.atomic_eqb name arity]; intros [] [];
    try (split; [discriminate|intros Heq; discriminate Heq]).
  - rewrite String.eqb_eq. split; congruence.
  - rewrite Z.eqb_eq. split; congruence.
  - rewrite Z.eqb_eq. split; congruence.
  - rewrite andb_true_iff, String.eqb_eq, Z.eqb_eq. split.
    + intros [-> ->]. reflexivity.
    + intros Heq. injection Heq as -> ->. split; reflexivity.
Qed.

Lemma SpecHost_keys_exact (fuel : nat) : @keys_exact (SpecHost.model (S fuel)).
Proof.
  intros r o s Hr Ho. exists (SpecHost.atomic_eqb r o).
  split; [|apply atomic_eqb_key; assumption].
  destruct r; destruct o; try destruct Hr; try destruct Ho; reflexivity.
Qed.

End HostModel.

(** ** The further properties on concrete inputs *)

Section MoreExamples.
Import prolog vm.

(** [halt/0] on the zero value of the engine. *)
Lemma Register_lookup_witness :
  let p : thunk -> M Promise := fun k => ret (Delay (k :: nil)) in
  registration (Register0 "halt" p) (mkPI "halt" 0) (predicate0 p)
  /\ exists e',
      Register0 "halt" p zeroEngine = Ret e'
      /\ map_index (procedures e') (mkPI "halt" 0) = Some (predicate0 p)
      /\ unknown e' = unknown zeroEngine.
Proof.
  intros p. split; [constructor|].
  destruct (Register_lookup _ _ _ zeroEngine (registration0 "halt" p))
    as (e' & Hr & Hl & _ & Hu).
  exists e'. repeat split; assumption.
Defined.

(** [halt/0] twice, and [halt/0] with [halt/1]. *)
Lemma Register_twice_witness :
  let p0 : thunk -> M Promise := fun k => ret (Delay (k :: nil)) in
  let q0 : thunk -> M Promise := fun _ => ret (Bool false) in
  let p1 : Term -> thunk -> M Promise := fun _ k => ret (Delay (k :: nil)) in
  and_then (Register0 "halt" p0) (Register0 "halt" q0) zeroEngine
  = Register0 "halt" q0 zeroEngine
  /\ and_then (Register0 "halt" p0) (Register1 "halt" p1) zeroEngine
     = and_then (Register1 "halt" p1) (Register0 "halt" p0) zeroEngine.
Proof.
  intros p0 q0 p1. split.
  - exact (proj1 (Register_twice _ _ _ _ _ _ zeroEngine
                    (registration0 "halt" p0) (registration0 "halt" q0)) eq_refl).
  - apply (proj2 (Register_twice _ _ _ _ _ _ zeroEngine
                    (registration0 "halt" p0) (registration1 "halt" p1))).
    discriminate.
Defined.

(** After [halt/1] is registered, [halt/0] is still unknown. *)
Lemma arrive_after_Register_witness :
  let H := SpecHost.model 1 in
  let p1 : Term -> thunk -> M Promise := fun _ k => ret (Delay (k :: nil)) in
  let e' := mkEngine (Some {[ mkPI "halt" 1 := predicate1 p1 ]}) 0 in
  Register1 "halt" p1 zeroEngine = Ret e'
  /\ arrive e' (mkPI "halt" 0) (List_ nil) Done emptyState
     = arrive zeroEngine (mkPI "halt" 0) (List_ nil) Done emptyState.
Proof.
  intros H p1 e'. split; [reflexivity|].
  apply (arrive_after_Register _ _ _ _ zeroEngine e' _ _ _
           (registration1 "halt" p1) eq_refl).
  discriminate.
Defined.

(** The head [p(a)] against the argument list [[b]]: [false]. *)
Lemma exec_returns_witness :
  let H := SpecHost.model 4 in
  let s' := mkState (<[0%nat := zeroVariable]> ∅) 1 nil in
  exec (opConst :: 0 :: opExit :: nil) (TAtom "a" :: nil) nil Done
       (List_ (TAtom "b" :: nil)) (List_ nil) emptyState
  = Ret (Bool false, s')
  /\ exec_result (TAtom "a" :: nil) Done (Bool false).
Proof.
  intros H s'.
  assert (exec (opConst :: 0 :: opExit :: nil) (TAtom "a" :: nil) nil Done
               (List_ (TAtom "b" :: nil)) (List_ nil) emptyState
          = Ret (Bool false, s')) as Hx by (vm_compute; reflexivity).
  split; [exact Hx|]. exact (exec_returns _ _ _ _ _ _ _ _ _ Hx).
Defined.

(** The assignment of [f(X, Y, X)] with [Y] bound to [a]: [X] alone. *)
Lemma newAssignment_collects_witness :
  let H := SpecHost.model 4 in
  let s := mkState {[ 1%nat := mkVariable "Y" (TAtom "a") ]} 2 nil in
  let t := TCompound "f" (TVar 0 :: TVar 1 :: TVar 0 :: nil) in
  newAssignment (t :: nil) s = Ret (0%nat :: nil, s)
  /\ List.NoDup (0%nat :: nil).
Proof.
  intros H s t.
  assert (newAssignment (t :: nil) s = Ret (0%nat :: nil, s)) as Hn
    by (vm_compute; reflexivity).
  split; [exact Hn|]. exact (proj1 (proj2 (newAssignment_collects _ _ _ _ Hn))).
Defined.

Lemma reset_after_newAssignment_witness :
  let H := SpecHost.model 4 in
  let s := mkState {[ 1%nat := mkVariable "Y" (TAtom "a") ]} 2 nil in
  let t := TCompound "f" (TVar 0 :: TVar 1 :: TVar 0 :: nil) in
  newAssignment (t :: nil) s = Ret (0%nat :: nil, s)
  /\ Ref (deref (reset_heap (0%nat :: nil) (heap s)) 1) = Ref (deref (heap s) 1).
Proof.
  intros H s t.
  assert (newAssignment (t :: nil) s = Ret (0%nat :: nil, s)) as Hn
    by (vm_compute; reflexivity).
  split; [exact Hn|]. exact (reset_after_newAssignment _ _ _ Hn 1%nat).
Defined.

(** A second variable of a clause. *)
Lemma varOffset_dedup_witness :
  let c := mkClause (mkPI "p" 2) TNil nil (7%nat :: nil) nil in
  List.NoDup (vars c)
  /\ exists b c' s',
      varOffset c 9%nat emptyState = Ret ((b, c'), s')
      /\ List.NoDup (vars c') /\ In 9%nat (vars c').
Proof.
  intros c.
  assert (List.NoDup (vars c)) as Hnd by (repeat constructor; intros []).
  split; [exact Hnd|].
  destruct (varOffset_dedup c 9%nat emptyState Hnd)
    as (b & c' & s' & Hv & Hnd' & _ & Hin & _).
  exists b, c', s'. repeat split; assumption.
Defined.

Lemma varOffset_store_witness :
  let c := mkClause (mkPI "p" 2) TNil nil (7%nat :: nil) nil in
  let s := mkState {[ 9%nat := mkVariable "X" TNil ]} 10 nil in
  let c' := mkClause (mkPI "p" 2) TNil nil (7%nat :: 9%nat :: nil) nil in
  let s' := mkState (set_Name 9 "" (heap s)) 10 nil in
  varOffset c 9%nat s = Ret ((1, c'), s')
  /\ next s' = next s /\ logged s' = logged s.
Proof.
  intros c s c' s'.
  assert (varOffset c 9%nat s = Ret ((1, c'), s')) as Hv by reflexivity.
  split; [exact Hv|].
  destruct (varOffset_store _ _ _ _ _ _ Hv) as (Hn & Hl & _).
  split; assumption.
Defined.

(** A second constant of a clause. *)
Lemma xrOffset_dedup_witness :
  let H := SpecHost.model 1 in
  let c := mkClause (mkPI "p" 2) TNil (TAtom "a" :: nil) nil nil in
  keys_exact /\ Forall key (xrTable c) /\ List.NoDup (xrTable c)
  /\ key (TInteger 1)
  /\ exists (i : nat) (c' : clause),
      xrOffset c (TInteger 1) emptyState = Ret ((byte i, c'), emptyState)
      /\ List.NoDup (xrTable c')
      /\ nth_error (xrTable c') i = Some (TInteger 1).
Proof.
  intros H c.
  assert (Forall key (xrTable c)) as Hk by (repeat constructor).
  assert (List.NoDup (xrTable c)) as Hnd by (repeat constructor; intros []).
  split; [apply SpecHost_keys_exact|]. split; [exact Hk|]. split; [exact Hnd|].
  split; [exact I|].
  destruct (xrOffset_dedup c (TInteger 1) emptyState (SpecHost_keys_exact 0) Hk Hnd I)
    as (i & c' & Hx & Hnth & _ & _ & Hnd' & _).
  exists i, c'. split; [exact Hx|]. split; [exact Hnd'|].
  apply Hnth. reflexivity.
Defined.

(** The argument [f(X, 1)]. *)
Lemma compileArg_ordinary_witness :
  let H := SpecHost.model 1 in
  let c := emptyClause (mkPI "p" 1) in
  let a := TCompound "f" (TVar 0 :: TInteger 1 :: nil) in
  keys_exact /\ Forall key (xrTable c) /\ ordinary a
  /\ exists c' s', compileArg c a emptyState = Ret ((None, c'), s').
Proof.
  intros H c a.
  assert (ordinary a) as Ha by (repeat constructor).
  split; [apply SpecHost_keys_exact|]. split; [constructor|]. split; [exact Ha|].
  destruct (compileArg_ordinary c a emptyState (SpecHost_keys_exact 0)
              (Forall_nil _)) as (err & c' & s' & Hc & _ & Herr).
  exists c', s'. rewrite (Herr Ha) in Hc. exact Hc.
Defined.

(** The clause [p(X) :- q(X), r.] *)
Lemma compileClause_errors_witness :
  let H := SpecHost.model 1 in
  let c := emptyClause (mkPI "p" 1) in
  let head := TCompound "p" (TVar 0 :: nil) in
  let body := TCompound "," (TCompound "q" (TVar 0 :: nil) :: TAtom "r" :: nil) in
  keys_exact /\ Forall key (xrTable c)
  /\ exists c' s', compileClause c head body emptyState = Ret ((None, c'), s').
Proof.
  intros H c head body.
  split; [apply SpecHost_keys_exact|]. split; [constructor|].
  destruct (compileClause_errors c head body emptyState (SpecHost_keys_exact 0)
              (Forall_nil _)) as (err & c' & s' & Hc & _ & Herr).
  exists c', s'. rewrite Herr in Hc; [exact Hc|exact I|repeat constructor|].
  right. repeat constructor.
Defined.

(** The directive [:- foo] given as a clause. *)
Lemma compile_edges_witness :
  let H := SpecHost.model 1 in
  let t := TCompound ":-" (TAtom "foo" :: nil) in
  Resolve t emptyState = Ret (t, emptyState)
  /\ compile (emptyClause (mkPI "foo" 0)) t emptyState = Panic "index out of range".
Proof.
  intros H t.
  assert (Resolve t emptyState = Ret (t, emptyState)) as Hr by reflexivity.
  split; [exact Hr|].
  apply (proj1 (proj2 (compile_edges (emptyClause (mkPI "foo" 0)) t t emptyState
                         emptyState Hr)) (TAtom "foo" :: nil) eq_refl).
  cbn. lia.
Defined.

(** The clause [p(X) :- q(X), r.] compiled from nothing. *)
Lemma compileClause_well_formed_witness :
  let H := SpecHost.model 1 in
  let head := TCompound "p" (TVar 0 :: nil) in
  let body := TCompound "," (TCompound "q" (TVar 0 :: nil) :: TAtom "r" :: nil) in
  let code := opVar :: 0 :: opEnter :: opVar :: 0 :: opCall :: 0 :: opCall :: 1
              :: opExit :: nil in
  let c := emptyClause (mkPI "p" 1) in
  let c' := mkClause (mkPI "p" 1) TNil
              (TIndicator (mkPI "q" 1) :: TIndicator (mkPI "r" 0) :: nil)
              (0%nat :: nil) code in
  let s' := mkState (set_Name 0 "" ∅) 0 nil in
  keys_exact /\ Forall key (xrTable c)
  /\ well_formed (xrTable c) (length (vars c)) (bytecode_ c)
  /\ compileClause c head body emptyState = Ret ((None, c'), s')
  /\ (length (xrTable c') <= 256)%nat /\ (length (vars c') <= 256)%nat
  /\ well_formed (xrTable c') (length (vars c')) (bytecode_ c').
Proof.
  intros H head body code c c' s'.
  assert (compileClause c head body emptyState = Ret ((None, c'), s')) as Hc
    by (vm_compute; reflexivity).
  assert (length (xrTable c') <= 256)%nat as Hlx by (cbn; lia).
  assert (length (vars c') <= 256)%nat as Hlv by (cbn; lia).
  split; [apply SpecHost_keys_exact|]. split; [constructor|].
  split; [constructor|]. split; [exact Hc|]. split; [exact Hlx|].
  split; [exact Hlv|].
  exact (proj1 (compileClause_well_formed c head body emptyState s' None c'
                  (SpecHost_keys_exact 0) (Forall_nil _) (wf_nil _ _) Hc Hlx Hlv)).
Defined.

(** A [Unify] that has no depth of recursion left. *)
Lemma exec_well_formed_witness :
  let H := SpecHost.model 0 in
  let xr := TAtom "a" :: nil in
  let pc := opConst :: 0 :: opExit :: nil in
  well_formed xr (length (@nil VarId)) pc
  /\ TVar 0 <> TNil
  /\ exec pc xr nil Done (TVar 0) (TVar 0) emptyState = Panic "stack overflow"
  /\ host_panic "stack overflow".
Proof.
  intros H xr pc.
  assert (well_formed xr (length (@nil VarId)) pc) as Hwf
    by (eapply wf_const; [reflexivity|repeat constructor]).
  assert (TVar 0 <> TNil) as Hv by discriminate.
  assert (exec pc xr nil Done (TVar 0) (TVar 0) emptyState = Panic "stack overflow")
    as Hx by reflexivity.
  split; [exact Hwf|]. split; [exact Hv|]. split; [exact Hx|].
  exact (exec_well_formed xr nil Done pc (TVar 0) (TVar 0) emptyState _ Hwf Hv Hv Hx).
Defined.

(** The fact [p(a).] against [[a]], with a [Unify] that has depth for the
    keys and not for a list. *)
Lemma compiled_clause_runs_witness :
  let H := SpecHost.model 1 in
  let c := mkClause (mkPI "p" 1) TNil (TAtom "a" :: nil) nil
             (opConst :: 0 :: opExit :: nil) in
  let args := List_ (TAtom "a" :: nil) in
  keys_exact
  /\ compileClause (emptyClause (mkPI "p" 1)) (TCompound "p" (TAtom "a" :: nil))
                   TNil emptyState = Ret ((None, c), emptyState)
  /\ exec (bytecode_ c) (xrTable c) nil Done args (List_ nil) emptyState
     = Panic "stack overflow"
  /\ host_panic "stack overflow".
Proof.
  intros H c args.
  assert (compileClause (emptyClause (mkPI "p" 1))
            (TCompound "p" (TAtom "a" :: nil)) TNil emptyState
          = Ret ((None, c), emptyState)) as Hc by (vm_compute; reflexivity).
  assert (exec (bytecode_ c) (xrTable c) nil Done args (List_ nil) emptyState
          = Panic "stack overflow") as Hx by (vm_compute; reflexivity).
  split; [apply SpecHost_keys_exact|]. split; [exact Hc|]. split; [exact Hx|].
  refine (compiled_clause_runs _ _ _ _ _ _ c nil Done args (List_ nil) emptyState _
            (SpecHost_keys_exact 0) Hc _ _ eq_refl _ _ Hx);
    try discriminate; cbn; lia.
Defined.

End MoreExamples.

(** ** Lists, sequences, the order of compounds and numbered variables *)

Section Lists.

(** X19.  [ListRest], [List], [Cons]: a list of [ts] followed by [us]
    before [rest] is the list of [ts] before the list of [us] before
    [rest]; a list of no term is its rest, and a list of a first term and
    others is a [Cons]; two lists built by [List] are the same term only
    when they are of the same terms. *)
Theorem ListRest_app (rest : Term) (ts us : list Term) :
  ListRest rest (ts ++ us) = ListRest (ListRest rest us) ts
  /\ ListRest rest nil = rest
  /\ (forall t, ListRest rest (t :: ts) = Cons t (ListRest rest ts))
  /\ (List_ ts = List_ us <-> ts = us).
Proof.
  split; [apply fold_right_app|]. split; [reflexivity|].
  split; [reflexivity|]. split; [|intros ->; reflexivity].
  revert us. induction ts as [|t ts IH]; intros [|u us] Heq;
    try reflexivity; try discriminate Heq.
  unfold List_, ListRest, Cons in Heq. cbn [fold_right] in Heq.
  injection Heq as -> Heq. f_equal. apply IH. exact Heq.
Qed.

End Lists.

Section Sequences.
Import compound.

Lemma last_app_cons (ts : list Term) (u d : Term) (us : list Term) :
  List.last (ts ++ u :: us) d = List.last (u :: us) d.
Proof.
  induction ts as [|t ts IH]; [reflexivity|].
  cbn [app]. destruct (ts ++ u :: us) as [|x xs] eqn:E.
  - destruct ts; discriminate E.
  - rewrite <- IH. reflexivity.
Qed.

Lemma removelast_app_cons (ts : list Term) (u : Term) (us : list Term) :
  List.removelast (ts ++ u :: us) = ts ++ List.removelast (u :: us).
Proof. apply removelast_app. discriminate. Qed.

(** X20.  [Seq]: of no term it panics, and of one term or more it returns;
    the sequence of one term is the term; the sequence of [ts] followed by
    one term or more is [ts] folded with the separator onto the sequence
    of the terms that follow. *)
Theorem Seq_app (sep : Atom) (ts : list Term) (u : Term) (us : list Term) :
  (Seq sep ts = None <-> ts = nil)
  /\ Seq sep (u :: nil) = Some u
  /\ Seq sep (ts ++ u :: us)
     = option_map (fun s => fold_right (fun t s => TCompound sep (t :: s :: nil)) s ts)
                  (Seq sep (u :: us)).
Proof.
  split; [destruct ts; split; (reflexivity || discriminate)|].
  split; [reflexivity|].
  unfold Seq. destruct (ts ++ u :: us) as [|x xs] eqn:E.
  - destruct ts; discriminate E.
  - rewrite <- E, last_app_cons, removelast_app_cons, fold_right_app.
    reflexivity.
Qed.

End Sequences.

Section Order.
Import engine compound.
Context {EM : EnvModel} {OM : OrderModel}.

Lemma Compare_compound (f : Atom) (cargs : list Term) (t : Term) (env : Env) :
  Compound_Compare f cargs t env
  = match Resolve env t with
    | TCompound g targs =>
        let d := Z.of_nat (length cargs) - Z.of_nat (length targs) in
        if negb (Z.eqb d 0) then d
        else
          let d := Atom_Compare f (TAtom g) env in
          if negb (Z.eqb d 0) then d else CompareArgs cargs targs env
    | _ => 1
    end.
Proof.
  unfold Compound_Compare. cbn [Compare].
  destruct (Resolve env t) as [| | | | |g targs|]; try reflexivity.
  cbv zeta. destruct (negb (Z.eqb _ 0)); [reflexivity|].
  destruct (negb (Z.eqb _ 0)); [reflexivity|].
  generalize targs. clear.
  induction cargs as [|a cs IH]; intros [|b ts]; try reflexivity.
  cbn [CompareArgs]. cbv zeta. rewrite IH. reflexivity.
Qed.

Lemma CompareArgs_zero (cs ts : list Term) (env : Env) :
  length cs = length ts ->
  (CompareArgs cs ts env = 0 <-> Forall2 (fun a b => Compare a b env = 0) cs ts).
Proof.
  revert ts. induction cs as [|a cs IH]; intros [|b ts] Hlen;
    try discriminate Hlen.
  - split; [constructor|reflexivity].
  - injection Hlen as Hlen. cbn [CompareArgs]. cbv zeta.
    destruct (Z.eqb_spec (Compare a b env) 0) as [E|E]; cbn [negb].
    + rewrite (IH ts Hlen). split.
      * intros Hf. constructor; assumption.
      * intros Hf. inversion Hf; subst. assumption.
    + split; [intros E'; contradiction|].
      intros Hf. inversion Hf; subst. contradiction.
Qed.

(** X21.  [Compound.Compare]: a compound is equal to [t] in the order
    exactly when [t] resolves to a compound of as many arguments, the
    functors compare equal, and the arguments compare equal pair by
    pair. *)
Theorem Compare_zero (f : Atom) (cargs : list Term) (t : Term) (env : Env) :
  Compound_Compare f cargs t env = 0
  <-> exists g targs,
        Resolve env t = TCompound g targs
        /\ length cargs = length targs
        /\ Atom_Compare f (TAtom g) env = 0
        /\ Forall2 (fun a b => Compare a b env = 0) cargs targs.
Proof.
  rewrite Compare_compound. split.
  - destruct (Resolve env t) as [| | | | |g targs|]; try discriminate.
    cbv zeta.
    destruct (Z.eqb_spec (Z.of_nat (length cargs) - Z.of_nat (length targs)) 0)
      as [El|El]; cbn [negb]; [|intros E; contradiction].
    destruct (Z.eqb_spec (Atom_Compare f (TAtom g) env) 0) as [Ef|Ef];
      cbn [negb]; [|intros E; contradiction].
    intros E. assert (length cargs = length targs) as Hlen by lia.
    exists g, targs. repeat split; try assumption.
    apply CompareArgs_zero; assumption.
  - intros (g & targs & -> & Hlen & Ef & Hargs). cbv zeta.
    rewrite Hlen, Z.sub_diag, Ef. cbn [Z.eqb negb].
    apply CompareArgs_zero; assumption.
Qed.

(** X22.  [Compound.Compare]: against a compound, the number of arguments
    decides first, then the functor, then the first pair of arguments
    that differ, from left to right. *)
Theorem Compare_first_difference (f g : Atom) (cargs targs : list Term)
    (t : Term) (env : Env) :
  Resolve env t = TCompound g targs ->
  (length cargs <> length targs ->
   Compound_Compare f cargs t env
   = Z.of_nat (length cargs) - Z.of_nat (length targs))
  /\ (length cargs = length targs ->
      Atom_Compare f (TAtom g) env <> 0 ->
      Compound_Compare f cargs t env = Atom_Compare f (TAtom g) env)
  /\ (length cargs = length targs ->
      Atom_Compare f (TAtom g) env = 0 ->
      forall (i : nat) (a b : Term),
        nth_error cargs i = Some a -> nth_error targs i = Some b ->
        Forall2 (fun a' b' => Compare a' b' env = 0)
                (firstn i cargs) (firstn i targs) ->
        Compare a b env <> 0 ->
        Compound_Compare f cargs t env = Compare a b env).
Proof.
  intros Hr. rewrite Compare_compound, Hr. cbv zeta.
  split; [|split].
  - intros Hlen.
    destruct (Z.eqb_spec (Z.of_nat (length cargs) - Z.of_nat (length targs)) 0)
      as [El|El]; cbn [negb]; [lia|reflexivity].
  - intros Hlen Hf. rewrite Hlen, Z.sub_diag. cbn [Z.eqb negb].
    destruct (Z.eqb_spec (Atom_Compare f (TAtom g) env) 0) as [Ef|Ef];
      cbn [negb]; [contradiction|reflexivity].
  - intros Hlen Hf i a b Ha Hb Hpre Hd.
    rewrite Hlen, Z.sub_diag, Hf. cbn [Z.eqb negb].
    clear Hr Hlen Hf. revert targs i Ha Hb Hpre.
    induction cargs as [|c cs IH]; intros ts i Ha Hb Hpre.
    + destruct i; discriminate Ha.
    + destruct ts as [|u us]; [destruct i; discriminate Hb|].
      cbn [CompareArgs]. cbv zeta. destruct i as [|i].
      * injection Ha as ->. injection Hb as ->.
        destruct (Z.eqb_spec (Compare a b env) 0) as [E|E]; cbn [negb];
          [contradiction|reflexivity].
      * cbn [nth_error] in Ha, Hb. cbn [firstn] in Hpre.
        inversion Hpre as [|? ? ? ? E0 Hpre']; subst.
        rewrite E0. cbn [Z.eqb negb]. apply (IH us i); assumption.
Qed.

End Order.

Section NumberVars.
Import compound.

Lemma letter_range (i : Z) (l : Ascii.ascii) :
  letter i = Some l -> 0 <= i < 26 /\ Z.of_nat (Ascii.nat_of_ascii l) = 65 + i.
Proof.
  unfold letter. destruct (Z.ltb_spec i 0) as [Hi|Hi]; [discriminate|].
  intros Hg. assert (exists k, Z.to_nat i = k) as [k Hk] by (eexists; reflexivity).
  rewrite Hk in Hg. assert (i = Z.of_nat k) as -> by lia. clear Hk Hi.
  do 26 (destruct k as [|k];
         [injection Hg as <-; split; [lia|reflexivity]|]).
  discriminate Hg.
Qed.

Lemma letter_some (i : Z) : 0 <= i < 26 -> exists l, letter i = Some l.
Proof.
  intros Hi. unfold letter. destruct (Z.ltb_spec i 0) as [Hn|_]; [lia|].
  assert (exists k, Z.to_nat i = k /\ (k < 26)%nat) as (k & -> & Hk)
    by (eexists; split; [reflexivity|lia]).
  do 26 (destruct k as [|k]; [eexists; reflexivity|]). lia.
Qed.

Lemma decimal_inj (j j' : Z) : decimal j = decimal j' -> j = j'.
Proof.
  unfold decimal. intros E.
  assert (forall z, Z.to_int z <> Decimal.Pos Decimal.Nil
                    /\ Z.to_int z <> Decimal.Neg Decimal.Nil) as Hnn.
  { intros z. split; intros Hz;
      pose proof (DecimalZ.of_to z) as Hof; rewrite Hz in Hof;
      cbn in Hof; subst z; discriminate Hz. }
  pose proof (DecimalString.NilZero.isi _ (proj1 (Hnn j)) (proj2 (Hnn j))) as Hj.
  pose proof (DecimalString.NilZero.isi _ (proj1 (Hnn j')) (proj2 (Hnn j'))) as Hj'.
  rewrite E, Hj' in Hj. injection Hj as Hj.
  rewrite <- (DecimalZ.of_to j), <- (DecimalZ.of_to j'), Hj. reflexivity.
Qed.

Lemma decimal_nonempty (j : Z) : decimal j <> EmptyString.
Proof.
  intros E. assert (decimal j = decimal 0 -> False) as Hne.
  { rewrite E. discriminate. }
  unfold decimal in E.
  assert (Z.to_int j <> Decimal.Pos Decimal.Nil
          /\ Z.to_int j <> Decimal.Neg Decimal.Nil) as [Hp Hn].
  { split; intros Hz;
      pose proof (DecimalZ.of_to j) as Hof; rewrite Hz in Hof;
      cbn in Hof; subst j; discriminate Hz. }
  pose proof (DecimalString.NilZero.isi _ Hp Hn) as Hj.
  rewrite E in Hj. discriminate Hj.
Qed.

(** X23.  [Compound.unparseNumberVar]: it panics exactly when the remainder
    of [n] by 26 is negative, and else emits one variable token; of
    [0..25] the token is the letter alone, and two numbers that give the
    same token are the same number. *)
Theorem unparseNumberVar_names (n m : Integer) :
  (unparseNumberVar n = None <-> Z.rem n 26 < 0)
  /\ (Z.rem n 26 >= 0 ->
      exists v, unparseNumberVar n = Some (mkToken TokenVariable v :: nil)
                /\ (String.length v = 1%nat <-> 0 <= n < 26))
  /\ (forall toks, unparseNumberVar n = Some toks ->
                   unparseNumberVar m = Some toks -> n = m).
Proof.
  assert (forall k, -26 < Z.rem k 26 < 26) as Hrem.
  { intros k. pose proof (Z.rem_bound_abs k 26). lia. }
  assert (forall k, k = 26 * Z.quot k 26 + Z.rem k 26) as Hqr
    by (intros k; apply Z.quot_rem').
  assert (forall k toks, unparseNumberVar k = Some toks ->
            exists l, letter (Z.rem k 26) = Some l
              /\ toks = mkToken TokenVariable
                          (if Z.eqb (Z.quot k 26) 0 then String l EmptyString
                           else (String l EmptyString ++ decimal (Z.quot k 26))%string)
                        :: nil) as Hshape.
  { intros k toks. unfold unparseNumberVar.
    change (Z.of_nat (String.length letters)) with 26.
    destruct (Z.eqb (Z.quot k 26) 0); destruct (letter (Z.rem k 26)) as [l|];
      try discriminate; intros [= <-]; exists l; split; reflexivity. }
  split; [|split].
  - unfold unparseNumberVar.
    change (Z.of_nat (String.length letters)) with 26. split.
    + intros Hn. destruct (Z.lt_ge_cases (Z.rem n 26) 0) as [|Hge]; [assumption|].
      destruct (letter_some (Z.rem n 26)) as [l Hl]; [specialize (Hrem n); lia|].
      rewrite Hl in Hn. destruct (Z.eqb (Z.quot n 26) 0); discriminate Hn.
    + intros Hlt. destruct (letter (Z.rem n 26)) as [l|] eqn:Hl.
      * apply letter_range in Hl. lia.
      * destruct (Z.eqb (Z.quot n 26) 0); reflexivity.
  - intros Hge. destruct (letter_some (Z.rem n 26)) as [l Hl];
      [specialize (Hrem n); lia|].
    unfold unparseNumberVar.
    change (Z.of_nat (String.length letters)) with 26. rewrite Hl.
    destruct (Z.eqb_spec (Z.quot n 26) 0) as [Ej|Ej].
    + eexists. split; [reflexivity|]. cbn [String.length].
      split; [intros _|reflexivity].
      specialize (Hqr n). specialize (Hrem n). lia.
    + eexists. split; [reflexivity|]. cbn [String.append String.length].
      split.
      * intros Hlen. destruct (decimal (Z.quot n 26)) eqn:Ed; [|discriminate Hlen].
        exfalso. exact (decimal_nonempty _ Ed).
      * intros Hn. exfalso. apply Ej. apply Z.quot_small. lia.
  - intros toks Hn Hm.
    destruct (Hshape _ _ Hn) as (l & Hl & ->).
    destruct (Hshape _ _ Hm) as (l' & Hl' & Heq).
    apply letter_range in Hl. apply letter_range in Hl'.
    destruct Hl as [_ Hl]. destruct Hl' as [_ Hl'].
    injection Heq as Heq.
    destruct (Z.eqb_spec (Z.quot n 26) 0) as [Ej|Ej];
      destruct (Z.eqb_spec (Z.quot m 26) 0) as [Ej'|Ej'];
      cbn [String.append] in Heq.
    + injection Heq as ->. rewrite (Hqr n), (Hqr m). lia.
    + injection Heq as -> Hd. exfalso. symmetry in Hd.
      exact (decimal_nonempty _ Hd).
    + injection Heq as -> Hd. exfalso. exact (decimal_nonempty _ Hd).
    + injection Heq as -> Hd. apply decimal_inj in Hd.
      rewrite (Hqr n), (Hqr m). lia.
Qed.

End NumberVars.

Section OrderExamples.
Import engine compound.

(** [f(a, b)] against [f(a, c)]: the second pair of arguments decides. *)
Lemma Compare_first_difference_witness :
  let EM := SpecEnv.model 4 in
  let OM := example_order EM in
  let env : Env := ∅ in
  let t := TCompound "f" (TAtom "a" :: TAtom "c" :: nil) in
  Resolve env t = t
  /\ Compound_Compare "f" (TAtom "a" :: TAtom "b" :: nil) t env
     = Compare (TAtom "b") (TAtom "c") env.
Proof.
  intros EM OM env t.
  assert (Resolve env t = t) as Hr by reflexivity.
  split; [exact Hr|].
  refine (proj2 (proj2 (Compare_first_difference "f" "f"
                          (TAtom "a" :: TAtom "b" :: nil)
                          (TAtom "a" :: TAtom "c" :: nil) t env Hr))
            _ _ 1%nat (TAtom "b") (TAtom "c") _ _ _ _);
    try reflexivity.
  - repeat constructor.
  - discriminate.
Defined.

End OrderExamples.

Section ActionNames.
Import prolog compound.

Lemma append_cancel_r (s s' : string) (c : Ascii.ascii) :
  (s ++ String c EmptyString)%string = (s' ++ String c EmptyString)%string ->
  s = s'.
Proof.
  revert s'. induction s as [|a s IH]; intros [|b s'] E; cbn [String.append] in E.
  - reflexivity.
  - injection E as _ E. destruct s'; discriminate E.
  - injection E as _ E. destruct s; discriminate E.
  - injection E as -> E. f_equal. apply IH. exact E.
Qed.

(** X24.  [unknownAction.String]: two unknown-actions of the same name are
    the same, be they among the three that are defined or not. *)
Theorem unknownAction_String_inj (u u' : unknownAction) :
  unknownAction_String u = unknownAction_String u' <-> u = u'.
Proof.
  split; [|intros ->; reflexivity].
  unfold unknownAction_String, unknownError, unknownFail, unknownWarning.
  destruct (Z.eqb_spec u 0) as [->|H0]; [|destruct (Z.eqb_spec u 1) as [->|H1];
    [|destruct (Z.eqb_spec u 2) as [->|H2]]];
  (destruct (Z.eqb_spec u' 0) as [->|H0']; [|destruct (Z.eqb_spec u' 1) as [->|H1'];
    [|destruct (Z.eqb_spec u' 2) as [->|H2']]]);
  intros E; try reflexivity; try discriminate E.
  cbn [String.append] in E. injection E as E.
  apply append_cancel_r in E. apply decimal_inj. exact E.
Qed.

End ActionNames.
